(** * Semantic analysis core of the Ehlit front-end (ehlit/parser/ast.py,
    ehlit/parser/error.py): a shallow embedding and its checked properties.

    Python objects that are mutated in place are modelled by explicit state
    passing; exceptions and failed assertions by an error result. *)

From Stdlib Require Import ZArith Lia.
From stdpp Require Import base list strings pretty gmap.

Set Warnings "-register-all".

Local Open Scope string_scope.
Local Open Scope list_scope.
Local Open Scope nat_scope.

(** ** Diagnostics (ehlit/parser/error.py) *)
Module Diagnostics.

(** [ParseError.Severity]: Warning = 1, Error = 2, Fatal = 3. *)
Inductive Severity := Warning | Error | Fatal.

Definition severity_level (s : Severity) : Z :=
  match s with Warning => 1 | Error => 2 | Fatal => 3 end.

Definition is_Warning (s : Severity) : bool :=
  match s with Warning => true | _ => false end.

(** [Failure]: [linecol] is [None] until a [ParseError] fills it in. *)
Record Failure := mkFailure {
  severity : Severity;
  pos : nat;
  msg : string;
  file : option string;
  linecol : option (nat * nat)
}.

(** The part of the arpeggio parser the core reads. *)
Record Parser := mkParser {
  file_name : string;
  pos_to_linecol : nat -> nat * nat
}.

(** [Failure.__str__]; the assertion on [linecol] and [file] gives [None]. *)
Definition Failure_str (f : Failure) : option string :=
  match linecol f, file f with
  | Some (l, c), Some fl =>
      Some (fl +:+ ":" +:+ pretty l +:+ ":" +:+ pretty c +:+ ": " +:+ msg f)
  | _, _ => None
  end.

Record ParseError := mkParseError {
  failures : list Failure;
  max_level : Z;
  errors : nat;
  warnings : nat
}.

(** One turn of the loop of [ParseError.__init__]. *)
Definition ParseError_step (p : Parser) (acc : ParseError) (f : Failure)
  : ParseError :=
  let lvl := if Z.ltb (max_level acc) (severity_level (severity f))
             then severity_level (severity f) else max_level acc in
  let w := if is_Warning (severity f) then S (warnings acc) else warnings acc in
  let e := if is_Warning (severity f) then errors acc else S (errors acc) in
  let f' := mkFailure (severity f) (pos f) (msg f) (file f)
                      (Some (pos_to_linecol p (pos f))) in
  mkParseError (failures acc ++ [f']) lvl e w.

(** [ParseError.__init__(failures, parser)]. *)
Definition ParseError_init (fs : list Failure) (parser : option Parser)
  : ParseError :=
  match parser with
  | None => mkParseError fs (-1) 0 0
  | Some p => foldl (ParseError_step p) (mkParseError [] (-1) 0 0) fs
  end.

(** [ParseError.__str__]: the failures' strings, one per line. *)
Fixpoint join_lines (l : list string) : string :=
  match l with
  | [] => ""
  | [s] => s
  | s :: r => s +:+ "
" +:+ join_lines r
  end.

Definition ParseError_str (e : ParseError) : option string :=
  strs ← mapM Failure_str (failures e);
  Some (join_lines strs +:+ "
").

(** A call of [fail(severity, pos, msg)] as it reaches the root. *)
Record FailCall := mkFailCall {
  fc_severity : Severity;
  fc_pos : nat;
  fc_msg : string
}.

(** The root [AST]: the top-level nodes, the failures collected so far and
    the parser that produced the tree. *)
Record AST (Node : Type) := mkAST {
  nodes : list Node;
  ast_failures : list Failure;
  parser : option Parser
}.
Arguments mkAST {Node}.
Arguments nodes {Node}.
Arguments ast_failures {Node}.
Arguments parser {Node}.

Inductive Outcome (Node : Type) :=
| Returned (a : AST Node)
| Raised (e : ParseError)
| AssertionFailed.
Arguments Returned {Node}.
Arguments Raised {Node}.
Arguments AssertionFailed {Node}.

(** [AST.fail]: asserts a parser and appends one [Failure]. *)
Definition AST_fail {Node} (a : AST Node) (c : FailCall) : option (AST Node) :=
  match parser a with
  | None => None
  | Some p =>
      Some (mkAST (nodes a)
              (ast_failures a ++
                 [mkFailure (fc_severity c) (fc_pos c) (fc_msg c)
                            (Some (file_name p)) None])
              (parser a))
  end.

Fixpoint AST_fail_all {Node} (a : AST Node) (cs : list FailCall)
  : option (AST Node) :=
  match cs with
  | [] => Some a
  | c :: r => a' ← AST_fail a c; AST_fail_all a' r
  end.

Section BuildAst.
Context {Node : Type}.
(** The [fail] calls a top-level node issues while it is built; building a
    node never raises a [ParseError] itself: [GenericExternInclusion.build]
    and [FunctionDefinition.build] catch it and call [fail]. *)
Variable node_fails : Node -> list FailCall.

(** The loop [for n in self.nodes: n.build(self)]. *)
Fixpoint build_nodes (a : AST Node) (ns : list Node) : option (AST Node) :=
  match ns with
  | [] => Some a
  | n :: r => a' ← AST_fail_all a (node_fails n); build_nodes a' r
  end.

(** [AST.build_ast], as far as diagnostics go: the pass over all nodes,
    then the single [raise] when any failure was recorded. *)
Definition build_ast (a : AST Node) : Outcome Node :=
  match build_nodes a (nodes a) with
  | None => AssertionFailed
  | Some a' =>
      match ast_failures a' with
      | [] => Returned a'
      | _ :: _ => Raised (ParseError_init (ast_failures a') (parser a'))
      end
  end.

(** Modelled from the spec: the command-line driver that catches the
    aggregate diagnostic is not part of the sources at hand; a build with
    at least one error is unsuccessful, warnings alone are successful. *)
Definition build_unsuccessful (o : Outcome Node) : bool :=
  match o with
  | Returned _ => false
  | Raised e => bool_decide (1 ≤ errors e)%nat
  | AssertionFailed => true
  end.
End BuildAst.

(** The failure [AST.fail] records for a call. *)
Definition recorded_failure (p : Parser) (c : FailCall) : Failure :=
  mkFailure (fc_severity c) (fc_pos c) (fc_msg c) (Some (file_name p)) None.

(** The failure once [ParseError.__init__] has located it. *)
Definition located (p : Parser) (f : Failure) : Failure :=
  mkFailure (severity f) (pos f) (msg f) (file f)
            (Some (pos_to_linecol p (pos f))).

(** The line printed for a recorded call. *)
Definition diagnostic_line (p : Parser) (c : FailCall) : string :=
  let '(l, col) := pos_to_linecol p (fc_pos c) in
  file_name p +:+ ":" +:+ pretty l +:+ ":" +:+ pretty col +:+ ": " +:+ fc_msg c.

Definition count_warnings (cs : list FailCall) : nat :=
  length (filter (fun c => is_Warning (fc_severity c) = true) cs).

Definition count_errors (cs : list FailCall) : nat :=
  length (filter (fun c => is_Warning (fc_severity c) = false) cs).

End Diagnostics.

(** ** The node model: types, symbols and declarations *)
Module Ast.

(** [Qualifier], an [IntFlag]: the bits of a declaration's qualifiers. *)
Definition NONE : Z := 0.
Definition CONST : Z := 1.
Definition RESTRICT : Z := 2.
Definition VOLATILE : Z := 4.
Definition INLINE : Z := 8.
Definition STATIC : Z := 16.
Definition PRIVATE : Z := 32.

(** [Qualifier.is_private]: [bool(self & Qualifier.PRIVATE)]. *)
Definition is_private (q : Z) : bool := negb (Z.land q PRIVATE =? 0)%Z.

Inductive DeclarationType := EHLIT | C.

(** Types ([Type] and its subclasses), symbols ([Symbol] and its
    subclasses), identifiers and declarations.  A [Declaration] stands for
    [VariableDeclaration], [FunctionDeclaration] and [FunctionDefinition];
    [d_typ] is the cached [_typ].  [VArgs] keeps the canonical type of the
    variadic type symbol it is made from. *)
Inductive Ty :=
| BuiltinType (name : string)
| ArrayType (child : Ty)
| ReferenceType (child : Ty)
| FunctionType (ret : Symbol) (args : list Declaration) (is_variadic : bool)
               (variadic_type : option Symbol)
| ContainerStructure (display_name : string) (sym : string)
                     (fields : option (list Declaration))
with Symbol :=
| CompoundIdentifier (elems : list Identifier)
| Array (child : Symbol) (length : option string)
| ReferenceToType (child : Symbol)
| ReferenceToValue (child : Symbol)
| TemplatedIdentifier (name : string) (types : list Ty)
with Identifier :=
| mkIdentifier (pos : nat) (name : string) (decl : option DeclarationBase)
               (ref_offset : Z)
with DeclarationBase :=
| DType (t : Ty)
| DDeclaration (d : Declaration)
| VArgs (typ : Ty)
| VArgsLength
with Declaration :=
| mkDeclaration (name : string) (typ : option Ty) (qualifiers : Z)
                (declaration_type : DeclarationType) (built : bool).

Definition i_pos (i : Identifier) : nat := let 'mkIdentifier p _ _ _ := i in p.
Definition i_name (i : Identifier) : string :=
  let 'mkIdentifier _ n _ _ := i in n.
Definition i_decl (i : Identifier) : option DeclarationBase :=
  let 'mkIdentifier _ _ d _ := i in d.
Definition i_ref_offset (i : Identifier) : Z :=
  let 'mkIdentifier _ _ _ r := i in r.

Definition d_name (d : Declaration) : string :=
  let 'mkDeclaration n _ _ _ _ := d in n.
Definition d_typ (d : Declaration) : option Ty :=
  let 'mkDeclaration _ t _ _ _ := d in t.
Definition d_qualifiers (d : Declaration) : Z :=
  let 'mkDeclaration _ _ q _ _ := d in q.
Definition d_declaration_type (d : Declaration) : DeclarationType :=
  let 'mkDeclaration _ _ _ k _ := d in k.
Definition d_built (d : Declaration) : bool :=
  let 'mkDeclaration _ _ _ _ b := d in b.

(** [DeclarationLookup]: the pair (declaration or null, error or null). *)
Definition DeclarationLookup : Type :=
  option DeclarationBase * option string.

Definition any : Ty := BuiltinType "@any".

(** [Type.any_memory_offset] and its overrides in [BuiltinType],
    [ArrayType] and [ReferenceType]; [FunctionType] and the structures keep
    the default of [Type]. *)
Fixpoint any_memory_offset (t : Ty) : Z :=
  match t with
  | BuiltinType name => if String.eqb name "@str" then 0 else 1
  | ArrayType child => any_memory_offset child
  | ReferenceType child => any_memory_offset child
  | FunctionType _ _ _ _ => 1
  | ContainerStructure _ _ _ => 1
  end.

(** [Type.ref_offset]: 0, but one more than the child for [ReferenceType]. *)
Fixpoint Ty_ref_offset (t : Ty) : Z :=
  match t with
  | ReferenceType child => Ty_ref_offset child + 1
  | _ => 0
  end.

(** [dup] of each type class. *)
Fixpoint dup (t : Ty) : Ty :=
  match t with
  | BuiltinType name => BuiltinType name
  | ArrayType child => ArrayType (dup child)
  | ReferenceType child => ReferenceType (dup child)
  | FunctionType ret args is_variadic _ => FunctionType ret args is_variadic None
  | ContainerStructure d s f => ContainerStructure d s f
  end.

(** [Declaration.typ]: the cached type, [@any] when there is none. *)
Definition Declaration_typ (d : Declaration) : Ty :=
  match d_typ d with
  | None => any
  | Some t => t
  end.

(** [typ] of a declaration found by a lookup: [Declaration.typ], the array
    of [VArgs] and [VArgsLength.typ]. *)
Definition DeclarationBase_typ (d : DeclarationBase) : option Ty :=
  match d with
  | DType _ => None
  | DDeclaration d => Some (Declaration_typ d)
  | VArgs t => Some (ArrayType t)
  | VArgsLength => Some (BuiltinType "@int")
  end.

(** [Identifier.typ]. *)
Definition Identifier_typ (i : Identifier) : Ty :=
  match i_decl i with
  | None => any
  | Some (DType t) => dup t
  | Some d => default any (DeclarationBase_typ d)
  end.

(** [Container.inner_child], from the child of a container. *)
Fixpoint inner_of (child : Symbol) : Symbol :=
  match child with
  | Array c _ | ReferenceToType c | ReferenceToValue c => inner_of c
  | _ => child
  end.

(** The [typ] and [decl] properties of each symbol class.  The outer [None]
    is a raised exception (index error, failed assertion); the inner option
    of [Symbol_decl] is Python's [None]. *)
Fixpoint Symbol_typ (s : Symbol) : option Ty :=
  match s with
  | CompoundIdentifier elems => Identifier_typ <$> last elems
  | Array child _ => ArrayType <$> Symbol_typ child
  | ReferenceToType child => ReferenceType <$> Symbol_typ child
  | ReferenceToValue child =>
      d ← Symbol_decl child;
      match d with
      | None => Some any
      | Some _ =>
          i ← Symbol_decl (inner_of child);
          match i with
          | Some (DType _) | None => None
          | Some d' => DeclarationBase_typ d'
          end
      end
  | TemplatedIdentifier _ types => head types
  end
with Symbol_decl (s : Symbol) : option (option DeclarationBase) :=
  match s with
  | CompoundIdentifier elems => i_decl <$> last elems
  | Array child _ =>
      d ← Symbol_decl child;
      match d with
      | Some (DType t) => Some (Some (DType (ArrayType t)))
      | _ => None
      end
  | ReferenceToType child | ReferenceToValue child =>
      t ← Symbol_typ child; Some (Some (DType (ReferenceType t)))
  | TemplatedIdentifier _ types => t ← head types; Some (Some (DType t))
  end.

(** [Symbol.is_type]: [isinstance(self.decl, Type)]; a [SymbolContainer]
    asks its child. *)
Fixpoint is_type (s : Symbol) : bool :=
  match s with
  | Array child _ | ReferenceToType child | ReferenceToValue child =>
      is_type child
  | _ => match Symbol_decl s with Some (Some (DType _)) => true | _ => false end
  end.

(** [any_memory_offset] of the symbol classes that define it: [Array],
    [ReferenceToType] and [CompoundIdentifier]. *)
Definition Symbol_any_memory_offset (s : Symbol) : option Z :=
  match s with
  | Array _ _ => Some 0%Z
  | ReferenceToType child => any_memory_offset <$> Symbol_typ child
  | CompoundIdentifier elems =>
      any_memory_offset ∘ Identifier_typ <$> last elems
  | _ => None
  end.

(** The payload of a type: what is left below the array and reference
    layers. *)
Fixpoint payload (t : Ty) : Ty :=
  match t with
  | ArrayType child | ReferenceType child => payload child
  | _ => t
  end.

(** A symbol that names the built-in type [name]. *)
Definition builtin_symbol (name : string) : Symbol :=
  CompoundIdentifier [mkIdentifier 0 name (Some (DType (BuiltinType name))) 0].

End Ast.

(** ** The scope graph and name lookup *)
Module Lookup.
Import Ast.

(** The [name] property of each declaration class. *)
Definition DeclarationBase_name (d : DeclarationBase) : string :=
  match d with
  | DType (BuiltinType name) => name
  | DType (ArrayType _) => "@array"
  | DType (ReferenceType _) => "@ref"
  | DType (FunctionType _ _ _ _) => "@func"
  | DType (ContainerStructure _ sym _) => sym
  | DDeclaration d => d_name d
  | VArgs _ => "vargs"
  | VArgsLength => "vargs_len"
  end.

(** [isinstance(decl, Declaration)] *)
Definition is_Declaration (d : DeclarationBase) : bool :=
  match d with DType _ => false | _ => true end.

(** [decl._qualifiers]; [VArgs] and [VArgsLength] are built with [NONE]. *)
Definition DeclarationBase_qualifiers (d : DeclarationBase) : Z :=
  match d with DDeclaration d => d_qualifiers d | _ => NONE end.

(** [DeclarationBase.get_declaration] *)
Definition DeclarationBase_get_declaration (d : DeclarationBase) (sym : string)
  : DeclarationLookup :=
  if String.eqb (DeclarationBase_name d) sym then (Some d, None)
  else (None, None).

(** The loop shared by all lookups: ask each candidate in turn, stop at the
    first that answers with a declaration or with an error. *)
Fixpoint first_answer {A} (get : A -> string -> DeclarationLookup)
    (l : list A) (sym : string) : DeclarationLookup :=
  match l with
  | [] => (None, None)
  | x :: r =>
      match get x sym with
      | (None, None) => first_answer get r sym
      | found => found
      end
  end.

(** [get_inner_declaration] of [ContainerStructure], [ReferenceType],
    [Declaration] and [VArgs]; the other classes keep the default. *)
Fixpoint Ty_get_inner_declaration (t : Ty) (sym : string) : DeclarationLookup :=
  match t with
  | ReferenceType child => Ty_get_inner_declaration child sym
  | ContainerStructure display_name name None =>
      (None, Some ("accessing incomplete " +:+ display_name +:+ " " +:+ name))
  | ContainerStructure _ _ (Some fields) =>
      first_answer (fun f => DeclarationBase_get_declaration (DDeclaration f))
                   fields sym
  | _ => (None, None)
  end.

Definition get_inner_declaration (d : DeclarationBase) (sym : string)
  : DeclarationLookup :=
  match d with
  | DType t => Ty_get_inner_declaration t sym
  | DDeclaration d => Ty_get_inner_declaration (Declaration_typ d) sym
  | VArgs _ =>
      if String.eqb sym "length" then (Some VArgsLength, None) else (None, None)
  | VArgsLength => Ty_get_inner_declaration (BuiltinType "@int") sym
  end.

(** The nodes that can stand at the top level of a module or of an imported
    file.  An inclusion keeps the symbols it brought in ([syms]) and the
    declarations registered in it. *)
Inductive Node :=
| NDeclaration (d : DeclarationBase)
| NImport (lib : string) (syms : list Node) (declarations : list DeclarationBase)
| NInclude (lib : string) (syms : list Node) (declarations : list DeclarationBase)
| NOther.

(** [get_declaration]: the default of [Node], [DeclarationBase]'s and
    [GenericExternInclusion]'s. *)
Fixpoint get_declaration (n : Node) (sym : string) : DeclarationLookup :=
  match n with
  | NDeclaration d => DeclarationBase_get_declaration d sym
  | NImport _ syms _ | NInclude _ syms _ =>
      (fix go (l : list Node) : DeclarationLookup :=
         match l with
         | [] => (None, None)
         | x :: r => match get_declaration x sym with
                     | (None, None) => go r
                     | found => found
                     end
         end) syms
  | NOther => (None, None)
  end.

(** The ancestors of a use site, innermost first, below the root [AST]. *)
Inductive Frame :=
| FNode
| FScope (declarations : list DeclarationBase)
| FFunctionDefinition (declarations : list DeclarationBase) (typ : Ty)
| FImport (syms : list Node) (declarations : list DeclarationBase)
| FInclude (syms : list Node) (declarations : list DeclarationBase).

(** The root: its nodes and the built-in declarations. *)
Record Root := mkRoot {
  root_nodes : list Node;
  root_declarations : list DeclarationBase
}.

(** The declarations [AST.build_ast] starts with. *)
Definition builtin_declarations : list DeclarationBase :=
  DType (FunctionType
           (CompoundIdentifier [mkIdentifier 0 "@any" None 0]) [] false None) ::
  (DType ∘ BuiltinType <$>
     ["@int"; "@int8"; "@int16"; "@int32"; "@int64"; "@uint"; "@uint8";
      "@uint16"; "@uint32"; "@uint64"; "@float"; "@double"; "@decimal";
      "@void"; "@bool"; "@char"; "@size"; "@str"; "@any"]).

(** [AST.find_declaration] *)
Definition AST_find_declaration (a : Root) (sym : string) : DeclarationLookup :=
  match first_answer get_declaration (root_nodes a) sym with
  | (None, None) =>
      match first_answer DeclarationBase_get_declaration
                         (root_declarations a) sym with
      | (Some (DType t), err) => (Some (DType (dup t)), err)
      | other => other
      end
  | found => found
  end.

(** [Scope.find_declaration]; [parent] is the answer of the parent, asked
    only when no local declaration answers ([None]: the parent raised).  The
    bookkeeping of [predeclarations] does not change the answer and is not
    kept. *)
Definition Scope_find_declaration (declarations : list DeclarationBase)
    (parent : option DeclarationLookup) (sym : string)
  : option DeclarationLookup :=
  match first_answer DeclarationBase_get_declaration declarations sym with
  | (None, None) => parent
  | found => Some found
  end.

(** [UnorderedScope.find_declaration] *)
Definition UnorderedScope_find_declaration (scope_contents : list Node)
    (declarations : list DeclarationBase) (parent : option DeclarationLookup)
    (sym : string) : option DeclarationLookup :=
  match first_answer get_declaration scope_contents sym with
  | (None, None) => Scope_find_declaration declarations parent sym
  | found => Some found
  end.

(** [Import.find_declaration] *)
Definition Import_find_declaration (syms : list Node)
    (declarations : list DeclarationBase) (parent : option DeclarationLookup)
    (sym : string) : option DeclarationLookup :=
  r ← UnorderedScope_find_declaration syms declarations parent sym;
  match r with
  | (Some decl, err) =>
      if is_Declaration decl && is_private (DeclarationBase_qualifiers decl)
      then Some (None, Some ("accessing to private symbol `" +:+ sym +:+ "`"))
      else Some (Some decl, err)
  | other => Some other
  end.

(** [FunctionDefinition.find_declaration] *)
Definition FunctionDefinition_find_declaration
    (declarations : list DeclarationBase) (typ : Ty)
    (parent : option DeclarationLookup) (sym : string)
  : option DeclarationLookup :=
  if negb (String.eqb sym "vargs")
  then Scope_find_declaration declarations parent sym
  else match typ with
       | FunctionType _ _ false _ =>
           Some (None, Some "use of vargs in a non variadic function")
       | FunctionType _ _ true (Some vt) =>
           match Symbol_decl vt with
           | Some (Some (DType t)) => Some (Some (VArgs t), None)
           | _ => None
           end
       | _ => None
       end.

(** [find_declaration] from a use site: the call climbs the parent chain up
    to the root. *)
Fixpoint find_declaration (chain : list Frame) (a : Root) (sym : string)
  : option DeclarationLookup :=
  match chain with
  | [] => Some (AST_find_declaration a sym)
  | FNode :: up => find_declaration up a sym
  | FScope ds :: up =>
      Scope_find_declaration ds (find_declaration up a sym) sym
  | FFunctionDefinition ds typ :: up =>
      FunctionDefinition_find_declaration ds typ (find_declaration up a sym) sym
  | FImport syms ds :: up =>
      Import_find_declaration syms ds (find_declaration up a sym) sym
  | FInclude syms ds :: up =>
      UnorderedScope_find_declaration syms ds (find_declaration up a sym) sym
  end.

(** *** Resolution of a compound identifier *)

Definition set_decl (e : Identifier) (d : option DeclarationBase) : Identifier :=
  mkIdentifier (i_pos e) (i_name e) d (i_ref_offset e).

Definition set_name (e : Identifier) (n : string) : Identifier :=
  mkIdentifier (i_pos e) n (i_decl e) (i_ref_offset e).

Definition set_ref_offset (e : Identifier) (r : Z) : Identifier :=
  mkIdentifier (i_pos e) (i_name e) (i_decl e) r.

Section Resolution.
(** [parent.find_declaration] *)
Variable parent_find : string -> DeclarationLookup.

(** The lookup of one element: in the parent when there is no context
    yet, in the context otherwise. *)
Definition lookup_elem (cur_decl : option DeclarationBase) (e : Identifier)
  : DeclarationLookup :=
  match cur_decl with
  | None => parent_find (i_name e)
  | Some c => get_inner_declaration c (i_name e)
  end.

(** The loop of [CompoundIdentifier.find_children_declarations]: the
    elements with their [decl] set, and the call of [parent.error] that
    ends the loop early, if any. *)
Fixpoint resolve_elems (cur_decl : option DeclarationBase)
    (elems : list Identifier)
  : list Identifier * option Diagnostics.FailCall :=
  match elems with
  | [] => ([], None)
  | e :: r =>
      let '(d, err) := lookup_elem cur_decl e in
      match d with
      | None =>
          let msg := default ("use of undeclared identifier " +:+ i_name e)
                             err in
          (set_decl e None :: r,
           Some (Diagnostics.mkFailCall Diagnostics.Error (i_pos e) msg))
      | Some _ =>
          let '(r', f) := resolve_elems d r in (set_decl e d :: r', f)
      end
  end.

(** The elements of a prefix that all resolve: the prefix with its
    declarations set, and the context the next element is looked up in. *)
Fixpoint resolve_prefix (cur_decl : option DeclarationBase)
    (pre : list Identifier)
  : option (list Identifier * option DeclarationBase) :=
  match pre with
  | [] => Some ([], cur_decl)
  | e :: r =>
      match lookup_elem cur_decl e with
      | (Some d, _) =>
          '(r', c) ← resolve_prefix (Some d) r;
          Some (set_decl e (Some d) :: r', c)
      | (None, _) => None
      end
  end.

(** [CompoundIdentifier.find_children_declarations] *)
Definition find_children_declarations (elems : list Identifier)
  : list Identifier * option Diagnostics.FailCall :=
  match resolve_elems None elems with
  | (elems', Some f) => (elems', Some f)
  | (elems', None) =>
      match elems' with
      | e0 :: e1 :: r =>
          match i_decl e1 with
          | Some VArgsLength => (set_name e1 "@vargs_len" :: r, None)
          | _ => (elems', None)
          end
      | _ => (elems', None)
      end
  end.

(** [Identifier.build]: the reference offset is taken from the type. *)
Definition Identifier_build (e : Identifier) : Identifier :=
  set_ref_offset e (Ty_ref_offset (Identifier_typ e)).

(** [CompoundIdentifier.build]: resolve, then build every element. *)
Definition CompoundIdentifier_build (elems : list Identifier)
  : list Identifier * option Diagnostics.FailCall :=
  let '(elems', f) := find_children_declarations elems in
  (Identifier_build <$> elems', f).
End Resolution.

(** A structure [point] with the field [x], a variable [p] of that type,
    and the compound identifier [p.z]. *)
Definition point : Ty :=
  ContainerStructure "struct" "point"
    (Some [mkDeclaration "x" (Some (BuiltinType "@int")) NONE EHLIT true]).

Definition p_decl : Declaration :=
  mkDeclaration "p" (Some point) NONE EHLIT true.

Definition scope_with_p (name : string) : DeclarationLookup :=
  if String.eqb name "p" then (Some (DDeclaration p_decl), None)
  else (None, None).

(** Module [m]: [private int secret]. *)
Definition secret : Declaration :=
  mkDeclaration "secret" (Some (BuiltinType "@int")) PRIVATE EHLIT true.

Definition module_m : list Node := [NDeclaration (DDeclaration secret)].

(** Module [main]: [import m], seen from a statement of a function of
    [main]. *)
Definition main_root : Root :=
  mkRoot [NImport "m" module_m [DDeclaration secret]] builtin_declarations.

Definition main_use_site : list Frame :=
  [FNode; FNode;
   FFunctionDefinition []
     (FunctionType (CompoundIdentifier [mkIdentifier 0 "void" None 0])
                   [] false None)].

End Lookup.

(** ** The build pass over statements, values and calls *)
Module Build.
Import Ast.
Export Diagnostics.

(** The class of the container a call is rotated into by [_reorder]. *)
Inductive ContainerKind :=
| KArray (length : option string)
| KReferenceToType
| KReferenceToValue.

(** Statements and the values below them.  A [Statement] carries the
    identity of its object: [list.index] finds a statement by identity, as
    no node class but [BuiltinType] defines [__eq__].  [Reordered k c] is the
    container returned by [FunctionCall._reorder], holding the call. *)
Inductive Node :=
| Number (num : string)
| String_ (string : string)
| Ident (sym : Symbol)
| Expression (contents : list Node) (parenthesised : bool)
| InitializationList (contents : list Node)
| Assignment (expr : Node)
| VariableDeclaration (typ : Symbol) (sym : Identifier) (assign : option Node)
| FunctionCall (pos : nat) (sym : Symbol) (args : list Node)
| Cast (pos : nat) (sym : Symbol) (args : list Node)
| Reordered (kind : ContainerKind) (child : Node)
| Statement (id : nat) (expr : Node).

Inductive Exn := AssertionError | ValueError | IndexError | AttributeError.

(** The result of running a piece of the build: a value, a Python exception,
    or the end of the fuel of the interpreter. *)
Inductive Result (A : Type) :=
| Ok (a : A)
| Raise (e : Exn)
| OutOfFuel.
Arguments Ok {A}.
Arguments Raise {A}.
Arguments OutOfFuel {A}.

#[export] Instance Result_bind : MBind Result := fun A B k r =>
  match r with
  | Ok a => k a
  | Raise e => Raise e
  | OutOfFuel => OutOfFuel
  end.

(** What the build of a function body mutates: the enclosing [FlowScope]
    ([body], [_counter], [declarations] by name), the name counter of the
    enclosing [FunctionDefinition], the calls of [fail], and the number of
    [Statement] objects created so far. *)
Record State := mkState {
  body : list Node;
  _counter : nat;
  declarations : list string;
  gen_var_count : nat;
  failures : list FailCall;
  next_id : nat
}.

Definition fail (sev : Severity) (pos : nat) (msg : string) (st : State)
  : State :=
  mkState (body st) (_counter st) (declarations st) (gen_var_count st)
          (failures st ++ [mkFailCall sev pos msg]) (next_id st).

Definition fail_all (fs : list FailCall) (st : State) : State :=
  mkState (body st) (_counter st) (declarations st) (gen_var_count st)
          (failures st ++ fs) (next_id st).

(** [Scope.declare] *)
Definition declare (name : string) (st : State) : State :=
  mkState (body st) (_counter st) (declarations st ++ [name])
          (gen_var_count st) (failures st) (next_id st).

(** [FunctionDefinition.generate_var_name] *)
Definition generate_var_name (st : State) : string * State :=
  ("__gen_fun_" +:+ pretty (S (gen_var_count st)),
   mkState (body st) (_counter st) (declarations st) (S (gen_var_count st))
           (failures st) (next_id st)).

(** The creation of a [Statement] object. *)
Definition new_Statement (expr : Node) (st : State) : Node * State :=
  (Statement (next_id st) expr,
   mkState (body st) (_counter st) (declarations st) (gen_var_count st)
           (failures st) (S (next_id st))).

Definition is_Statement (n : Node) : bool :=
  match n with Statement _ _ => true | _ => false end.

(** [x is y] for two statements. *)
Definition same_object (x y : Node) : bool :=
  match x, y with
  | Statement i _, Statement j _ => Nat.eqb i j
  | _, _ => false
  end.

(** [list.index]: the first position holding the object, [None] when
    [ValueError] is raised. *)
Fixpoint index (x : Node) (l : list Node) : option nat :=
  match l with
  | [] => None
  | y :: r => if same_object y x then Some 0 else S <$> index x r
  end.

(** [list.insert(i, x)] *)
Definition list_insert_at (i : nat) (x : Node) (l : list Node) : list Node :=
  take i l ++ x :: drop i l.

(** The body of [FlowScope.do_before] once [do] is built. *)
Definition insert_before (idx : nat) (do' : Node) (st : State) : State :=
  mkState (list_insert_at idx do' (body st)) (S (_counter st))
          (declarations st) (gen_var_count st) (failures st) (next_id st).

(** [self.body[self._counter] = s; self._counter += 1] *)
Definition rebind_and_advance (s : Node) (st : State) : Result State :=
  if Nat.ltb (_counter st) (length (body st))
  then Ok (mkState (<[_counter st := s]> (body st)) (S (_counter st))
                   (declarations st) (gen_var_count st) (failures st)
                   (next_id st))
  else Raise IndexError.

(** [Declaration.typ] of a declaration whose type symbol is [typ]. *)
Definition canonical_typ (typ : Symbol) : Ty :=
  match Symbol_decl typ with
  | Some (Some (DType t)) => t
  | _ => any
  end.

(** The loop of [_reorder]: the innermost symbol, and the outermost
    container, if any. *)
Definition reorder (sym : Symbol) : Symbol * option ContainerKind :=
  match sym with
  | Array c l => (inner_of c, Some (KArray l))
  | ReferenceToType c => (inner_of c, Some KReferenceToType)
  | ReferenceToValue c => (inner_of c, Some KReferenceToValue)
  | _ => (sym, None)
  end.

(** [self.sym.ref_offset = 0] *)
Definition reset_ref_offset (sym : Symbol) : Symbol :=
  match sym with
  | CompoundIdentifier elems =>
      match reverse elems with
      | e :: r =>
          CompoundIdentifier
            (reverse (mkIdentifier (i_pos e) (i_name e) (i_decl e) 0 :: r))
      | [] => sym
      end
  | _ => sym
  end.

Definition wrap (k : option ContainerKind) (call : Node) : Node :=
  match k with
  | None => call
  | Some k => Reordered k call
  end.

Section Interp.
(** The build of a symbol (name resolution), with the calls of [fail] it
    makes; [auto_cast] of a value towards a type; the default value of a
    parameter ([assign.expr]); [Symbol.repr]; [do_before] of the parent of
    the flow scope. *)
Variable Symbol_build : Symbol -> Symbol * list FailCall.
Variable auto_cast : Node -> Ty -> Node.
Variable default_value : Declaration -> option Node.
Variable repr : Symbol -> string.
Variable outer_do_before : Node -> State -> Result State.

(** The loop of [_check_args], from parameter [i] on. *)
Fixpoint check_args_loop (params : list Declaration) (i : nat)
    (args : list Node) (diff : Z) : list Node * Z :=
  match params with
  | [] => (args, diff)
  | p :: r =>
      if Nat.leb (length args) i
      then match default_value p with
           | Some e => check_args_loop r (S i) (args ++ [e]) (diff + 1)%Z
           | None => (args, diff)
           end
      else check_args_loop r (S i) args diff
  end.

(** [FunctionCall._check_args] *)
Definition _check_args (pos : nat) (sym : Symbol) (params : list Declaration)
    (is_variadic : bool) (args : list Node) (st : State)
  : list Node * State :=
  let '(args', diff) :=
    check_args_loop params 0 args
      (Z.of_nat (length args) - Z.of_nat (length params))%Z in
  if ((diff <? 0) || ((0 <? diff) && negb is_variadic))%Z
  then (args',
        fail Warning pos
          ((if (diff <? 0)%Z then "not enough" else "too many") +:+
           " arguments for call to " +:+ repr sym +:+ ": expected " +:+
           pretty (length params) +:+ ", got " +:+ pretty (length args')) st)
  else (args', st).

(** The first loop of [_auto_cast_args]: each actual that has a declared
    parameter is cast to the type of that parameter. *)
Fixpoint auto_cast_prefix (args : list Node) (params : list Declaration)
  : list Node :=
  match args, params with
  | a :: ar, p :: pr => auto_cast a (Declaration_typ p) :: auto_cast_prefix ar pr
  | _, _ => args
  end.

(** The statement made by [_auto_cast_args] for the tail [vargs]. *)
Definition vargs_declaration (vt : Symbol) (vargs_name : string)
    (vargs : list Node) : Node :=
  VariableDeclaration
    (Array vt (Some (pretty (length vargs))))
    (mkIdentifier 0 vargs_name None 0)
    (Some (Assignment (Expression [InitializationList vargs] false))).

(** The two actuals that replace the tail. *)
Definition synthetic_actuals (vargs_name : string) (k : nat) : list Node :=
  [Expression [Number (pretty k)] false;
   Expression
     [Ident (CompoundIdentifier [mkIdentifier 0 vargs_name None 0])] false].

Section Step.
(** The build of a node under the statement [before], one level of fuel
    down. *)
Variable build_rec : Node -> Node -> State -> Result (Node * State).

Fixpoint build_all (before : Node) (l : list Node) (st : State)
  : Result (list Node * State) :=
  match l with
  | [] => Ok ([], st)
  | x :: r =>
      '(x', st1) ← build_rec before x st;
      '(r', st2) ← build_all before r st1;
      Ok (x' :: r', st2)
  end.

(** [FlowScope.do_before] *)
Definition FlowScope_do_before (do before : Node) (st : State)
  : Result State :=
  if is_Statement do then
    if is_Statement before then
      match index before (body st) with
      | None => Raise ValueError
      | Some idx =>
          '(do', st') ← build_rec do do st;
          Ok (insert_before idx do' st')
      end
    else Raise AssertionError
  else outer_do_before do st.

(** [FunctionCall._auto_cast_args]; [decl_type] is the declaration type
    of the callee. *)
Definition _auto_cast_args (decl_type : DeclarationType)
    (params : list Declaration) (is_variadic : bool)
    (variadic_type : option Symbol) (before : Node) (args : list Node)
    (st : State) : Result (list Node * State) :=
  let i := Nat.min (length args) (length params) in
  let args1 := auto_cast_prefix args params in
  match is_variadic, decl_type with
  | true, EHLIT =>
      let vargs := drop i args1 in
      let fixed_args := take i args1 in
      match variadic_type with
      | None => Raise AssertionError
      | Some vt =>
          let '(vargs_name, st1) := generate_var_name st in
          let '(stmt, st2) :=
            new_Statement (vargs_declaration vt vargs_name vargs) st1 in
          st3 ← FlowScope_do_before stmt before st2;
          Ok ((fixed_args ++ synthetic_actuals vargs_name (length vargs))%list, st3)
      end
  | _, _ => Ok (args1, st)
  end.

(** [Cast.build] *)
Definition Cast_build (before : Node) (pos : nat) (sym : Symbol)
    (args : list Node) (st : State) : Result (Node * State) :=
  match args with
  | [] => Ok (Cast pos sym [], fail Error pos "cast requires a value" st)
  | [a] => '(a', st') ← build_rec before a st; Ok (Cast pos sym [a'], st')
  | _ => Ok (Cast pos sym args,
             fail Error pos "too many values for cast expression" st)
  end.

(** [FunctionCall.build] *)
Definition FunctionCall_build (before : Node) (pos : nat) (sym : Symbol)
    (args : list Node) (st : State) : Result (Node * State) :=
  let '(sym1, fs) := Symbol_build sym in
  let st0 := fail_all fs st in
  if is_type sym1 then
    match Symbol_decl sym1 with
    | Some (Some (DType _)) => Cast_build before pos sym1 args st0
    | _ => Raise AssertionError
    end
  else
    '(args1, st1) ← build_all before args st0;
    let '(inner, k) := reorder sym1 in
    let sym2 := match k with
                | Some _ => reset_ref_offset inner
                | None => inner
                end in
    match Symbol_decl sym2 with
    | None => Raise IndexError
    | Some None => Ok (wrap k (FunctionCall pos sym2 args1), st1)
    | Some (Some (DType _)) => Raise AssertionError
    | Some (Some d) =>
        match DeclarationBase_typ d with
        | Some (FunctionType _ params is_variadic variadic_type) =>
            let '(args2, st2) :=
              _check_args pos sym2 params is_variadic args1 st1 in
            let decl_type :=
              match d with
              | DDeclaration d' => d_declaration_type d'
              | _ => EHLIT
              end in
            '(args3, st3) ← _auto_cast_args decl_type params is_variadic
                              variadic_type before args2 st2;
            Ok (wrap k (FunctionCall pos sym2 args3), st3)
        | _ =>
            Ok (wrap k (FunctionCall pos sym2 args1),
                fail Error pos ("calling non function type " +:+ repr sym2)
                     st1)
        end
    end.
End Step.

(** [auto_cast] of the expression of an assignment. *)
Definition auto_cast_assign (a : Node) (t : Ty) : Node :=
  match a with
  | Assignment e => Assignment (auto_cast e t)
  | _ => a
  end.

(** [build] of every node class; [before] is the child of the flow scope
    the node stands under, to which [Node.do_before] hands a request. *)
Fixpoint build (fuel : nat) (before n : Node) (st : State)
  : Result (Node * State) :=
  match fuel with
  | 0 => OutOfFuel
  | S fuel' =>
      match n with
      | Number _ | String_ _ => Ok (n, st)
      | Ident s =>
          let '(s', fs) := Symbol_build s in Ok (Ident s', fail_all fs st)
      | Expression contents p =>
          '(c', st') ← build_all (build fuel') before contents st;
          Ok (Expression c' p, st')
      | InitializationList contents =>
          '(c', st') ← build_all (build fuel') before contents st;
          Ok (InitializationList c', st')
      | Assignment e =>
          '(e', st') ← build fuel' before e st; Ok (Assignment e', st')
      | VariableDeclaration typ sym assign =>
          let st1 := declare (i_name sym) st in
          let '(typ', fs) := Symbol_build typ in
          let st2 := fail_all fs st1 in
          match assign with
          | None => Ok (VariableDeclaration typ' sym None, st2)
          | Some a =>
              '(a', st3) ← build fuel' before a st2;
              Ok (VariableDeclaration typ' sym
                    (Some (auto_cast_assign a' (canonical_typ typ'))), st3)
          end
      | FunctionCall pos sym args =>
          FunctionCall_build (build fuel') before pos sym args st
      | Cast pos sym args => Cast_build (build fuel') before pos sym args st
      | Reordered k child =>
          '(c', st') ← build fuel' before child st; Ok (Reordered k c', st')
      | Statement id e =>
          '(e', st') ← build fuel' n e st; Ok (Statement id e', st')
      end
  end.

(** The loop of [FlowScope.build]; [turns] bounds the number of turns. *)
Fixpoint FlowScope_loop (turns fuel : nat) (st : State) : Result State :=
  match body st !! _counter st with
  | None => Ok st
  | Some s =>
      match turns with
      | 0 => OutOfFuel
      | S turns' =>
          '(s', st1) ← build fuel s s st;
          st2 ← rebind_and_advance s' st1;
          FlowScope_loop turns' fuel st2
      end
  end.

(** [FlowScope.build]: the counter starts at 0. *)
Definition FlowScope_build (turns fuel : nat) (st : State) : Result State :=
  FlowScope_loop turns fuel
    (mkState (body st) 0 (declarations st) (gen_var_count st) (failures st)
             (next_id st)).
End Interp.


(** Values that hold no call, cast, declaration or statement: literals,
    symbols, and expressions and initialisation lists made of them. *)
Fixpoint inert (n : Node) : bool :=
  match n with
  | Number _ | String_ _ | Ident _ => true
  | Expression contents _ | InitializationList contents =>
      (fix all (l : list Node) : bool :=
         match l with
         | [] => true
         | x :: r => inert x && all r
         end) contents
  | Assignment e => inert e
  | _ => false
  end.

(** The height of a node, which bounds the fuel its build needs. *)
Fixpoint depth (n : Node) : nat :=
  match n with
  | Number _ | String_ _ | Ident _ => 1
  | Expression contents _ | InitializationList contents
  | FunctionCall _ _ contents | Cast _ _ contents =>
      S ((fix most (l : list Node) : nat :=
            match l with
            | [] => 0
            | x :: r => Nat.max (depth x) (most r)
            end) contents)
  | Assignment e | Reordered _ e | Statement _ e => S (depth e)
  | VariableDeclaration _ _ None => 1
  | VariableDeclaration _ _ (Some a) => S (depth a)
  end.

(** No statement below the node. *)
Fixpoint statement_free (n : Node) : bool :=
  match n with
  | Number _ | String_ _ | Ident _ => true
  | Expression contents _ | InitializationList contents
  | FunctionCall _ _ contents | Cast _ _ contents =>
      (fix all (l : list Node) : bool :=
         match l with
         | [] => true
         | x :: r => statement_free x && all r
         end) contents
  | Assignment e | Reordered _ e => statement_free e
  | VariableDeclaration _ _ None => true
  | VariableDeclaration _ _ (Some a) => statement_free a
  | Statement _ _ => false
  end.

(** [id] of a statement object. *)
Definition statement_id (n : Node) : option nat :=
  match n with Statement i _ => Some i | _ => None end.

(** Two states that differ at most in the recorded failures. *)
Definition same_scope (st st' : State) : Prop :=
  body st' = body st ∧ _counter st' = _counter st ∧
  declarations st' = declarations st ∧
  gen_var_count st' = gen_var_count st ∧ next_id st' = next_id st.

(** Every statement of the list was created before [bound] statements
    were. *)
Definition ids_below (bound : nat) (l : list Node) : Prop :=
  Forall (fun x => ∀ i, statement_id x = Some i -> i < bound) l.

(** The flow scope while the statement [s] is built: the statements [done]
    the loop went past, the statements [ins] inserted since the build of [s]
    began, [s] itself under the counter, and the statements [rest] still to
    come. *)
Definition current (s : Node) (done rest : list Node) (st : State) : Prop :=
  ∃ ins,
    body st = done ++ ins ++ s :: rest ∧
    _counter st = length done + length ins ∧
    Forall (fun x => same_object x s = false) (done ++ ins) ∧
    ids_below (next_id st) (body st) ∧
    Forall (fun x => is_Statement x = true) ins.

(** Where the statement that receives the requests stands: not in the body
    (a statement that is being inserted), or under the counter. *)
Inductive Place :=
| Absent (body0 : list Node) (counter0 : nat)
| Current (done rest : list Node).

Definition at_place (m : Place) (before : Node) (st : State) : Prop :=
  match m with
  | Absent b c => index before b = None ∧ body st = b ∧ _counter st = c
  | Current done rest => current before done rest st
  end.

(** The height of the highest node of a list. *)
Definition depth_most (l : list Node) : nat :=
  foldr (fun x m => Nat.max (depth x) m) 0 l.

Definition int_symbol : Symbol :=
  CompoundIdentifier
    [mkIdentifier 0 "int" (Some (DType (BuiltinType "@int"))) 0].

Definition log_decl : Declaration :=
  mkDeclaration "log"
    (Some (FunctionType
             (CompoundIdentifier
                [mkIdentifier 0 "void" (Some (DType (BuiltinType "@void"))) 0])
             [mkDeclaration "fmt" (Some (BuiltinType "@str")) NONE EHLIT true]
             true (Some int_symbol)))
    NONE EHLIT true.

Definition log_symbol : Symbol :=
  CompoundIdentifier [mkIdentifier 5 "log" (Some (DDeclaration log_decl)) 0].

Definition number (n : string) : Node := Expression [Number n] false.

Definition log_args : list Node :=
  [Expression [String_ "x"] false; number "1"; number "2"; number "3"].

Definition log_statement : Node :=
  Statement 0 (Expression [FunctionCall 5 log_symbol log_args] false).

(** The body of the function holding the call, before it is built. *)
Definition log_scope : State :=
  mkState [log_statement; Statement 1 (number "7")] 0 [] 0 [] 2.

(** Collaborators for the examples: symbols that are resolved already,
    values that need no cast, parameters without default value. *)
Definition resolved (s : Symbol) : Symbol * list FailCall := (s, []).
Definition no_cast (n : Node) (t : Ty) : Node := n.
Definition no_default (d : Declaration) : option Node := None.
Definition plain_repr (s : Symbol) : string := "log".
Definition no_outer (do : Node) (st : State) : Result State :=
  Raise AttributeError.

End Build.

(** ** Imports and includes: the module-level lists [imported] and
    [included] *)
Module Inclusion.

(** The two module-level names and the list objects they are bound to.
    [parsed] is the trace of the calls of [source.parse] and
    [c_header.parse]; the program does not keep it. *)
Record Globals := mkGlobals {
  heap : gmap nat (list string);
  imported : nat;
  included : nat;
  parsed : list string
}.

(** The state when [ast.py] is loaded: two distinct empty lists. *)
Definition module_load : Globals :=
  mkGlobals (<[1 := []]> (<[0 := []]> ∅)) 0 1 [].

Definition fresh_loc (h : gmap nat (list string)) : nat :=
  fresh (dom h : gset nat).

(** [imported = included = []], the first statement of [AST.build_ast]:
    one new list, bound to both names.  The trace starts anew. *)
Definition build_ast_reset (g : Globals) : Globals :=
  let l := fresh_loc (heap g) in
  mkGlobals (<[l := []]> (heap g)) l l [].

Definition read (g : Globals) (loc : nat) : list string :=
  default [] (heap g !! loc).

Definition append (loc : nat) (x : string) (g : Globals) : Globals :=
  mkGlobals (<[loc := (read g loc ++ [x])%list]> (heap g)) (imported g) (included g)
            (parsed g).

Definition log_parse (x : string) (g : Globals) : Globals :=
  mkGlobals (heap g) (imported g) (included g) (parsed g ++ [x])%list.

(** [x in l] *)
Definition mem (x : string) (l : list string) : bool := bool_decide (x ∈ l).

(** What a [parse] method gives: the imported nodes, a raised [ParseError],
    or the end of the fuel of [import_dir]. *)
Inductive Outcome (N : Type) :=
| Nodes (ns : list N)
| Raised (fs : list Diagnostics.Failure)
| NoFuel.
Arguments Nodes {N}.
Arguments Raised {N}.
Arguments NoFuel {N}.

Section Parse.
Context {N : Type}.
(** The file system ([os.path], [os.listdir]) and the two parsers. *)
Variable isdir isfile : string -> bool.
Variable listdir : string -> list string.
Variable join : string -> string -> string.
Variable abspath : string -> string.
Variable source_parse : string -> list N + list Diagnostics.Failure.
Variable c_header_parse : string -> list N + list Diagnostics.Failure.

(** [Import.import_dir]; the inner loop runs over [listdir(dir)]. *)
Fixpoint import_dir (fuel : nat) (dir : string) (g : Globals)
  : Outcome N * Globals :=
  match fuel with
  | 0 => (NoFuel, g)
  | S fuel' =>
      (fix go (subs : list string) (res : list N) (g : Globals)
         : Outcome N * Globals :=
         match subs with
         | [] => (Nodes res, g)
         | sub :: r =>
             let full_path := join dir sub in
             if mem full_path (read g (imported g)) then go r res g
             else
               let g1 := append (imported g) full_path g in
               if isdir full_path then
                 match import_dir fuel' full_path g1 with
                 | (Nodes ns, g2) => go r (res ++ ns)%list g2
                 | other => other
                 end
               else if isfile full_path then
                 match source_parse full_path with
                 | inl ns => go r (res ++ ns)%list (log_parse full_path g1)
                 | inr fs => (Raised fs, log_parse full_path g1)
                 end
               else go r res g1
         end) (listdir dir) [] g
  end.

(** [Import.parse]; the second component of the result tells whether
    [self.error] was called because no path matched. *)
Fixpoint Import_parse (fuel : nat) (import_paths : list string)
    (lib : string) (g : Globals) : Outcome N * Globals * bool :=
  match import_paths with
  | [] => (Nodes [], g, true)
  | p :: rest =>
      let full_path := abspath (join p lib) in
      if isdir full_path then
        if mem full_path (read g (imported g)) then (Nodes [], g, false)
        else (import_dir fuel full_path (append (imported g) full_path g),
              false)
      else
        let full_path := full_path +:+ ".eh" in
        if isfile full_path then
          if mem full_path (read g (imported g)) then (Nodes [], g, false)
          else
            let g1 := log_parse full_path (append (imported g) full_path g) in
            match source_parse full_path with
            | inl ns => (Nodes ns, g1, false)
            | inr fs => (Raised fs, g1, false)
            end
        else Import_parse fuel rest lib g
  end.

(** [Include.parse] *)
Definition Include_parse (lib : string) (g : Globals)
  : Outcome N * Globals :=
  if mem lib (read g (included g)) then (Nodes [], g)
  else
    let g1 := log_parse lib (append (included g) lib g) in
    match c_header_parse lib with
    | inl ns => (Nodes ns, g1)
    | inr fs => (Raised fs, g1)
    end.

(** The imports and includes met during one build, in the order in which
    they are built. *)
Inductive Request :=
| ReqImport (import_paths : list string) (lib : string)
| ReqInclude (lib : string).

Definition serve (fuel : nat) (r : Request) (g : Globals) : Globals :=
  match r with
  | ReqImport ps lib => (Import_parse fuel ps lib g).1.2
  | ReqInclude lib => (Include_parse lib g).2
  end.

(** [build_ast]: the reset, then the requests in turn. *)
Definition build_ast_globals (fuel : nat) (rs : list Request) (g : Globals)
  : Globals :=
  foldl (fun g r => serve fuel r g) (build_ast_reset g) rs.
End Parse.

(** The state of the two names during one build: they are bound to the
    same list, the list holds no path twice, and no file was handed to a
    parser twice; every parsed path is in the list. *)
Definition one_shared_list (g : Globals) : Prop :=
  imported g = included g ∧
  NoDup (read g (imported g)) ∧
  NoDup (parsed g) ∧
  parsed g ⊆ read g (imported g).

(** The two names stay bound to the lists they are bound to: no function
    but [build_ast] assigns them. *)
Definition same_names (g g' : Globals) : Prop :=
  imported g' = imported g ∧ included g' = included g.

(** A file system with the single file [/src/m.eh], and parsers that return
    no node. *)
Definition no_dir (path : string) : bool := false.
Definition only_m (path : string) : bool := String.eqb path "/src/m.eh".
Definition no_entry (path : string) : list string := [].
Definition slash (dir sub : string) : string := dir +:+ "/" +:+ sub.
Definition as_is (path : string) : string := path.
Definition empty_file (path : string) : list unit + list Diagnostics.Failure :=
  inl [].

Definition two_imports_one_include : list Request :=
  [ReqImport ["/src"] "m"; ReqInclude "stdio.h"; ReqImport ["/src"] "m";
   ReqInclude "/src/m.eh"].

Definition after_build : Globals :=
  build_ast_globals no_dir only_m no_entry slash as_is empty_file empty_file
                    3 two_imports_one_include module_load.

End Inclusion.

(** ** Building a node again: the [built] flag *)
Module Rebuild.
Import Ast.

(** The fields every [Node] has once [Node.build] ran: the parent (by the
    identity of its object) and [built]. *)
Record NodeBase := mkNodeBase {
  parent : option nat;
  built : bool
}.

(** [Node.__init__] *)
Definition Node_init : NodeBase := mkNodeBase None false.

(** [Node.build] *)
Definition Node_build (p : nat) (n : NodeBase) : NodeBase :=
  mkNodeBase (Some p) true.

(** A [Scope]: its object and the names of its [declarations]. *)
Record Scope := mkScope {
  scope_id : nat;
  declarations : list string
}.

(** [Scope.declare] *)
Definition Scope_declare (name : string) (sc : Scope) : Scope :=
  mkScope (scope_id sc) (declarations sc ++ [name])%list.

(** A [Declaration] below a scope. *)
Record DeclarationNode := mkDeclarationNode {
  dn_base : NodeBase;
  dn_name : string
}.

(** [Declaration.build], as far as the declaration and its scope are
    concerned: [Node.build], then [parent.declare(self)], which reaches the
    nearest scope [sc]. *)
Definition Declaration_build (d : DeclarationNode) (sc : Scope)
  : DeclarationNode * Scope :=
  (mkDeclarationNode (Node_build (scope_id sc) (dn_base d)) (dn_name d),
   Scope_declare (dn_name d) sc).

(** A [ContainerStructure]: a type that is a scope for its fields. *)
Record StructNode := mkStructNode {
  sn_base : NodeBase;
  sn_id : nat;
  sn_name : string;
  sn_fields : option (list DeclarationNode);
  sn_declarations : list string
}.

(** The fields are built in turn under the structure. *)
Fixpoint build_fields (fields : list DeclarationNode) (own : Scope)
  : list DeclarationNode * Scope :=
  match fields with
  | [] => ([], own)
  | f :: r =>
      let '(f', own1) := Declaration_build f own in
      let '(r', own2) := build_fields r own1 in
      (f' :: r', own2)
  end.

(** [ContainerStructure.build]: returns at once when [built] is set. *)
Definition ContainerStructure_build (s : StructNode) (sc : Scope)
  : StructNode * Scope :=
  if built (sn_base s) then (s, sc)
  else
    let base := Node_build (scope_id sc) (sn_base s) in
    let sc1 := Scope_declare (sn_name s) sc in
    match sn_fields s with
    | None => (mkStructNode base (sn_id s) (sn_name s) None (sn_declarations s),
               sc1)
    | Some fields =>
        let '(fields', own) :=
          build_fields fields (mkScope (sn_id s) (sn_declarations s)) in
        (mkStructNode base (sn_id s) (sn_name s) (Some fields')
                      (declarations own), sc1)
    end.

(** The [ref_offset] property of a symbol: getter and setter of
    [CompoundIdentifier], [ReferenceToValue] and [ReferenceToType].  The
    other classes keep the field of [Value], which is not part of [Symbol]
    here: [None]. *)
Fixpoint get_ref_offset (s : Symbol) : option Z :=
  match s with
  | CompoundIdentifier elems => i_ref_offset <$> last elems
  | ReferenceToValue c => get_ref_offset c
  | ReferenceToType c => (fun r => r + 1)%Z <$> get_ref_offset c
  | _ => None
  end.

Fixpoint set_ref_offset (s : Symbol) (v : Z) : option Symbol :=
  match s with
  | CompoundIdentifier elems =>
      match reverse elems with
      | e :: r =>
          Some (CompoundIdentifier
                  (reverse (mkIdentifier (i_pos e) (i_name e) (i_decl e) v :: r)))
      | [] => None
      end
  | ReferenceToValue c => ReferenceToValue <$> set_ref_offset c (v - 1)
  | ReferenceToType c => ReferenceToType <$> set_ref_offset c (v - 1)
  | _ => None
  end.

(** [ReferenceToValue.build]: [self.child.ref_offset -= 1; return self].
    The node of a [ReferenceToValue] is made by [Node.__init__] and its
    [build] does not call [Node.build]. *)
Definition ReferenceToValue_build (child : Symbol) : option Symbol :=
  r ← get_ref_offset child;
  set_ref_offset child (r - 1).

(** A declaration [x], built once under the scope 7. *)
Definition x_built : DeclarationNode * Scope :=
  Declaration_build (mkDeclarationNode Node_init "x") (mkScope 7 []).

End Rebuild.

(** ** Syntax errors (ehlit/parser/parse.py) *)
Module Parse.
Import Diagnostics.

(** A grammar rule as [NoMatch.rules] lists it, with its [str]: an exact
    [StrMatch], or a rule of another class. *)
Inductive Rule :=
| StrMatch (to_match : string)
| OtherRule (rule_name : string).

(** The [NoMatch] exception of arpeggio, as far as it is read. *)
Record NoMatch := mkNoMatch {
  rules : list Rule;
  position : nat
}.

(** The text a rule is listed under. *)
Definition rule_text (r : Rule) : string :=
  match r with
  | StrMatch s => "'" +:+ s +:+ "'"
  | OtherRule s => s
  end.

(** One turn of the loop over [err.rules]. *)
Definition expect (exp : list string) (r : Rule) : list string :=
  if bool_decide (rule_text r ∈ exp) then exp else exp ++ [rule_text r].

(** [sep.join(l)] *)
Fixpoint join (sep : string) (l : list string) : string :=
  match l with
  | [] => ""
  | [s] => s
  | s :: r => s +:+ sep +:+ join sep r
  end.

(** [handle_parse_error]: it always raises; the result is the exception. *)
Definition handle_parse_error (err : NoMatch) (parser : Parser) : ParseError :=
  let exp := foldl expect [] (rules err) in
  ParseError_init
    [mkFailure Fatal (position err) ("expected " +:+ join " or " exp)
               (Some (file_name parser)) None]
    (Some parser).

End Parse.

(** ** Lexical scoping: what the lookups add up to *)
Module Scoping.
Import Ast Lookup.

(** [Scope.declare] *)
Definition Scope_declare (decl : DeclarationBase)
    (declarations : list DeclarationBase) : list DeclarationBase :=
  declarations ++ [decl].

(** [ReferenceType.inner_child], from the child of the reference. *)
Fixpoint ReferenceType_inner_child (child : Ty) : Ty :=
  match child with
  | ReferenceType c => ReferenceType_inner_child c
  | _ => child
  end.

(** [decl.name == sym] *)
Definition named (sym : string) (d : DeclarationBase) : bool :=
  String.eqb (DeclarationBase_name d) sym.

(** The ancestors whose lookup is [Node]'s, [Scope]'s or
    [FunctionDefinition]'s, and the declarations they hold. *)
Definition lexical (f : Frame) : bool :=
  match f with
  | FNode | FScope _ | FFunctionDefinition _ _ => true
  | FImport _ _ | FInclude _ _ => false
  end.

Definition frame_declarations (f : Frame) : list DeclarationBase :=
  match f with
  | FScope ds | FFunctionDefinition ds _ => ds
  | _ => []
  end.

(** The names [AST.build_ast] declares as built-in types. *)
Definition builtin_names : list string :=
  ["@int"; "@int8"; "@int16"; "@int32"; "@int64"; "@uint"; "@uint8";
   "@uint16"; "@uint32"; "@uint64"; "@float"; "@double"; "@decimal";
   "@void"; "@bool"; "@char"; "@size"; "@str"; "@any"].

(** The declarations a top-level node answers for: its own, or those of the
    nodes an inclusion brought in, inclusions within them included. *)
Fixpoint exposed (n : Node) : list DeclarationBase :=
  match n with
  | NDeclaration d => [d]
  | NImport _ syms _ | NInclude _ syms _ =>
      (fix go (l : list Node) : list DeclarationBase :=
         match l with
         | [] => []
         | x :: r => exposed x ++ go r
         end) syms
  | NOther => []
  end.

End Scoping.

(** ** Qualifier flags and generated names *)
Module Flags.
Import Ast.

(** The other properties of [Qualifier]. *)
Definition is_const (q : Z) : bool := negb (Z.land q CONST =? 0)%Z.
Definition is_restricted (q : Z) : bool := negb (Z.land q RESTRICT =? 0)%Z.
Definition is_volatile (q : Z) : bool := negb (Z.land q VOLATILE =? 0)%Z.
Definition is_inline (q : Z) : bool := negb (Z.land q INLINE =? 0)%Z.
Definition is_static (q : Z) : bool := negb (Z.land q STATIC =? 0)%Z.

(** The setter of [VariableDeclaration.private]:
    [_qualifiers |= PRIVATE] or [_qualifiers &= ~PRIVATE]. *)
Definition set_private (value : bool) (q : Z) : Z :=
  if value then Z.lor q PRIVATE else Z.land q (Z.lnot PRIVATE).

(** The setter of [VariableDeclaration.static]. *)
Definition set_static (value : bool) (q : Z) : Z :=
  if value then Z.lor q STATIC else Z.land q (Z.lnot STATIC).

(** A combination of the six flags. *)
Definition valid (q : Z) : Prop := (0 ≤ q < 64)%Z.


(** The number of [ReferenceToValue] layers of a symbol. *)
Fixpoint value_references (s : Symbol) : Z :=
  match s with
  | ReferenceToValue c => 1 + value_references c
  | ReferenceToType c => value_references c
  | _ => 0
  end.

(** [AST.generate_var_name], on the counter of the root. *)
Definition AST_generate_var_name (gen_var_count : nat) : string * nat :=
  ("__gen_ast_" +:+ pretty (S gen_var_count), S gen_var_count).

(** [k] calls of [FunctionDefinition.generate_var_name] in a row. *)
Fixpoint generate_var_names (k : nat) (st : Build.State)
  : list string * Build.State :=
  match k with
  | 0 => ([], st)
  | S k' =>
      let '(n, st1) := Build.generate_var_name st in
      let '(ns, st2) := generate_var_names k' st1 in
      (n :: ns, st2)
  end.

End Flags.

(** ** Calls and flow scopes: arity, growth, whole bodies *)
Module Calls.
Import Ast Build.

(** The default values of the parameters up to the first one that has
    none. *)
Fixpoint leading_defaults (default_value : Declaration -> option Node)
    (params : list Declaration) : list Node :=
  match params with
  | [] => []
  | p :: r =>
      match default_value p with
      | Some e => e :: leading_defaults default_value r
      | None => []
      end
  end.

(** What a build may do to the state: add failures and declarations at the
    end, create names and statements, lengthen the body and move the counter
    on. *)
Definition grows (st st' : State) : Prop :=
  failures st `prefix_of` failures st' ∧
  declarations st `prefix_of` declarations st' ∧
  gen_var_count st ≤ gen_var_count st' ∧
  next_id st ≤ next_id st' ∧
  length (body st) ≤ length (body st') ∧
  _counter st ≤ _counter st'.

(** A statement whose expression holds no call, cast or declaration. *)
Definition plain_statement (n : Node) : bool :=
  match n with
  | Statement _ e => inert e
  | _ => false
  end.

(** A statement of a body as the parser leaves it: no statement below its
    expression. *)
Definition top_statement (n : Node) : bool :=
  match n with
  | Statement _ e => statement_free e
  | _ => false
  end.

(** The statement objects of a list, by identity. *)
Definition objects (l : list Node) : list nat := omap statement_id l.

(** The body holds statements only, each a distinct object, all of them
    created already. *)
Definition well_formed (st : State) : Prop :=
  Forall (fun x => is_Statement x = true) (body st) ∧
  NoDup (objects (body st)) ∧
  ids_below (next_id st) (body st).

(** Every statement the body has gained is a new object, and the body is
    still well formed. *)
Definition fresh_insertions (st st' : State) : Prop :=
  next_id st ≤ next_id st' ∧
  (∀ j, j ∈ objects (body st') ->
        j ∈ objects (body st) ∨ next_id st ≤ j) ∧
  (well_formed st -> well_formed st').

End Calls.

(** ** Reporting: where a failure is recorded *)
Module Reporting.
Import Diagnostics.

(** The ancestors a call of [fail] climbs through: a
    [FunctionDefinition], whose [fail] adds the position of its body, or a
    node of another class, whose [fail] is [Node.fail]. *)
Inductive Ancestor :=
| AFunctionDefinition (body_pos : nat)
| AOther.

(** [fail(severity, pos, msg)] called on the innermost ancestor: the call
    that reaches [AST.fail]. *)
Fixpoint fail_up (chain : list Ancestor) (sev : Severity) (pos : nat)
    (msg : string) : FailCall :=
  match chain with
  | [] => mkFailCall sev pos msg
  | AFunctionDefinition body_pos :: up => fail_up up sev (pos + body_pos) msg
  | AOther :: up => fail_up up sev pos msg
  end.

(** The handler of [FunctionDefinition.build] for a [ParseError] of the
    body: one call of [self.fail] per failure. *)
Definition FunctionDefinition_except (body_pos : nat) (up : list Ancestor)
    (fs : list Failure) : list FailCall :=
  (fun f => fail_up (AFunctionDefinition body_pos :: up) (severity f)
                    (pos f + body_pos) (msg f)) <$> fs.

(** The handler of [GenericExternInclusion.build] for a [ParseError] of
    the imported file; [self_pos] is the position of the inclusion. *)
Definition GenericExternInclusion_except (self_pos : nat)
    (up : list Ancestor) (fs : list Failure) : list FailCall :=
  (fun e => fail_up (AOther :: up) (severity e) self_pos (msg e)) <$> fs.

(** The sum of the body positions of the function definitions on the
    way. *)
Fixpoint offset (chain : list Ancestor) : nat :=
  match chain with
  | [] => 0
  | AFunctionDefinition body_pos :: up => body_pos + offset up
  | AOther :: up => offset up
  end.

End Reporting.

(** ** Building an import: the search through the import paths *)
Module Importing.
Import Diagnostics Inclusion.

Section Build.
Context {N : Type}.
Variable isdir isfile : string -> bool.
Variable listdir : string -> list string.
Variable join : string -> string -> string.
Variable abspath : string -> string.
Variable source_parse : string -> list N + list Diagnostics.Failure.

(** The path tried for the library under the import path [p]. *)
Definition candidate (p lib : string) : string := abspath (join p lib).

(** Whether the search of [Import.parse] stops at the import path [p]. *)
Definition hit (lib p : string) : bool :=
  isdir (candidate p lib) || isfile (candidate p lib +:+ ".eh").

(** [GenericExternInclusion.build] of an [Import] at position [pos], up to
    the build of the imported nodes: the nodes it goes on to build, and the
    calls of [fail] it makes; [None] when [import_dir] ran out of fuel. *)
Definition Import_build (fuel : nat) (pos : nat) (import_paths : list string)
    (lib : string) (g : Globals)
  : option (list N * list FailCall) * Globals :=
  let '(o, g', missing) :=
    Import_parse isdir isfile listdir join abspath source_parse fuel
                 import_paths lib g in
  let not_found :=
    if missing : bool
    then [mkFailCall Error pos (lib +:+ ": no such file or directory")]
    else [] in
  match o with
  | Nodes ns => (Some (ns, not_found), g')
  | Raised fs =>
      (Some ([], not_found ++
                 ((fun e => mkFailCall (severity e) pos (msg e)) <$> fs)), g')
  | NoFuel => (None, g')
  end.

(** The nodes [source.parse] gives for a path. *)
Definition parsed_nodes (p : string) : list N :=
  match source_parse p with
  | inl ns => ns
  | inr _ => []
  end.
End Build.

End Importing.

(** * Properties *)

(** ** Diagnostics: the aggregate raised by [build_ast] *)
Module DiagnosticsFacts.
Import Diagnostics.

Lemma AST_fail_all_parsed {Node} (ns : list Node) (p : Parser)
    (fs : list Failure) (cs : list FailCall) :
  AST_fail_all (mkAST ns fs (Some p)) cs =
  Some (mkAST ns (fs ++ (recorded_failure p <$> cs)) (Some p)).
Proof.
  revert fs. induction cs as [|c cs IH]; intros fs; simpl.
  - by rewrite app_nil_r.
  - unfold AST_fail; simpl. rewrite IH. by rewrite <- app_assoc.
Qed.

Lemma build_nodes_parsed {Node} (node_fails : Node -> list FailCall)
    (ns0 ns : list Node) (p : Parser) (fs : list Failure) :
  build_nodes node_fails (mkAST ns0 fs (Some p)) ns =
  Some (mkAST ns0 (fs ++ (recorded_failure p <$> mjoin (node_fails <$> ns)))
              (Some p)).
Proof.
  revert fs. induction ns as [|n ns IH]; intros fs; simpl.
  - by rewrite app_nil_r.
  - rewrite AST_fail_all_parsed. simpl. rewrite IH.
    by rewrite fmap_app, app_assoc.
Qed.

Lemma ParseError_init_fold (p : Parser) (cs : list FailCall) (acc : ParseError) :
  failures (foldl (ParseError_step p) acc (recorded_failure p <$> cs)) =
    (failures acc ++ (located p ∘ recorded_failure p <$> cs))%list ∧
  errors (foldl (ParseError_step p) acc (recorded_failure p <$> cs)) =
    errors acc + count_errors cs ∧
  warnings (foldl (ParseError_step p) acc (recorded_failure p <$> cs)) =
    warnings acc + count_warnings cs.
Proof.
  revert acc. induction cs as [|c cs IH]; intros acc.
  - simpl. rewrite app_nil_r. unfold count_errors, count_warnings; simpl.
    repeat split; lia.
  - rewrite fmap_cons. cbn [foldl].
    destruct (IH (ParseError_step p acc (recorded_failure p c)))
      as (Hf & He & Hw).
    rewrite Hf, He, Hw. clear IH Hf He Hw.
    unfold count_errors, count_warnings. rewrite !filter_cons. simpl.
    rewrite <- app_assoc. simpl.
    destruct (fc_severity c) eqn:E; simpl;
      repeat (destruct (decide _) as [?|?]; try congruence);
      simpl; repeat split; try lia.
    all: unfold located, recorded_failure; simpl; by rewrite E.
Qed.

Lemma Failure_str_located (p : Parser) (c : FailCall) :
  Failure_str (located p (recorded_failure p c)) = Some (diagnostic_line p c).
Proof.
  unfold Failure_str, located, diagnostic_line; simpl.
  by destruct (pos_to_linecol p (fc_pos c)).
Qed.

Lemma mapM_Failure_str (p : Parser) (cs : list FailCall) :
  mapM Failure_str (located p ∘ recorded_failure p <$> cs) =
  Some (diagnostic_line p <$> cs).
Proof.
  apply mapM_Some. induction cs as [|c cs IH]; simpl; constructor.
  - apply Failure_str_located.
  - exact IH.
Qed.

Lemma count_errors_existsb (cs : list FailCall) :
  bool_decide (1 ≤ count_errors cs)%nat =
  existsb (fun c => negb (is_Warning (fc_severity c))) cs.
Proof.
  unfold count_errors. induction cs as [|c cs IH]; simpl.
  - reflexivity.
  - rewrite filter_cons.
    destruct (decide (is_Warning (fc_severity c) = false)) as [E|E].
    + rewrite E. simpl. done.
    + apply not_false_iff_true in E. rewrite E. simpl. exact IH.
Qed.

(** C3.  [AST.build_ast] on a tree fresh from the parser visits every node,
    whatever failures the nodes before it reported, and records one failure
    per call of [fail], in order.  Only after the pass does it raise, once,
    and only when something was recorded: the aggregate carries the located
    failures, the number of non-warning failures as [errors], the number of
    warnings as [warnings], and prints one [file:line:col: message] line per
    failure.  The build is unsuccessful exactly when a failure that is not a
    warning was recorded; warnings alone leave it successful. *)
Theorem build_ast_raises_once_after_the_pass {Node}
    (node_fails : Node -> list FailCall) (ns : list Node) (p : Parser) :
  let calls := mjoin (node_fails <$> ns) in
  let e := ParseError_init (recorded_failure p <$> calls) (Some p) in
  build_ast node_fails (mkAST ns [] (Some p)) =
    match calls with
    | [] => Returned (mkAST ns [] (Some p))
    | _ :: _ => Raised e
    end ∧
  failures e = (located p ∘ recorded_failure p <$> calls) ∧
  errors e = count_errors calls ∧
  warnings e = count_warnings calls ∧
  (errors e + warnings e = length calls)%nat ∧
  ParseError_str e = Some (join_lines (diagnostic_line p <$> calls) +:+ "
") ∧
  build_unsuccessful (build_ast node_fails (mkAST ns [] (Some p))) =
    existsb (fun c => negb (is_Warning (fc_severity c))) calls.
Proof.
  intros calls e.
  assert (Hb : build_ast node_fails (mkAST ns [] (Some p)) =
               match calls with
               | [] => Returned (mkAST ns [] (Some p))
               | _ :: _ => Raised e
               end).
  { unfold build_ast. cbn [nodes]. rewrite build_nodes_parsed.
    cbn [ast_failures parser app]. fold calls.
    destruct calls; reflexivity. }
  destruct (ParseError_init_fold p calls (mkParseError [] (-1) 0 0))
    as (Hf & He & Hw).
  cbn [failures errors warnings app] in Hf, He, Hw.
  assert (Hn : (count_errors calls + count_warnings calls = length calls)%nat).
  { unfold count_errors, count_warnings. clear.
    induction calls as [|c cs IH]; [reflexivity|].
    rewrite !filter_cons.
    destruct (is_Warning (fc_severity c));
      repeat (destruct (decide _); try congruence); simpl; lia. }
  split; [exact Hb|].
  split; [exact Hf|].
  split; [exact He|].
  split; [exact Hw|].
  split; [unfold e, ParseError_init; rewrite He, Hw; exact Hn|].
  split.
  - unfold ParseError_str. unfold e, ParseError_init. rewrite Hf.
    rewrite mapM_Failure_str. reflexivity.
  - rewrite Hb. destruct calls as [|c cs] eqn:Ec; [reflexivity|].
    cbn [build_unsuccessful]. unfold e, ParseError_init. rewrite He.
    apply count_errors_existsb.
Qed.

End DiagnosticsFacts.

(** ** The type engine: [any_memory_offset] *)
Module TypeFacts.
Import Ast.

Lemma any_memory_offset_payload (t : Ty) :
  any_memory_offset t = any_memory_offset (payload t).
Proof. induction t; simpl; auto. Qed.

Lemma any_memory_offset_range (t : Ty) :
  any_memory_offset t = 0%Z ∨ any_memory_offset t = 1%Z.
Proof.
  induction t; simpl; auto.
  destruct (String.eqb name "@str"); auto.
Qed.

(** C5.  [any_memory_offset] is 0 for the built-in [@str] and 1 for every
    other built-in type, for function types and for structures and unions;
    an [ArrayType] and a [ReferenceType] give the offset of their child.  The
    [Array] symbol gives the constant 0, whatever its child, so it differs
    from the [ArrayType] it stands for as soon as the element is not
    [@str]. *)
Theorem any_memory_offset_by_class :
  (∀ name, any_memory_offset (BuiltinType name) =
           if bool_decide (name = "@str") then 0%Z else 1%Z) ∧
  any_memory_offset (BuiltinType "@str") = 0%Z ∧
  (∀ ret args v vt, any_memory_offset (FunctionType ret args v vt) = 1%Z) ∧
  (∀ d n fs, any_memory_offset (ContainerStructure d n fs) = 1%Z) ∧
  (∀ child, any_memory_offset (ArrayType child) = any_memory_offset child) ∧
  (∀ child, any_memory_offset (ReferenceType child) = any_memory_offset child) ∧
  (∀ child len, Symbol_any_memory_offset (Array child len) = Some 0%Z) ∧
  (∀ name len,
      Symbol_typ (Array (builtin_symbol name) len) =
        Some (ArrayType (BuiltinType name)) ∧
      (Symbol_any_memory_offset (Array (builtin_symbol name) len) =
         Some (any_memory_offset (ArrayType (BuiltinType name)))
       ↔ name = "@str")).
Proof.
  repeat split; try reflexivity.
  - intros name. simpl. case_bool_decide as H.
    + by rewrite H.
    + destruct (String.eqb_spec name "@str"); congruence.
  - simpl. intros H. destruct (String.eqb_spec name "@str"); congruence.
  - intros ->. reflexivity.
Qed.

(** The asymmetry at [@int]: the symbol [int[]] gives 0, its type gives 1. *)
Lemma any_memory_offset_by_class_witness :
  Symbol_any_memory_offset (Array (builtin_symbol "@int") None) = Some 0%Z ∧
  any_memory_offset (ArrayType (BuiltinType "@int")) = 1%Z ∧
  Symbol_any_memory_offset (Array (builtin_symbol "@int") None) ≠
    Some (any_memory_offset (ArrayType (BuiltinType "@int"))).
Proof.
  destruct any_memory_offset_by_class
    as (_ & _ & _ & _ & Ha & _ & Hs & Hd).
  split; [apply Hs|]. split; [reflexivity|].
  intros H. apply (proj2 (Hd "@int" None)) in H. discriminate H.
Defined.

End TypeFacts.

(** ** Name lookup *)
Module LookupFacts.
Import Ast Lookup.

Lemma resolve_elems_prefix (parent_find : string -> DeclarationLookup)
    (pre post : list Identifier) (cur : option DeclarationBase)
    (pre' : list Identifier) (c : option DeclarationBase) :
  resolve_prefix parent_find cur pre = Some (pre', c) ->
  resolve_elems parent_find cur (pre ++ post) =
    ((pre' ++ (resolve_elems parent_find c post).1)%list,
     (resolve_elems parent_find c post).2).
Proof.
  revert cur pre'. induction pre as [|e r IH]; intros cur pre' H; simpl in *.
  - inversion H; subst. simpl. by destruct (resolve_elems _ _ _).
  - destruct (lookup_elem parent_find cur e) as [[d|] err]; [|discriminate].
    destruct (resolve_prefix parent_find (Some d) r) as [[r' c']|] eqn:E;
      [|discriminate].
    simpl in H. inversion H; subst.
    rewrite (IH _ _ E). simpl. reflexivity.
Qed.

(** C7.  When the elements before [e] all resolve and the lookup of [e]
    answers with neither a declaration nor an error, building the compound
    identifier reports the error [use of undeclared identifier] with the name
    of [e] at the position of [e], leaves the declaration of [e] null, does
    not look at the elements after [e], and still returns: the type of [e],
    read after the build, is the built-in [@any]. *)
Theorem undeclared_identifier_reported_and_typed_any
    (parent_find : string -> DeclarationLookup)
    (pre post pre' : list Identifier) (e : Identifier)
    (c : option DeclarationBase) :
  resolve_prefix parent_find None pre = Some (pre', c) ->
  lookup_elem parent_find c e = (None, None) ->
  CompoundIdentifier_build parent_find (pre ++ e :: post) =
    (Identifier_build <$> (pre' ++ set_decl e None :: post),
     Some (Diagnostics.mkFailCall Diagnostics.Error (i_pos e)
             ("use of undeclared identifier " +:+ i_name e))) ∧
  i_decl (Identifier_build (set_decl e None)) = None ∧
  Identifier_typ (Identifier_build (set_decl e None)) = any ∧
  (∀ i, i_decl i = None -> Identifier_typ i = any).
Proof.
  intros Hpre He. repeat split.
  - unfold CompoundIdentifier_build, find_children_declarations.
    rewrite (resolve_elems_prefix _ _ _ _ _ _ Hpre).
    simpl. rewrite He. simpl. reflexivity.
  - intros i Hi. unfold Identifier_typ. by rewrite Hi.
Qed.

Lemma undeclared_identifier_reported_and_typed_any_witness :
  CompoundIdentifier_build scope_with_p
    [mkIdentifier 4 "p" None 0; mkIdentifier 6 "z" None 0] =
    ([mkIdentifier 4 "p" (Some (DDeclaration p_decl)) 0;
      mkIdentifier 6 "z" None 0],
     Some (Diagnostics.mkFailCall Diagnostics.Error 6
             "use of undeclared identifier z")) ∧
  Identifier_typ (mkIdentifier 6 "z" None 0) = any.
Proof.
  destruct (undeclared_identifier_reported_and_typed_any scope_with_p
              [mkIdentifier 4 "p" None 0] []
              [mkIdentifier 4 "p" (Some (DDeclaration p_decl)) 0]
              (mkIdentifier 6 "z" None 0) (Some (DDeclaration p_decl))
              eq_refl eq_refl) as (H1 & _ & H3 & _).
  split; [exact H1|exact H3].
Defined.

(** *** Private symbols *)

(** No [get_declaration] answers with an error. *)
Lemma get_declaration_no_error (n : Node) (sym : string) :
  (get_declaration n sym).2 = None.
Proof.
  revert n. fix IH 1. intros [d|lib syms ds|lib syms ds|]; simpl.
  - unfold DeclarationBase_get_declaration. by destruct (String.eqb _ _).
  - induction syms as [|x r IHr]; [reflexivity|].
    specialize (IH x). destruct (get_declaration x sym) as [[?|] [?|]];
      simpl in *; try discriminate; auto.
  - induction syms as [|x r IHr]; [reflexivity|].
    specialize (IH x). destruct (get_declaration x sym) as [[?|] [?|]];
      simpl in *; try discriminate; auto.
  - reflexivity.
Qed.

Lemma first_answer_no_error {A} (get : A -> string -> DeclarationLookup)
    (l : list A) (sym : string) :
  (∀ x, (get x sym).2 = None) -> (first_answer get l sym).2 = None.
Proof.
  intros H. induction l as [|x r IH]; [reflexivity|]. simpl.
  specialize (H x). destruct (get x sym) as [[?|] [?|]];
    simpl in *; try discriminate; auto.
Qed.

(** The lookup of the root never answers with an error, whatever the
    qualifiers of the declaration it finds. *)
Lemma AST_find_declaration_no_error (a : Root) (sym : string) :
  (AST_find_declaration a sym).2 = None.
Proof.
  unfold AST_find_declaration.
  pose proof (first_answer_no_error get_declaration (root_nodes a) sym
                (fun x => get_declaration_no_error x sym)) as H1.
  destruct (first_answer get_declaration (root_nodes a) sym)
    as [[?|] [?|]]; simpl in *; try discriminate; auto.
  assert (H2 : (first_answer DeclarationBase_get_declaration
                  (root_declarations a) sym).2 = None).
  { apply first_answer_no_error. intros x.
    unfold DeclarationBase_get_declaration. by destruct (String.eqb _ _). }
  destruct (first_answer DeclarationBase_get_declaration _ _)
    as [[[]|] [?|]]; simpl in *; try discriminate; auto.
Qed.

(** C2, at the failing input.  A lookup of the private [secret] of the
    imported module [m], coming from a function of the importing module,
    gives the declaration and no error: [Import.find_declaration], which
    holds the check, is not on the way of this lookup.  The same lookup
    coming from a node of the imported file does pass through it and is
    refused. *)
Theorem private_symbol_found_from_importing_module :
  find_declaration main_use_site main_root "secret" =
    Some (Some (DDeclaration secret), None) ∧
  is_private (d_qualifiers secret) = true ∧
  find_declaration [FNode; FImport module_m [DDeclaration secret]]
                   main_root "secret" =
    Some (None, Some "accessing to private symbol `secret`").
Proof. repeat split. Qed.

End LookupFacts.

(** ** The build of calls and of flow scopes *)
Module BuildFacts.
Import Ast Build.

Lemma inert_all (l : list Node) :
  (fix all (l : list Node) : bool :=
     match l with
     | [] => true
     | x :: r => inert x && all r
     end) l = forallb inert l.
Proof. induction l as [|x r IH]; simpl; [reflexivity|by rewrite IH]. Qed.

Lemma statement_free_all (l : list Node) :
  (fix all (l : list Node) : bool :=
     match l with
     | [] => true
     | x :: r => statement_free x && all r
     end) l = forallb statement_free l.
Proof. induction l as [|x r IH]; simpl; [reflexivity|by rewrite IH]. Qed.

Lemma depth_most_eq (l : list Node) :
  (fix most (l : list Node) : nat :=
     match l with
     | [] => 0
     | x :: r => Nat.max (depth x) (most r)
     end) l = depth_most l.
Proof. induction l as [|x r IH]; simpl; [reflexivity|by rewrite IH]. Qed.

Lemma depth_pos (n : Node) : 1 ≤ depth n.
Proof. destruct n as [| | | | | |? ? []| | | |]; simpl; lia. Qed.

Lemma same_scope_refl (st : State) : same_scope st st.
Proof. by repeat split. Qed.

Lemma same_scope_trans (a b c : State) :
  same_scope a b -> same_scope b c -> same_scope a c.
Proof.
  intros (?&?&?&?&?) (?&?&?&?&?). repeat split; congruence.
Qed.

Lemma same_scope_fail_all (fs : list FailCall) (st : State) :
  same_scope st (fail_all fs st).
Proof. by repeat split. Qed.

Lemma same_scope_fail sev pos msg (st : State) :
  same_scope st (fail sev pos msg st).
Proof. by repeat split. Qed.

Section Facts.
Variable Symbol_build : Symbol -> Symbol * list FailCall.
Variable auto_cast : Node -> Ty -> Node.
Variable default_value : Declaration -> option Node.
Variable repr : Symbol -> string.
Variable outer_do_before : Node -> State -> Result State.

Local Abbreviation build :=
  (Build.build Symbol_build auto_cast default_value repr outer_do_before).
Local Abbreviation FunctionCall_build :=
  (Build.FunctionCall_build Symbol_build auto_cast default_value repr
                            outer_do_before).
Local Abbreviation _auto_cast_args :=
  (Build._auto_cast_args auto_cast outer_do_before).
Local Abbreviation FlowScope_do_before :=
  (Build.FlowScope_do_before outer_do_before).
Local Abbreviation FlowScope_loop :=
  (Build.FlowScope_loop Symbol_build auto_cast default_value repr
                        outer_do_before).

(** The build of a list of inert values succeeds and leaves the scope as
    it is, as soon as the build of each of them does. *)
Lemma inert_build_all (fuel : nat) (before : Node) :
  (∀ n st, inert n = true -> depth n ≤ fuel ->
     ∃ n' st', build fuel before n st = Ok (n', st') ∧
               same_scope st st' ∧ inert n' = true ∧ depth n' = depth n) ->
  ∀ l st, forallb inert l = true -> depth_most l ≤ fuel ->
    ∃ l' st', build_all (build fuel) before l st = Ok (l', st') ∧
              same_scope st st' ∧ forallb inert l' = true ∧
              depth_most l' = depth_most l ∧
              Forall2 (fun x x' => ∃ s1 s2,
                         build fuel before x s1 = Ok (x', s2)) l l'.
Proof.
  intros IH l. induction l as [|x r IHr]; intros st Hi Hd; simpl in *.
  - exists [], st. repeat split; auto using same_scope_refl.
  - apply andb_true_iff in Hi as [Hx Hr].
    destruct (IH x st Hx) as (x' & st1 & E1 & S1 & I1 & D1); [lia|].
    destruct (IHr st1 Hr) as (r' & st2 & E2 & S2 & I2 & D2 & F2); [lia|].
    exists (x' :: r'), st2. rewrite E1. simpl. rewrite E2. simpl.
    split; [reflexivity|]. split; [by eapply same_scope_trans|].
    split; [by rewrite I1, I2|]. split; [by rewrite D1, D2|].
    constructor; [by exists st, st1|exact F2].
Qed.

Lemma inert_build (fuel : nat) :
  ∀ before n st, inert n = true -> depth n ≤ fuel ->
    ∃ n' st', build fuel before n st = Ok (n', st') ∧
              same_scope st st' ∧ inert n' = true ∧ depth n' = depth n.
Proof.
  induction fuel as [|f IH]; intros before n st Hi Hd.
  - pose proof (depth_pos n). lia.
  - destruct n; try discriminate; cbn [Build.build].
    + eexists _, _. repeat split; auto.
    + eexists _, _. repeat split; auto.
    + destruct (Symbol_build sym) as [s' fs]. eexists _, _.
      split; [reflexivity|]. split; [apply same_scope_fail_all|done].
    + simpl in Hi, Hd. rewrite inert_all in Hi. rewrite depth_most_eq in Hd.
      destruct (inert_build_all f before (IH before) contents st Hi)
        as (l' & st' & E & S & I & D & _); [lia|].
      rewrite E. simpl. eexists _, _. split; [reflexivity|].
      split; [exact S|]. simpl. by rewrite inert_all, !depth_most_eq, D.
    + simpl in Hi, Hd. rewrite inert_all in Hi. rewrite depth_most_eq in Hd.
      destruct (inert_build_all f before (IH before) contents st Hi)
        as (l' & st' & E & S & I & D & _); [lia|].
      rewrite E. simpl. eexists _, _. split; [reflexivity|].
      split; [exact S|]. simpl. by rewrite inert_all, !depth_most_eq, D.
    + simpl in Hi, Hd.
      destruct (IH before n st Hi) as (n' & st' & E & S & I & D); [lia|].
      rewrite E. simpl. eexists _, _. split; [reflexivity|].
      split; [exact S|]. simpl. by rewrite D.
Qed.

(** The statement [_auto_cast_args] makes for an inert tail builds, and
    its build touches neither the body nor the counter of the scope. *)
Lemma vargs_statement_build (f0 id : nat) (vt : Symbol) (name : string)
    (vargs : list Node) (st : State) :
  forallb inert vargs = true -> depth_most vargs ≤ f0 ->
  ∃ tail' st',
    build (5 + f0) (Statement id (vargs_declaration vt name vargs))
          (Statement id (vargs_declaration vt name vargs)) st =
      Ok (Statement id
            (VariableDeclaration
               (Symbol_build (Array vt (Some (pretty (length vargs))))).1
               (mkIdentifier 0 name None 0)
               (Some (Assignment
                  (auto_cast (Expression [InitializationList tail'] false)
                     (canonical_typ
                        (Symbol_build
                           (Array vt (Some (pretty (length vargs))))).1))))),
          st') ∧
    same_scope (declare name st) st' ∧
    length tail' = length vargs ∧
    Forall2 (fun x x' => ∃ s1 s2,
               build f0 (Statement id (vargs_declaration vt name vargs)) x s1
               = Ok (x', s2)) vargs tail'.
Proof.
  intros Hi Hd.
  set (stmt := Statement id (vargs_declaration vt name vargs)).
  destruct (Symbol_build (Array vt (Some (pretty (length vargs)))))
    as [typ' fs] eqn:Et.
  destruct (inert_build_all f0 stmt (inert_build f0 stmt) vargs
              (fail_all fs (declare name st)) Hi Hd)
    as (tail' & st' & E & Hs & I & D & F).
  exists tail', st'. split; [|split; [|split]].
  - unfold stmt at 2. unfold vargs_declaration.
    change (5 + f0) with (S (S (S (S (S f0))))).
    cbn [Build.build i_name]. fold (vargs_declaration vt name vargs).
    fold stmt. rewrite Et. cbn [Build.build build_all]. rewrite E.
    reflexivity.
  - eapply same_scope_trans; [apply same_scope_fail_all|exact Hs].
  - by apply Forall2_length in F.
  - exact F.
Qed.

Lemma length_auto_cast_prefix (args : list Node) (params : list Declaration) :
  length (auto_cast_prefix auto_cast args params) = length args.
Proof.
  revert params. induction args as [|a ar IH]; intros [|p pr]; simpl; auto.
Qed.

Lemma drop_auto_cast_prefix (args : list Node) (params : list Declaration) :
  drop (length params) (auto_cast_prefix auto_cast args params) =
  drop (length params) args.
Proof.
  revert params. induction args as [|a ar IH]; intros [|p pr]; simpl; auto.
Qed.

(** The lowering of a call whose tail holds no call: it returns, whatever
    the scope, as soon as the fuel covers the height of the tail. *)
Lemma lowering_of_a_tail_without_calls (f0 : nat)
    (params : list Declaration) (vt : Symbol) (before : Node)
    (args : list Node) (st : State) (idx k : nat) :
  is_Statement before = true ->
  index before (body st) = Some idx ->
  length args = length params + k ->
  forallb inert (drop (length params) args) = true ->
  depth_most (drop (length params) args) ≤ f0 ->
  let name := "__gen_fun_" +:+ pretty (S (gen_var_count st)) in
  let typ' := (Symbol_build (Array vt (Some (pretty k)))).1 in
  ∃ (tail' : list Node) (st' : State),
    let do' :=
      Statement (next_id st)
        (VariableDeclaration typ' (mkIdentifier 0 name None 0)
           (Some (Assignment
              (auto_cast (Expression [InitializationList tail'] false)
                         (canonical_typ typ'))))) in
    _auto_cast_args (build (5 + f0)) EHLIT params true (Some vt) before args
                    st =
      Ok (take (length params) (auto_cast_prefix auto_cast args params) ++
          synthetic_actuals name k, st') ∧
    length (take (length params) (auto_cast_prefix auto_cast args params) ++
            synthetic_actuals name k) = length params + 2 ∧
    body st' = take idx (body st) ++ do' :: drop idx (body st) ∧
    length (body st') = S (length (body st)) ∧
    body st' !! idx = Some do' ∧
    (∃ e, body st' !! S idx = Some e ∧ same_object e before = true) ∧
    _counter st' = S (_counter st) ∧
    gen_var_count st' = S (gen_var_count st) ∧
    length tail' = k ∧
    Forall2 (fun x x' => ∃ s1 s2,
               build f0 (Statement (next_id st)
                           (vargs_declaration vt name
                              (drop (length params) args))) x s1
               = Ok (x', s2))
            (drop (length params) args) tail' ∧
    ∀ fuel is_variadic variadic_type,
      _auto_cast_args (build fuel) C params is_variadic variadic_type before
                      args st =
        Ok (auto_cast_prefix auto_cast args params, st).
Proof.
  intros Hb Hidx Hlen Hi Hd name typ'.
  assert (Hk : length (drop (length params) args) = k).
  { rewrite length_drop. lia. }
  destruct (vargs_statement_build f0 (next_id st) vt name
              (drop (length params) args)
              (mkState (body st) (_counter st) (declarations st)
                       (S (gen_var_count st)) (failures st) (S (next_id st)))
              Hi Hd)
    as (tail' & st3 & Eb & (Sb & Sc & Sd & Sg & Sn) & Lt & Ft).
  rewrite Hk in Eb. fold typ' in Eb. cbn in Sb, Sc, Sg.
  assert (Hlt : idx < length (body st)).
  { clear -Hidx. revert idx Hidx.
    induction (body st) as [|y r IH]; intros idx H; [discriminate|].
    simpl in H. destruct (same_object y before); [inversion H; simpl; lia|].
    destruct (index before r) eqn:E; [|discriminate].
    inversion H; subst. specialize (IH _ eq_refl). simpl. lia. }
  exists tail', (insert_before idx
    (Statement (next_id st)
       (VariableDeclaration typ' (mkIdentifier 0 name None 0)
          (Some (Assignment
             (auto_cast (Expression [InitializationList tail'] false)
                        (canonical_typ typ')))))) st3).
  cbn zeta.
  split; [|split; [|split; [|split; [|split; [|split; [|split;
    [|split; [|split; [|split]]]]]]]]].
  - unfold Build._auto_cast_args.
    replace (Nat.min (length args) (length params)) with (length params)
      by lia.
    rewrite drop_auto_cast_prefix.
    unfold generate_var_name, new_Statement. cbn [next_id].
    fold name. unfold Build.FlowScope_do_before.
    cbn [is_Statement body]. rewrite Hb, Hidx.
    cbn [_counter declarations gen_var_count failures].
    rewrite Eb. cbn [mbind Result_bind]. by rewrite Hk.
  - rewrite length_app, length_take, length_auto_cast_prefix. simpl. lia.
  - cbn [insert_before body]. unfold list_insert_at. by rewrite Sb.
  - cbn [insert_before body]. unfold list_insert_at. rewrite Sb.
    rewrite length_app. simpl. rewrite length_take, length_drop. lia.
  - cbn [insert_before body]. unfold list_insert_at. rewrite Sb.
    rewrite lookup_app_r; rewrite length_take; [|lia].
    replace (idx - idx `min` length (body st)) with 0 by lia. reflexivity.
  - cbn [insert_before body]. unfold list_insert_at. rewrite Sb.
    rewrite lookup_app_r; rewrite length_take; [|lia].
    replace (S idx - idx `min` length (body st)) with 1 by lia. simpl.
    rewrite lookup_drop, Nat.add_0_r.
    clear -Hidx. revert idx Hidx.
    induction (body st) as [|y r IH]; intros idx H; [discriminate|].
    simpl in H. destruct (same_object y before) eqn:Ey.
    + inversion H; subst. simpl. eauto.
    + destruct (index before r) eqn:E; [|discriminate].
      inversion H; subst. simpl. eauto.
  - cbn [insert_before _counter]. by rewrite Sc.
  - cbn [insert_before gen_var_count]. by rewrite Sg.
  - lia.
  - exact Ft.
  - intros fuel is_variadic variadic_type.
    unfold Build._auto_cast_args. by destruct is_variadic.
Qed.

(** C4.  The build of a call whose symbol, once built, is a type [t]
    gives a [Cast] on that symbol, never a [FunctionCall]: with one
    argument the cast holds that argument, built under the cast, and
    nothing is reported; with no argument the error [cast requires a value]
    is reported, with more than one the error [too many values for cast
    expression], both at the position of the call.  A single argument
    without nested calls always builds. *)
Theorem call_on_a_type_becomes_a_cast (fuel : nat) (before : Node)
    (pos : nat) (sym sym1 : Symbol) (fs : list FailCall) (t : Ty)
    (args : list Node) (st : State) :
  Symbol_build sym = (sym1, fs) ->
  is_type sym1 = true ->
  Symbol_decl sym1 = Some (Some (DType t)) ->
  build (S fuel) before (FunctionCall pos sym args) st =
    match args with
    | [] =>
        Ok (Cast pos sym1 [],
            fail Error pos "cast requires a value" (fail_all fs st))
    | [a] =>
        '(a', st') ← build fuel before a (fail_all fs st);
        Ok (Cast pos sym1 [a'], st')
    | _ :: _ :: _ =>
        Ok (Cast pos sym1 args,
            fail Error pos "too many values for cast expression"
                 (fail_all fs st))
    end ∧
  (∀ n st', build (S fuel) before (FunctionCall pos sym args) st
            = Ok (n, st') ->
     ∃ args', n = Cast pos sym1 args' ∧ length args' = length args) ∧
  (∀ a, args = [a] -> inert a = true -> depth a ≤ fuel ->
     ∃ a' st', build (S fuel) before (FunctionCall pos sym args) st
               = Ok (Cast pos sym1 [a'], st') ∧
               build fuel before a (fail_all fs st) = Ok (a', st') ∧
               same_scope st st').
Proof.
  intros Hs Ht Hd.
  assert (E : build (S fuel) before (FunctionCall pos sym args) st =
    match args with
    | [] =>
        Ok (Cast pos sym1 [],
            fail Error pos "cast requires a value" (fail_all fs st))
    | [a] =>
        '(a', st') ← build fuel before a (fail_all fs st);
        Ok (Cast pos sym1 [a'], st')
    | _ :: _ :: _ =>
        Ok (Cast pos sym1 args,
            fail Error pos "too many values for cast expression"
                 (fail_all fs st))
    end).
  { cbn [Build.build]. unfold Build.FunctionCall_build.
    rewrite Hs, Ht, Hd. unfold Cast_build.
    destruct args as [|a [|b r]]; reflexivity. }
  split; [exact E|]. split.
  - intros n st' H. rewrite E in H.
    destruct args as [|a [|b r]].
    + inversion H; subst. by exists [].
    + destruct (build fuel before a (fail_all fs st)) as [[a' s']| |];
        simpl in H; try discriminate.
      inversion H; subst. by exists [a'].
    + inversion H; subst. by eexists.
  - intros a -> Hi Hdep. rewrite E.
    destruct (inert_build fuel before a (fail_all fs st) Hi Hdep)
      as (a' & st' & Eb & Hsc & _).
    exists a', st'. rewrite Eb. split; [reflexivity|]. split; [reflexivity|].
    eapply same_scope_trans; [apply same_scope_fail_all|exact Hsc].
Qed.

(** *** The flow scope while a statement is built *)

(** What the flow-scope lemmas ask of the two collaborators that return
    nodes: they bring no statement in. *)
Hypothesis auto_cast_statement_free :
  ∀ n t, statement_free n = true -> statement_free (auto_cast n t) = true.
Hypothesis default_value_statement_free :
  ∀ d e, default_value d = Some e -> statement_free e = true.

Lemma build_all_Ok_inv (build_rec : Node -> Node -> State -> Result (Node * State))
    (before : Node) (x : Node) (r : list Node) (st : State)
    (l' : list Node) (st' : State) :
  build_all build_rec before (x :: r) st = Ok (l', st') ->
  ∃ x' st1 r', build_rec before x st = Ok (x', st1) ∧
               build_all build_rec before r st1 = Ok (r', st') ∧
               l' = x' :: r'.
Proof.
  simpl. destruct (build_rec before x st) as [[x' st1]| |]; simpl;
    try discriminate.
  destruct (build_all build_rec before r st1) as [[r' st2]| |] eqn:E2;
    simpl; try discriminate.
  intros H. inversion H; subst. by exists x', st1, r'.
Qed.

(** A property of states and nodes carried through the build of a list. *)
Lemma build_all_preserves (build_rec : Node -> Node -> State -> Result (Node * State))
    (before : Node) (P : State -> Prop) (Q : Node -> Prop) (R : State -> State -> Prop) :
  (∀ st, R st st) ->
  (∀ a b c, R a b -> R b c -> R a c) ->
  (∀ n st n' st', Q n -> P st -> build_rec before n st = Ok (n', st') ->
     P st' ∧ Q n' ∧ R st st') ->
  ∀ l st l' st', Forall Q l -> P st ->
    build_all build_rec before l st = Ok (l', st') ->
    P st' ∧ Forall Q l' ∧ R st st'.
Proof.
  intros Hrefl Htrans Hstep l.
  induction l as [|x r IH]; intros st l' st' HQ HP H.
  - simpl in H. inversion H; subst. auto.
  - apply build_all_Ok_inv in H as (x' & st1 & r' & E1 & E2 & ->).
    inversion HQ; subst.
    destruct (Hstep _ _ _ _ H1 HP E1) as (P1 & Q1 & R1).
    destruct (IH _ _ _ H2 P1 E2) as (P2 & Q2 & R2).
    split; [exact P2|]. split; [by constructor|]. by eapply Htrans.
Qed.

Lemma forallb_Forall_statement_free (l : list Node) :
  forallb statement_free l = true <->
  Forall (fun n => statement_free n = true) l.
Proof.
  induction l as [|x r IH]; simpl.
  - split; auto.
  - rewrite andb_true_iff, IH. split.
    + intros [? ?]. by constructor.
    + intros H. by inversion H.
Qed.

Lemma check_args_loop_statement_free (params : list Declaration) :
  ∀ i args diff,
    Forall (fun n => statement_free n = true) args ->
    Forall (fun n => statement_free n = true)
           (check_args_loop default_value params i args diff).1.
Proof.
  induction params as [|p r IH]; intros i args diff H; simpl; [exact H|].
  destruct (length args <=? i); [|by apply IH].
  destruct (default_value p) as [e|] eqn:E; [|exact H].
  apply IH. apply Forall_app. split; [exact H|].
  constructor; [by eapply default_value_statement_free|constructor].
Qed.

Lemma auto_cast_prefix_statement_free (args : list Node)
    (params : list Declaration) :
  Forall (fun n => statement_free n = true) args ->
  Forall (fun n => statement_free n = true)
         (auto_cast_prefix auto_cast args params).
Proof.
  revert params. induction args as [|a ar IH]; intros [|p pr] H; simpl; auto.
  inversion H; subst. constructor; auto.
Qed.

Lemma at_place_next (m : Place) (before : Node) (st st' : State) :
  body st' = body st -> _counter st' = _counter st ->
  next_id st ≤ next_id st' ->
  at_place m before st -> at_place m before st'.
Proof.
  intros Hb Hc Hn. destruct m as [b c|done rest]; simpl.
  - intros (?&?&?). repeat split; congruence.
  - intros (ins & H1 & H2 & H3 & H4 & H5). exists ins.
    rewrite Hb, Hc. repeat split; auto.
    unfold ids_below in *.
    eapply Forall_impl; [exact H4|]. intros x Hx i Hi.
    specialize (Hx i Hi). lia.
Qed.

Lemma index_skip (b : Node) (l r : list Node) :
  Forall (fun x => same_object x b = false) l ->
  index b (l ++ r) = (fun i => length l + i) <$> index b r.
Proof.
  induction l as [|x l IH]; intros H; simpl.
  - by destruct (index b r).
  - inversion H; subst. rewrite H2, (IH H3).
    by destruct (index b r).
Qed.

Lemma index_current (s : Node) (done rest : list Node) (st : State) :
  is_Statement s = true -> current s done rest st ->
  index s (body st) = Some (_counter st).
Proof.
  intros Hs (ins & H1 & H2 & H3 & _). rewrite H1, H2.
  rewrite app_assoc, index_skip by exact H3. simpl.
  destruct s; try discriminate. simpl. rewrite Nat.eqb_refl. simpl.
  rewrite length_app. f_equal. lia.
Qed.

Lemma index_fresh (id : nat) (e : Node) (l : list Node) :
  ids_below id l -> index (Statement id e) l = None.
Proof.
  induction l as [|x l IH]; intros H; [reflexivity|].
  inversion H; subst. simpl.
  destruct x; simpl; try by rewrite (IH H3).
  destruct (Nat.eqb_spec id0 id) as [->|?].
  - specialize (H2 id eq_refl). lia.
  - by rewrite (IH H3).
Qed.

Lemma statement_free_wrap (k : option ContainerKind) (n : Node) :
  statement_free (wrap k n) = statement_free n.
Proof. by destruct k. Qed.

(** What the build of a node without statements below it keeps, when it
    returns: the place of the statement it is built under, the absence of
    statements in the node, and the order of creation. *)
Local Abbreviation preserved fuel :=
  (∀ m before n st n' st',
     is_Statement before = true -> statement_free n = true ->
     at_place m before st ->
     build fuel before n st = Ok (n', st') ->
     at_place m before st' ∧ statement_free n' = true ∧
     next_id st ≤ next_id st').

Lemma build_all_preserved (f : nat) :
  preserved f ->
  ∀ m before l st l' st',
    is_Statement before = true -> forallb statement_free l = true ->
    at_place m before st ->
    build_all (build f) before l st = Ok (l', st') ->
    at_place m before st' ∧ forallb statement_free l' = true ∧
    next_id st ≤ next_id st'.
Proof.
  intros IH m before l st l' st' Hb Hl Hp E.
  apply forallb_Forall_statement_free in Hl.
  destruct (build_all_preserves (build f) before (at_place m before)
              (fun n => statement_free n = true)
              (fun a b => next_id a ≤ next_id b))
    with (l := l) (st := st) (l' := l') (st' := st') as (H1 & H2 & H3);
    auto.
  - intros; lia.
  - intros n s n1 s1 Hn Hs En. by eapply IH.
  - by rewrite forallb_Forall_statement_free.
Qed.

Lemma Cast_build_preserved (f : nat) :
  preserved f ->
  ∀ m before pos sym args st n' st',
    is_Statement before = true -> forallb statement_free args = true ->
    at_place m before st ->
    Cast_build (build f) before pos sym args st = Ok (n', st') ->
    at_place m before st' ∧ statement_free n' = true ∧
    next_id st ≤ next_id st'.
Proof.
  intros IH m before pos sym args st n' st' Hb Hl Hp E.
  unfold Cast_build in E. destruct args as [|a [|b r]].
  - inversion E; subst. split; [|by split].
    eapply at_place_next; [| | |exact Hp]; auto.
  - destruct (build f before a st) as [[a' s']| |] eqn:Ea; simpl in E;
      try discriminate.
    inversion E; subst. simpl in Hl. rewrite andb_true_r in Hl.
    destruct (IH _ _ _ _ _ _ Hb Hl Hp Ea) as (H1 & H2 & H3).
    split; [exact H1|]. split; [|exact H3]. simpl. by rewrite H2.
  - inversion E; subst. split; [|split; [|reflexivity]].
    + eapply at_place_next; [| | |exact Hp]; auto.
    + simpl. rewrite statement_free_all. exact Hl.
Qed.

(** The build of a statement that is not in the body, as the one
    [do_before] is asked to insert: no request of it can be served, so the
    body and the counter are as before when it returns. *)
Lemma new_statement_build (f id : nat) (e : Node) (st : State)
    (do' : Node) (st' : State) :
  (∀ f', f' < f -> preserved f') ->
  statement_free e = true ->
  index (Statement id e) (body st) = None ->
  build f (Statement id e) (Statement id e) st = Ok (do', st') ->
  ∃ e', do' = Statement id e' ∧ body st' = body st ∧
        _counter st' = _counter st ∧ next_id st ≤ next_id st'.
Proof.
  intros IH He Hi E. destruct f as [|f']; [discriminate|].
  cbn [Build.build] in E.
  destruct (build f' (Statement id e) e st) as [[e' s']| |] eqn:Ee;
    simpl in E; try discriminate.
  inversion E; subst.
  destruct (IH f' (Nat.lt_succ_diag_r f') (Absent (body st) (_counter st))
               (Statement id e) e st e' st' eq_refl He)
    as ((_ & H1 & H2) & _ & H3); [by repeat split|exact Ee|].
  by exists e'.
Qed.

Lemma insert_at_current (done ins rest : list Node) (s x : Node) :
  list_insert_at (length done + length ins) x (done ++ ins ++ s :: rest) =
  done ++ (ins ++ [x]) ++ s :: rest.
Proof.
  unfold list_insert_at. rewrite (app_assoc done ins).
  rewrite <- length_app.
  rewrite take_app_length, drop_app_length.
  by rewrite <- !app_assoc.
Qed.

Lemma _auto_cast_args_preserved (f : nat) :
  (∀ f', f' < f -> preserved f') ->
  ∀ m before dt params v vt args st args' st',
    is_Statement before = true ->
    Forall (fun n => statement_free n = true) args ->
    at_place m before st ->
    _auto_cast_args (build f) dt params v vt before args st
      = Ok (args', st') ->
    at_place m before st' ∧
    Forall (fun n => statement_free n = true) args' ∧
    next_id st ≤ next_id st'.
Proof.
  intros IH m before dt params v vt args st args' st' Hb Ha Hp E.
  pose proof (auto_cast_prefix_statement_free args params Ha) as Ha1.
  unfold Build._auto_cast_args in E.
  destruct v; [destruct dt|]; try (inversion E; subst; by auto).
  destruct vt as [vt|]; [|discriminate].
  unfold generate_var_name, new_Statement in E. cbn [next_id body] in E.
  unfold Build.FlowScope_do_before in E. cbn [is_Statement body] in E.
  rewrite Hb in E.
  destruct (index before (body st)) as [idx|] eqn:Hidx; [|discriminate].
  match type of E with
  | context [build f ?stmt ?stmt ?s2] =>
      destruct (build f stmt stmt s2) as [[do' st3]| |] eqn:Ed
  end; simpl in E; try discriminate.
  inversion E; subst. clear E.
  destruct m as [b c|done rest].
  { destruct Hp as (Hn & Hbd & _). congruence. }
  assert (Hcur := index_current before done rest st Hb Hp).
  rewrite Hidx in Hcur. inversion Hcur; subst idx. clear Hcur.
  destruct Hp as (ins & H1 & H2 & H3 & H4 & H5).
  cbn [body _counter declarations gen_var_count failures next_id] in Ed.
  assert (Hsf : statement_free
                  (vargs_declaration vt
                     ("__gen_fun_" +:+ pretty (S (gen_var_count st)))
                     (drop (length args `min` length params)
                        (auto_cast_prefix auto_cast args params))) = true).
  { simpl. rewrite andb_true_r, statement_free_all.
    apply forallb_Forall_statement_free. by apply Forall_drop. }
  eapply (new_statement_build _ _ _ _ _ _ IH Hsf) in Ed;
    [|cbn [body]; by apply index_fresh].
  destruct Ed as (e' & -> & Eb & Ec & En).
  cbn [body _counter next_id] in Eb, Ec, En.
  split; [|split].
  - exists (ins ++ [Statement (next_id st) e']).
    cbn [insert_before body _counter next_id].
    rewrite Eb, Ec, H1, H2. rewrite insert_at_current.
    split; [reflexivity|]. split; [rewrite length_app; simpl; lia|].
    split; [|split].
    + rewrite app_assoc. apply Forall_app. split; [exact H3|].
      constructor; [|constructor].
      destruct before as [| | | | | | | | | |bid be]; try discriminate.
      simpl. apply Nat.eqb_neq. intros Heq.
      unfold ids_below in H4. rewrite H1 in H4.
      rewrite !Forall_app in H4. destruct H4 as (_ & _ & H4).
      apply Forall_cons in H4 as [H6 _]. specialize (H6 bid eq_refl). lia.
    + unfold ids_below in *. rewrite H1 in H4.
      rewrite !Forall_app in H4. destruct H4 as (Hd & Hi & Hr).
      assert (Hw : ∀ l, Forall (fun x => ∀ i, statement_id x = Some i ->
                                  i < next_id st) l ->
                   Forall (fun x => ∀ i, statement_id x = Some i ->
                                  i < next_id st3) l).
      { intros l Hl. eapply Forall_impl; [exact Hl|].
        intros x Hx i Hi'. specialize (Hx i Hi'). lia. }
      rewrite !Forall_app. repeat split; auto.
      constructor; [|constructor]. intros i Hi'. inversion Hi'; subst. lia.
    + apply Forall_app. split; [exact H5|]. by constructor.
  - apply Forall_app. split; [by apply Forall_take|].
    unfold synthetic_actuals. by repeat constructor.
  - cbn [insert_before next_id]. lia.
Qed.

Lemma at_place_fail_all (m : Place) (before : Node) (fs : list FailCall)
    (st : State) :
  at_place m before st -> at_place m before (fail_all fs st).
Proof. intros H. eapply at_place_next; [| | |exact H]; auto. Qed.

Lemma at_place_fail (m : Place) (before : Node) sev pos msg (st : State) :
  at_place m before st -> at_place m before (fail sev pos msg st).
Proof. intros H. eapply at_place_next; [| | |exact H]; auto. Qed.

Lemma FunctionCall_build_preserved (f : nat) :
  preserved f -> (∀ f', f' < f -> preserved f') ->
  ∀ m before pos sym args st n' st',
    is_Statement before = true -> forallb statement_free args = true ->
    at_place m before st ->
    FunctionCall_build (build f) before pos sym args st = Ok (n', st') ->
    at_place m before st' ∧ statement_free n' = true ∧
    next_id st ≤ next_id st'.
Proof.
  intros IH IHlt m before pos sym args st n' st' Hb Hl Hp E.
  unfold Build.FunctionCall_build in E.
  destruct (Symbol_build sym) as [sym1 fs].
  pose proof (at_place_fail_all m before fs st Hp) as Hp0.
  destruct (is_type sym1).
  { destruct (Symbol_decl sym1) as [[[]|]|]; try discriminate.
    destruct (Cast_build_preserved f IH _ _ _ _ _ _ _ _ Hb Hl Hp0 E)
      as (H1 & H2 & H3).
    by repeat split. }
  destruct (build_all (build f) before args (fail_all fs st))
    as [[args1 st1]| |] eqn:Ea; simpl in E; try discriminate.
  destruct (build_all_preserved f IH _ _ _ _ _ _ Hb Hl Hp0 Ea)
    as (Hp1 & Hl1 & Hn1). cbn [fail_all next_id] in Hn1.
  destruct (reorder sym1) as [inner k].
  set (sym2 := match k with
               | Some _ => reset_ref_offset inner
               | None => inner
               end) in E.
  assert (Hw : ∀ args0, forallb statement_free args0 = true ->
               statement_free (wrap k (FunctionCall pos sym2 args0)) = true).
  { intros args0 H0. rewrite statement_free_wrap. simpl.
    by rewrite statement_free_all. }
  destruct (Symbol_decl sym2) as [[d|]|]; try discriminate.
  2:{ inversion E; subst. by repeat split; auto. }
  assert (Hnf : at_place m before
                  (fail Error pos ("calling non function type " +:+ repr sym2)
                        st1) ∧
                statement_free (wrap k (FunctionCall pos sym2 args1)) = true ∧
                next_id st ≤
                next_id (fail Error pos
                           ("calling non function type " +:+ repr sym2) st1)).
  { split; [by apply at_place_fail|]. split; [by apply Hw|exact Hn1]. }
  destruct d as [t|d|t|]; try discriminate.
  - (* a declaration *)
    cbn [DeclarationBase_typ] in E.
    destruct (Declaration_typ d) as [| | |ret params v vt|];
      try (inversion E; subst; exact Hnf).
    destruct (_check_args default_value repr pos sym2 params v args1 st1)
      as [args2 st2] eqn:Ec.
    assert (Hc : at_place m before st2 ∧ forallb statement_free args2 = true ∧
                 next_id st2 = next_id st1).
    { unfold _check_args in Ec.
      pose proof (check_args_loop_statement_free params 0 args1
                    (Z.of_nat (length args1) - Z.of_nat (length params))%Z
                    (proj1 (forallb_Forall_statement_free _) Hl1)) as Hx.
      destruct (check_args_loop default_value params 0 args1 _)
        as [args' diff].
      simpl in Hx. apply forallb_Forall_statement_free in Hx.
      destruct (_ || _); inversion Ec; subst;
        (split; [|by split]); auto using at_place_fail. }
    destruct Hc as (Hp2 & Hl2 & Hn2).
    match type of E with
    | context [_auto_cast_args ?br ?dt params v vt before args2 st2] =>
        destruct (_auto_cast_args br dt params v vt before args2 st2)
          as [[args3 st3]| |] eqn:Ev
    end; simpl in E; try discriminate.
    inversion E; subst.
    destruct (_auto_cast_args_preserved f IHlt _ _ _ _ _ _ _ _ _ _ Hb
                (proj1 (forallb_Forall_statement_free _) Hl2) Hp2 Ev)
      as (Hp3 & Hl3 & Hn3).
    split; [exact Hp3|]. split; [|lia].
    apply Hw. by apply forallb_Forall_statement_free.
  - (* vargs *)
    cbn [DeclarationBase_typ] in E. inversion E; subst; exact Hnf.
  - (* vargs.length *)
    cbn [DeclarationBase_typ] in E. inversion E; subst; exact Hnf.
Qed.

Lemma build_preserved : ∀ fuel, preserved fuel.
Proof.
  intros fuel. induction fuel as [fuel IHlt] using lt_wf_ind.
  destruct fuel as [|f]; [intros m before n st n' st' _ _ _ E; discriminate|].
  assert (IH : preserved f) by (apply IHlt; lia).
  assert (IHlt' : ∀ f', f' < f -> preserved f')
    by (intros f' Hf'; apply IHlt; lia).
  intros m before n st n' st' Hb Hn Hp E.
  destruct n; cbn [Build.build] in E; simpl in Hn; try discriminate.
  - inversion E; subst. by repeat split.
  - inversion E; subst. by repeat split.
  - destruct (Symbol_build sym) as [s' fs]. inversion E; subst.
    split; [by apply at_place_fail_all|]. by split.
  - rewrite statement_free_all in Hn.
    destruct (build_all (build f) before contents st) as [[c' s']| |] eqn:Ec;
      simpl in E; try discriminate.
    inversion E; subst.
    destruct (build_all_preserved f IH _ _ _ _ _ _ Hb Hn Hp Ec)
      as (H1 & H2 & H3).
    split; [exact H1|]. split; [|exact H3]. simpl.
    by rewrite statement_free_all.
  - rewrite statement_free_all in Hn.
    destruct (build_all (build f) before contents st) as [[c' s']| |] eqn:Ec;
      simpl in E; try discriminate.
    inversion E; subst.
    destruct (build_all_preserved f IH _ _ _ _ _ _ Hb Hn Hp Ec)
      as (H1 & H2 & H3).
    split; [exact H1|]. split; [|exact H3]. simpl.
    by rewrite statement_free_all.
  - destruct (build f before n st) as [[e' s']| |] eqn:Ee; simpl in E;
      try discriminate.
    inversion E; subst.
    destruct (IH _ _ _ _ _ _ Hb Hn Hp Ee) as (H1 & H2 & H3).
    by repeat split.
  - destruct (Symbol_build typ) as [typ' fs].
    assert (Hp1 : at_place m before (fail_all fs (declare (i_name sym) st))).
    { apply at_place_fail_all. eapply at_place_next; [| | |exact Hp]; auto. }
    destruct assign as [a|].
    + destruct (build f before a _) as [[a' s']| |] eqn:Ee; simpl in E;
        try discriminate.
      inversion E; subst.
      destruct (IH _ _ _ _ _ _ Hb Hn Hp1 Ee) as (H1 & H2 & H3).
      split; [exact H1|]. split; [|exact H3]. simpl.
      destruct a'; simpl in *; auto.
    + inversion E; subst. by repeat split.
  - rewrite statement_free_all in Hn.
    by eapply (FunctionCall_build_preserved f IH IHlt').
  - rewrite statement_free_all in Hn.
    by eapply (Cast_build_preserved f IH).
  - destruct (build f before n st) as [[e' s']| |] eqn:Ee; simpl in E;
      try discriminate.
    inversion E; subst.
    destruct (IH _ _ _ _ _ _ Hb Hn Hp Ee) as (H1 & H2 & H3).
    by repeat split.
Qed.

Lemma index_None_same_object (x : Node) (l : list Node) :
  index x l = None -> Forall (fun y => same_object y x = false) l.
Proof.
  induction l as [|y r IH]; intros H; [constructor|].
  simpl in H. destruct (same_object y x) eqn:E; [discriminate|].
  constructor; [exact E|]. apply IH. by destruct (index x r).
Qed.

Lemma same_object_sym (x y : Node) : same_object x y = same_object y x.
Proof.
  destruct x, y; simpl; try reflexivity. apply Nat.eqb_sym.
Qed.

(** A request that reaches the flow scope while the statement [s] is being
    built. *)
Lemma do_before_at_current (fuel : nat) (s : Node) (done rest : list Node)
    (i : nat) (d : Node) (st st' : State) :
  is_Statement s = true ->
  current s done rest st ->
  statement_free d = true ->
  index (Statement i d) (body st) = None ->
  i < next_id st ->
  FlowScope_do_before (build fuel) (Statement i d) s st = Ok st' ->
  ∃ d' st1,
    build fuel (Statement i d) (Statement i d) st = Ok (Statement i d', st1) ∧
    body st1 = body st ∧ _counter st1 = _counter st ∧
    body st' = take (_counter st) (body st) ++
               Statement i d' :: drop (_counter st) (body st) ∧
    take (_counter st) (body st') = take (_counter st) (body st) ∧
    _counter st' = S (_counter st) ∧
    body st' !! _counter st' = Some s ∧
    current s done rest st'.
Proof.
  intros Hs Hcur Hd Hi Hlt E.
  pose proof (index_current s done rest st Hs Hcur) as Hidx.
  unfold Build.FlowScope_do_before in E. cbn [is_Statement] in E.
  rewrite Hs, Hidx in E.
  destruct (build fuel (Statement i d) (Statement i d) st)
    as [[do' st1]| |] eqn:Eb; simpl in E; try discriminate.
  inversion E; subst. clear E.
  destruct (new_statement_build fuel i d st do' st1
              (fun f' _ => build_preserved f') Hd Hi Eb)
    as (d' & -> & Hb1 & Hc1 & Hn1).
  destruct Hcur as (ins & H1 & H2 & H3 & H4 & H5).
  exists d', st1. cbn [insert_before body _counter].
  unfold list_insert_at. rewrite Hb1, Hc1.
  split; [reflexivity|]. split; [reflexivity|]. split; [reflexivity|].
  split; [reflexivity|].
  assert (Hlen : _counter st ≤ length (body st)).
  { rewrite H1, H2, !length_app. simpl. lia. }
  split; [|split; [reflexivity|split]].
  - rewrite take_app_le by (rewrite length_take; lia).
    by rewrite take_take, Nat.min_id.
  - rewrite lookup_app_r; rewrite length_take; [|lia].
    replace (S (_counter st) - _counter st `min` length (body st)) with 1
      by lia.
    simpl. rewrite lookup_drop, Nat.add_0_r, H1, H2.
    rewrite app_assoc, lookup_app_r; rewrite length_app; [|lia].
    by rewrite Nat.sub_diag.
  - exists (ins ++ [Statement i d']).
    cbn [insert_before body _counter next_id]. rewrite Hb1, Hc1.
    rewrite H1, H2, insert_at_current.
    split; [reflexivity|]. split; [rewrite length_app; simpl; lia|].
    split; [|split].
    + rewrite app_assoc. apply Forall_app. split; [exact H3|].
      constructor; [|constructor].
      apply index_None_same_object in Hi. rewrite H1 in Hi.
      rewrite !Forall_app in Hi. destruct Hi as (_ & _ & Hi).
      apply Forall_cons in Hi as [Hi _].
      rewrite same_object_sym. destruct s; try discriminate. exact Hi.
    + unfold ids_below in *. rewrite H1 in H4.
      rewrite !Forall_app in H4. destruct H4 as (Hd' & Hi' & Hr).
      assert (Hw : ∀ l, Forall (fun x => ∀ i, statement_id x = Some i ->
                                  i < next_id st) l ->
                   Forall (fun x => ∀ i, statement_id x = Some i ->
                                  i < next_id st1) l).
      { intros l Hl. eapply Forall_impl; [exact Hl|].
        intros x Hx j Hj. specialize (Hx j Hj). lia. }
      rewrite !Forall_app. repeat split; auto.
      constructor; [|constructor]. intros j Hj. inversion Hj; subst. lia.
    + apply Forall_app. split; [exact H5|]. by constructor.
Qed.

(** The lowering, whatever the tail holds, when it returns. *)
Lemma lowering_when_it_returns (fuel : nat) (params : list Declaration)
    (vt : Symbol) (before : Node) (args : list Node) (st : State)
    (idx k : nat) (args' : list Node) (st' : State) :
  is_Statement before = true ->
  index before (body st) = Some idx ->
  length args = length params + k ->
  ids_below (next_id st) (body st) ->
  forallb statement_free (drop (length params) args) = true ->
  _auto_cast_args (build fuel) EHLIT params true (Some vt) before args st
    = Ok (args', st') ->
  let name := "__gen_fun_" +:+ pretty (S (gen_var_count st)) in
  args' = take (length params) (auto_cast_prefix auto_cast args params) ++
          synthetic_actuals name k ∧
  ∃ e' st3,
    build fuel
      (Statement (next_id st)
         (vargs_declaration vt name (drop (length params) args)))
      (Statement (next_id st)
         (vargs_declaration vt name (drop (length params) args)))
      (mkState (body st) (_counter st) (declarations st)
               (S (gen_var_count st)) (failures st) (S (next_id st)))
      = Ok (Statement (next_id st) e', st3) ∧
    body st' = take idx (body st) ++
               Statement (next_id st) e' :: drop idx (body st) ∧
    _counter st' = S (_counter st) ∧
    gen_var_count st' = gen_var_count st3.
Proof.
  intros Hb Hidx Hlen Hids Hsf E name.
  assert (Hk : length (drop (length params) args) = k).
  { rewrite length_drop. lia. }
  unfold Build._auto_cast_args in E.
  replace (Nat.min (length args) (length params)) with (length params) in E
    by lia.
  rewrite drop_auto_cast_prefix in E.
  unfold generate_var_name, new_Statement in E.
  cbn [next_id body _counter declarations gen_var_count failures] in E.
  fold name in E. unfold Build.FlowScope_do_before in E.
  cbn [is_Statement body] in E. rewrite Hb, Hidx in E.
  match type of E with
  | context [build fuel ?stmt ?stmt ?s2] =>
      destruct (build fuel stmt stmt s2) as [[do' st3]| |] eqn:Ed
  end; cbn [mbind Result_bind] in E; try discriminate.
  inversion E; subst args' st'. clear E.
  assert (Hv : statement_free
                 (vargs_declaration vt name (drop (length params) args))
               = true).
  { simpl. by rewrite andb_true_r, statement_free_all. }
  eapply (new_statement_build _ _ _ _ _ _
            (fun f' _ => build_preserved f') Hv) in Ed;
    [|cbn [body]; by apply index_fresh].
  destruct Ed as (e' & -> & Eb & Ec & En). cbn [body _counter] in Eb, Ec.
  split; [by rewrite Hk|].
  exists e', st3. split; [reflexivity|].
  cbn [insert_before body _counter gen_var_count]. unfold list_insert_at.
  by rewrite Eb, Ec.
Qed.

(** C1.  [_auto_cast_args] for a native (Ehlit) variadic callee with
    [length params] declared parameters, called from under the statement
    [before] of the flow scope with [k] actuals beyond the declared ones.
    Whenever it returns, the actuals are the declared ones (each cast to its
    parameter) followed by the count [k] and by an identifier with a newly
    generated name, [length params + 2] in all, and the body of the flow
    scope has exactly one more statement, right before [before]: the built
    declaration, under that name, of an array of the variadic type with
    length [k], initialised with the tail.  It does return when the tail holds
    no call.  For a C callee the actuals keep their number and order, each
    declared one cast to its parameter, and the scope is not touched. *)
Theorem native_variadic_call_is_lowered (params : list Declaration)
    (vt : Symbol) (before : Node) (args : list Node) (st : State)
    (idx k : nat) :
  is_Statement before = true ->
  index before (body st) = Some idx ->
  length args = length params + k ->
  ids_below (next_id st) (body st) ->
  forallb statement_free (drop (length params) args) = true ->
  let name := "__gen_fun_" +:+ pretty (S (gen_var_count st)) in
  let tail := drop (length params) args in
  let lowered :=
    take (length params) (auto_cast_prefix auto_cast args params) ++
    [Expression [Number (pretty k)] false;
     Expression [Ident (CompoundIdentifier [mkIdentifier 0 name None 0])]
                false] in
  let stmt :=
    Statement (next_id st)
      (VariableDeclaration (Array vt (Some (pretty k)))
         (mkIdentifier 0 name None 0)
         (Some (Assignment (Expression [InitializationList tail] false)))) in
  length lowered = length params + 2 ∧
  (∀ fuel args' st',
     _auto_cast_args (build fuel) EHLIT params true (Some vt) before args st
       = Ok (args', st') ->
     args' = lowered ∧
     ∃ e' st3,
       build fuel stmt stmt
         (mkState (body st) (_counter st) (declarations st)
                  (S (gen_var_count st)) (failures st) (S (next_id st)))
         = Ok (Statement (next_id st) e', st3) ∧
       body st' = take idx (body st) ++
                  Statement (next_id st) e' :: drop idx (body st) ∧
       length (body st') = S (length (body st)) ∧
       _counter st' = S (_counter st)) ∧
  (∀ f0, forallb inert tail = true -> depth_most tail ≤ f0 ->
     ∃ st', _auto_cast_args (build (5 + f0)) EHLIT params true (Some vt)
              before args st = Ok (lowered, st')) ∧
  (∀ fuel is_variadic variadic_type,
     _auto_cast_args (build fuel) C params is_variadic variadic_type before
                     args st =
       Ok (auto_cast_prefix auto_cast args params, st)).
Proof.
  intros Hb Hidx Hlen Hids Hsf name tail lowered stmt.
  assert (Hk : length tail = k).
  { unfold tail. rewrite length_drop. lia. }
  assert (Hlt : idx < length (body st)).
  { clear -Hidx. revert idx Hidx.
    induction (body st) as [|y r IH]; intros idx H; [discriminate|].
    simpl in H. destruct (same_object y before); [inversion H; simpl; lia|].
    destruct (index before r) eqn:E; [|discriminate].
    inversion H; subst. specialize (IH _ eq_refl). simpl. lia. }
  split; [|split; [|split]].
  - unfold lowered.
    rewrite length_app, length_take, length_auto_cast_prefix. simpl. lia.
  - intros fuel args' st' E.
    destruct (lowering_when_it_returns fuel params vt before args st idx k
                args' st' Hb Hidx Hlen Hids Hsf E)
      as (Ha & e' & st3 & Ed & Hbody & Hc & _).
    split; [exact Ha|]. exists e', st3.
    unfold vargs_declaration in Ed. fold tail name in Ed. rewrite Hk in Ed.
    split; [exact Ed|]. split; [exact Hbody|]. split; [|exact Hc].
    rewrite Hbody, length_app. simpl. rewrite length_take, length_drop. lia.
  - intros f0 Hi Hd.
    destruct (lowering_of_a_tail_without_calls f0 params vt before args st
                idx k Hb Hidx Hlen Hi Hd) as (tail' & st' & H1 & _).
    by exists st'.
  - intros fuel is_variadic variadic_type.
    unfold Build._auto_cast_args. by destruct is_variadic.
Qed.

Lemma build_counter_grows (s : Node) (done rest : list Node) (st : State) :
  current s done rest st -> length done ≤ _counter st.
Proof. intros (ins & _ & H & _). lia. Qed.

(** C8.  One turn of the loop of [FlowScope.build], on the statement [s]
    that stands under the counter after the statements [done].  First,
    every request [do_before(do, s)] made while [s] is built, for a new
    statement [do], puts [do], built, at the index of [s], which is the
    counter of that moment: the statements before that index stay as they
    are, the counter goes up by one and points at [s] again.  Second, when
    the build of [s] returns, the body is [done], then the inserted
    statements, then [s], then the statements [rest] still to come, in this
    order, and the counter has only grown; the loop then rebinds [s] and
    steps over it, so that its next turn starts on the first statement of
    [rest]: no inserted statement is built by the loop. *)
Theorem flow_scope_turn_inserts_before_current (turns fuel id : nat)
    (e : Node) (done rest : list Node) (st : State) :
  statement_free e = true ->
  body st = done ++ Statement id e :: rest ->
  _counter st = length done ->
  Forall (fun x => same_object x (Statement id e) = false) done ->
  ids_below (next_id st) (body st) ->
  (∀ i d st_r st_r',
      current (Statement id e) done rest st_r ->
      statement_free d = true ->
      index (Statement i d) (body st_r) = None ->
      i < next_id st_r ->
      FlowScope_do_before (build fuel) (Statement i d) (Statement id e) st_r
        = Ok st_r' ->
      ∃ d',
        index (Statement id e) (body st_r) = Some (_counter st_r) ∧
        length done ≤ _counter st_r ∧
        body st_r' = take (_counter st_r) (body st_r) ++
                     Statement i d' :: drop (_counter st_r) (body st_r) ∧
        take (_counter st_r) (body st_r') =
          take (_counter st_r) (body st_r) ∧
        _counter st_r' = S (_counter st_r) ∧
        body st_r' !! _counter st_r' = Some (Statement id e) ∧
        current (Statement id e) done rest st_r') ∧
  (∀ s' st1,
      build fuel (Statement id e) (Statement id e) st = Ok (s', st1) ->
      ∃ ins st2,
        body st1 = done ++ ins ++ Statement id e :: rest ∧
        _counter st1 = length done + length ins ∧
        _counter st ≤ _counter st1 ∧
        Forall (fun x => is_Statement x = true) ins ∧
        rebind_and_advance s' st1 = Ok st2 ∧
        body st2 = done ++ ins ++ s' :: rest ∧
        _counter st2 = length (done ++ ins ++ [s']) ∧
        _counter st < _counter st2 ∧
        body st2 !! _counter st2 = head rest ∧
        FlowScope_loop (S turns) fuel st = FlowScope_loop turns fuel st2).
Proof.
  intros He Hbody Hc Hdone Hids. split.
  - intros i d st_r st_r' Hcur Hd Hi Hlt E.
    destruct (do_before_at_current fuel (Statement id e) done rest i d
                st_r st_r' eq_refl Hcur Hd Hi Hlt E)
      as (d' & st1 & _ & _ & _ & H1 & H2 & H3 & H4 & H5).
    exists d'. split; [by apply (index_current _ done rest)|].
    split; [by apply (build_counter_grows (Statement id e) done rest)|].
    by repeat split.
  - intros s' st1 E.
    assert (Hcur : current (Statement id e) done rest st).
    { exists []. simpl. rewrite app_nil_r. repeat split; auto. lia. }
    destruct fuel as [|f]; [discriminate|].
    pose proof E as E0. cbn [Build.build] in E.
    destruct (build f (Statement id e) e st) as [[e' s1]| |] eqn:Ee;
      simpl in E; try discriminate.
    inversion E; subst. clear E.
    destruct (build_preserved f (Current done rest) (Statement id e) e st
                e' st1 eq_refl He Hcur Ee)
      as ((ins & H1 & H2 & H3 & H4 & H5) & _ & _).
    assert (Hlt : _counter st1 < length (body st1)).
    { rewrite H1, H2, !length_app. simpl. lia. }
    assert (Hr : rebind_and_advance (Statement id e') st1 =
                 Ok (mkState (<[_counter st1 := Statement id e']> (body st1))
                             (S (_counter st1)) (declarations st1)
                             (gen_var_count st1) (failures st1)
                             (next_id st1))).
    { unfold rebind_and_advance.
      by destruct (Nat.ltb_spec (_counter st1) (length (body st1))); [|lia]. }
    assert (Hb2 : <[_counter st1 := Statement id e']> (body st1) =
                  done ++ ins ++ Statement id e' :: rest).
    { rewrite H1, H2. rewrite app_assoc, <- length_app.
      rewrite insert_app_r_alt by lia. rewrite Nat.sub_diag. simpl.
      by rewrite <- app_assoc. }
    eexists ins, _. split; [exact H1|]. split; [exact H2|].
    split; [lia|]. split; [exact H5|]. split; [exact Hr|].
    cbn [body _counter].
    split; [exact Hb2|].
    split; [rewrite H2, !length_app; simpl; lia|].
    split; [lia|]. split.
    + rewrite Hb2, H2.
      rewrite app_assoc, lookup_app_r; rewrite length_app; [|lia].
      replace (S (length done + length ins) - (length done + length ins))
        with 1 by lia.
      by destruct rest.
    + cbn [Build.FlowScope_loop].
      rewrite Hbody, Hc, lookup_app_r, Nat.sub_diag by lia. simpl.
      rewrite Ee. cbn [mbind Result_bind]. rewrite Hr. reflexivity.
Qed.

End Facts.

(** *** The call [log("x", 1, 2, 3)] of [void log(str fmt, ...int vals)] *)

Lemma native_variadic_call_is_lowered_witness :
  ∃ st',
    _auto_cast_args no_cast no_outer
      (build resolved no_cast no_default plain_repr no_outer 7)
      EHLIT [mkDeclaration "fmt" (Some (BuiltinType "@str")) NONE EHLIT true]
      true (Some int_symbol) log_statement log_args log_scope =
    Ok ([Expression [String_ "x"] false; number "3";
         Expression
           [Ident (CompoundIdentifier
                     [mkIdentifier 0 "__gen_fun_1" None 0])] false], st') ∧
    length (body st') = 3 ∧ _counter st' = 1.
Proof.
  destruct (native_variadic_call_is_lowered resolved no_cast no_default
              plain_repr no_outer
              (fun n t H => H) ltac:(intros d e H; discriminate H)
              [mkDeclaration "fmt" (Some (BuiltinType "@str")) NONE EHLIT true]
              int_symbol log_statement log_args log_scope 0 3
              eq_refl eq_refl eq_refl
              ltac:(unfold ids_below; simpl;
                    repeat (apply Forall_cons_2;
                            [intros i H; inversion H; lia|]);
                    apply Forall_nil_2)
              eq_refl)
    as (_ & Hret & Hdoes & _).
  destruct (Hdoes 2 eq_refl (le_n 2)) as (st' & E).
  destruct (Hret 7 _ st' E) as (_ & e' & st3 & _ & _ & H3 & H4).
  exists st'. split; [exact E|]. split; [exact H3|exact H4].
Defined.

(** The cast [int(1)]. *)
Lemma call_on_a_type_becomes_a_cast_witness :
  build resolved no_cast no_default plain_repr no_outer 4 log_statement
        (FunctionCall 9 int_symbol [number "1"]) log_scope =
  Ok (Cast 9 int_symbol [number "1"], log_scope).
Proof.
  destruct (call_on_a_type_becomes_a_cast resolved no_cast no_default
              plain_repr no_outer 3 log_statement 9 int_symbol int_symbol []
              (BuiltinType "@int") [number "1"] log_scope
              eq_refl eq_refl eq_refl) as (H1 & _).
  rewrite H1. reflexivity.
Defined.

(** The first turn of the loop on the body of the function. *)
Lemma flow_scope_turn_inserts_before_current_witness :
  ∃ ins st2,
    FlowScope_loop resolved no_cast no_default plain_repr no_outer 3 12
                   log_scope =
    FlowScope_loop resolved no_cast no_default plain_repr no_outer 2 12 st2 ∧
    length ins = 1 ∧
    (∃ s', body st2 = ins ++ s' :: [Statement 1 (number "7")]) ∧
    _counter st2 = 2.
Proof.
  assert (Hb : ∃ s' st1,
             build resolved no_cast no_default plain_repr no_outer 12
                   log_statement log_statement log_scope = Ok (s', st1))
    by (do 2 eexists; vm_compute; reflexivity).
  destruct Hb as (s' & st1 & E).
  destruct (flow_scope_turn_inserts_before_current resolved no_cast
              no_default plain_repr no_outer
              (fun n t H => H) ltac:(intros d e H; discriminate H)
              2 12 0 (Expression [FunctionCall 5 log_symbol log_args] false)
              [] [Statement 1 (number "7")] log_scope
              eq_refl eq_refl eq_refl (Forall_nil_2 _)
              ltac:(unfold ids_below; simpl;
                    repeat (apply Forall_cons_2;
                            [intros i H; inversion H; lia|]);
                    apply Forall_nil_2))
    as (_ & Hturn).
  destruct (Hturn s' st1 E) as (ins & st2 & H1 & H2 & _ & _ & _ & H6 & H7 & _ & _ & H10).
  exists ins, st2. split; [exact H10|].
  assert (Hl : length ins = 1).
  { assert (H3 : length (body st1) = 3).
    { clear -E. vm_compute in E. injection E as _ <-. reflexivity. }
    rewrite H1, !length_app in H3. cbn [length] in H3. lia. }
  split; [exact Hl|]. split; [by exists s'|].
  rewrite H7, !length_app, Hl. reflexivity.
Defined.
End BuildFacts.

(** ** Imports and includes *)
Module InclusionFacts.
Import Inclusion.

Lemma read_append (loc : nat) (x : string) (g : Globals) :
  read (append loc x g) loc = read g loc ++ [x].
Proof. unfold read, append. simpl. by rewrite lookup_insert_eq. Qed.

Lemma recorded_after_log (x : string) (g : Globals) (loc : nat) :
  x ∈ read (log_parse x (append loc x g)) loc.
Proof.
  unfold read, log_parse, append. simpl. rewrite lookup_insert_eq. simpl.
  apply elem_of_app. right. by constructor.
Qed.

Lemma read_reset (g : Globals) :
  read (build_ast_reset g) (imported (build_ast_reset g)) = [] ∧
  read (build_ast_reset g) (included (build_ast_reset g)) = [] ∧
  imported (build_ast_reset g) = included (build_ast_reset g) ∧
  heap g !! imported (build_ast_reset g) = None.
Proof.
  unfold read, build_ast_reset. cbn [imported included heap].
  rewrite lookup_insert_eq. repeat split.
  apply (not_elem_of_dom (D := gset nat)). unfold fresh_loc. apply is_fresh.
Qed.

Lemma one_shared_list_reset (g : Globals) : one_shared_list (build_ast_reset g).
Proof.
  destruct (read_reset g) as (H1 & H2 & H3 & _).
  unfold one_shared_list. rewrite H1.
  split; [exact H3|]. split; [apply NoDup_nil_2|].
  cbn [build_ast_reset parsed]. split; [apply NoDup_nil_2|].
  intros x Hx. by apply elem_of_nil in Hx.
Qed.

Lemma one_shared_list_append (x : string) (g : Globals) :
  one_shared_list g -> x ∉ read g (imported g) ->
  one_shared_list (append (imported g) x g).
Proof.
  intros (H1 & H2 & H3 & H4) Hx. unfold one_shared_list.
  cbn [append imported included parsed].
  change (read (mkGlobals _ _ _ _) (imported g))
    with (read (append (imported g) x g) (imported g)).
  rewrite read_append. repeat split; auto.
  - apply NoDup_app. repeat split; auto.
    + intros y Hy Hy'. apply list_elem_of_singleton in Hy'. by subst.
    + apply NoDup_singleton.
  - intros y Hy. apply elem_of_app. left. by apply H4.
Qed.

Lemma one_shared_list_log (x : string) (g : Globals) :
  one_shared_list g -> x ∉ read g (imported g) ->
  one_shared_list (log_parse x (append (imported g) x g)).
Proof.
  intros Hg Hx. pose proof (one_shared_list_append x g Hg Hx) as Ha.
  destruct Hg as (H1 & H2 & H3 & H4).
  destruct Ha as (A1 & A2 & A3 & A4).
  unfold one_shared_list, log_parse. cbn [imported included parsed] in *.
  change (read (mkGlobals ?h ?i ?c _) ?l)
    with (read (append (imported g) x g) l) in *.
  repeat split; auto.
  - apply NoDup_app. repeat split; auto.
    + intros y Hy Hy'. apply list_elem_of_singleton in Hy'. subst.
      apply Hx. by apply H4.
    + apply NoDup_singleton.
  - intros y Hy. apply elem_of_app in Hy as [Hy|Hy].
    + by apply A4.
    + apply list_elem_of_singleton in Hy. subst.
      rewrite read_append. apply elem_of_app. right. by constructor.
Qed.

Lemma same_names_trans (a b c : Globals) :
  same_names a b -> same_names b c -> same_names a c.
Proof. intros [? ?] [? ?]. split; congruence. Qed.

Section Parse.
Context {N : Type}.
Variable isdir isfile : string -> bool.
Variable listdir : string -> list string.
Variable join : string -> string -> string.
Variable abspath : string -> string.
Variable source_parse : string -> list N + list Diagnostics.Failure.
Variable c_header_parse : string -> list N + list Diagnostics.Failure.

Local Abbreviation import_dir :=
  (Inclusion.import_dir isdir isfile listdir join source_parse).
Local Abbreviation Import_parse :=
  (Inclusion.Import_parse isdir isfile listdir join abspath source_parse).
Local Abbreviation Include_parse :=
  (Inclusion.Include_parse c_header_parse).
Local Abbreviation serve :=
  (Inclusion.serve isdir isfile listdir join abspath source_parse
                   c_header_parse).
Local Abbreviation build_ast_globals :=
  (Inclusion.build_ast_globals isdir isfile listdir join abspath
                               source_parse c_header_parse).

Lemma import_dir_keeps (fuel : nat) :
  ∀ dir g, one_shared_list g ->
    one_shared_list (import_dir fuel dir g).2 ∧
    same_names g (import_dir fuel dir g).2.
Proof.
  induction fuel as [|f IH]; intros dir g Hg; [simpl; split; [assumption|by split]|].
  cbn [Inclusion.import_dir].
  generalize (@nil N) as res. revert g Hg.
  induction (listdir dir) as [|sub r IHr]; intros g Hg res;
    [simpl; split; [assumption|by split]|].
  unfold mem. case_bool_decide as Hin; [by apply IHr|].
  pose proof (one_shared_list_append _ _ Hg Hin) as Hg1.
  assert (Hn1 : same_names g (append (imported g) (join dir sub) g))
    by (by split).
  destruct (isdir (join dir sub)).
  - destruct (IH (join dir sub) _ Hg1) as (Hg2 & Hn2).
    destruct (import_dir f (join dir sub) _) as [[ns| |] g2]; simpl in *.
    + destruct (IHr g2 Hg2 (res ++ ns)) as (H3 & H4).
      split; [exact H3|].
      eapply same_names_trans; [|exact H4].
      eapply same_names_trans; [exact Hn1|exact Hn2].
    + split; [exact Hg2|]. by eapply same_names_trans.
    + split; [exact Hg2|]. by eapply same_names_trans.
  - destruct (isfile (join dir sub)).
    + pose proof (one_shared_list_log _ _ Hg Hin) as Hg2.
      destruct (source_parse (join dir sub)) as [ns|fs]; simpl.
      * destruct (IHr _ Hg2 (res ++ ns)) as (H3 & H4).
        split; [exact H3|]. eapply same_names_trans; [|exact H4]. by split.
      * split; [exact Hg2|]. by split.
    + destruct (IHr _ Hg1 res) as (H3 & H4).
      split; [exact H3|]. by eapply same_names_trans.
Qed.

Lemma Import_parse_keeps (fuel : nat) (import_paths : list string)
    (lib : string) (g : Globals) :
  one_shared_list g ->
  one_shared_list (Import_parse fuel import_paths lib g).1.2 ∧
  same_names g (Import_parse fuel import_paths lib g).1.2.
Proof.
  intros Hg. induction import_paths as [|p rest IH]; [simpl; split; [assumption|by split]|].
  cbn [Inclusion.Import_parse].
  destruct (isdir (abspath (join p lib))).
  - unfold mem. case_bool_decide as Hin; [simpl; split; [assumption|by split]|].
    pose proof (one_shared_list_append _ _ Hg Hin) as Hg1.
    destruct (import_dir_keeps fuel (abspath (join p lib)) _ Hg1)
      as (H1 & H2).
    destruct (import_dir fuel _ _) as [o g2]. simpl in *.
    split; [exact H1|]. eapply same_names_trans; [|exact H2]. by split.
  - destruct (isfile (abspath (join p lib) +:+ ".eh")); [|exact IH].
    unfold mem. case_bool_decide as Hin; [simpl; split; [assumption|by split]|].
    pose proof (one_shared_list_log _ _ Hg Hin) as Hg1.
    destruct (source_parse _); simpl; (split; [exact Hg1|by split]).
Qed.

Lemma Include_parse_keeps (lib : string) (g : Globals) :
  one_shared_list g ->
  one_shared_list (Include_parse lib g).2 ∧
  same_names g (Include_parse lib g).2.
Proof.
  intros Hg. unfold Inclusion.Include_parse.
  unfold mem. case_bool_decide as Hin; [simpl; split; [assumption|by split]|].
  destruct Hg as (H1 & Hrest). rewrite <- H1 in *.
  pose proof (one_shared_list_log lib g (conj H1 Hrest) Hin) as Hg1.
  destruct (c_header_parse lib); simpl; (split; [exact Hg1|by split]).
Qed.

Lemma serve_keeps (fuel : nat) (r : Request) (g : Globals) :
  one_shared_list g ->
  one_shared_list (serve fuel r g) ∧ same_names g (serve fuel r g).
Proof.
  intros Hg. destruct r as [ps lib|lib]; simpl.
  - by apply Import_parse_keeps.
  - by apply Include_parse_keeps.
Qed.

Lemma build_ast_globals_keeps (fuel : nat) (rs : list Request) (g : Globals) :
  one_shared_list (build_ast_globals fuel rs g) ∧
  same_names (build_ast_reset g) (build_ast_globals fuel rs g).
Proof.
  unfold Inclusion.build_ast_globals.
  pose proof (one_shared_list_reset g) as H0.
  assert (Hn0 : same_names (build_ast_reset g) (build_ast_reset g))
    by (by split).
  revert H0 Hn0. generalize (build_ast_reset g) at 1 3 4 6 as g1.
  induction rs as [|r rs IH]; intros g1 H1 Hn1; [by split|].
  simpl. destruct (serve_keeps fuel r g1 H1) as (H2 & Hn2).
  apply IH; [exact H2|]. by eapply same_names_trans.
Qed.
Lemma Include_parse_skips (lib : string) (g : Globals) :
  lib ∈ read g (included g) -> Include_parse lib g = (Nodes [], g).
Proof.
  intros H. unfold Inclusion.Include_parse, mem.
  by rewrite bool_decide_eq_true_2.
Qed.

Lemma Import_parse_skips_dir (fuel : nat) (p : string) (rest : list string)
    (lib : string) (g : Globals) :
  isdir (abspath (join p lib)) = true ->
  abspath (join p lib) ∈ read g (imported g) ->
  Import_parse fuel (p :: rest) lib g = (Nodes [], g, false).
Proof.
  intros Hd H. cbn [Inclusion.Import_parse]. rewrite Hd. unfold mem.
  by rewrite bool_decide_eq_true_2.
Qed.

Lemma Import_parse_skips_file (fuel : nat) (p : string) (rest : list string)
    (lib : string) (g : Globals) :
  isdir (abspath (join p lib)) = false ->
  isfile (abspath (join p lib) +:+ ".eh") = true ->
  abspath (join p lib) +:+ ".eh" ∈ read g (imported g) ->
  Import_parse fuel (p :: rest) lib g = (Nodes [], g, false).
Proof.
  intros Hd Hf H. cbn [Inclusion.Import_parse]. rewrite Hd, Hf. unfold mem.
  by rewrite bool_decide_eq_true_2.
Qed.

(** C9.  [build_ast] starts by binding [imported] and [included] to an
    empty list.  Whatever imports and includes are then built, and in
    whatever order, no path stands twice in [imported] or in [included], and
    no path is handed twice to [source.parse] or [c_header.parse]; every
    parsed path is recorded.  An include whose header is recorded, and an
    import whose directory or [.eh] file is recorded, return no node and
    leave the lists and the trace of parsed files as they are. *)
Theorem each_file_recorded_and_parsed_once (fuel : nat) (rs : list Request)
    (g : Globals) :
  let g0 := build_ast_reset g in
  let g' := build_ast_globals fuel rs g in
  read g0 (imported g0) = [] ∧
  read g0 (included g0) = [] ∧
  NoDup (read g' (imported g')) ∧
  NoDup (read g' (included g')) ∧
  NoDup (parsed g') ∧
  parsed g' ⊆ read g' (imported g') ∧
  (∀ lib, lib ∈ read g' (included g') ->
     Include_parse lib g' = (Nodes [], g')) ∧
  (∀ p rest lib,
     isdir (abspath (join p lib)) = true ->
     abspath (join p lib) ∈ read g' (imported g') ->
     Import_parse fuel (p :: rest) lib g' = (Nodes [], g', false)) ∧
  (∀ p rest lib,
     isdir (abspath (join p lib)) = false ->
     isfile (abspath (join p lib) +:+ ".eh") = true ->
     abspath (join p lib) +:+ ".eh" ∈ read g' (imported g') ->
     Import_parse fuel (p :: rest) lib g' = (Nodes [], g', false)).
Proof.
  intros g0 g'.
  destruct (read_reset g) as (R1 & R2 & _ & _).
  destruct (build_ast_globals_keeps fuel rs g)
    as ((H1 & H2 & H3 & H4) & _).
  fold g' in H1, H2, H3, H4.
  split; [exact R1|]. split; [exact R2|]. split; [exact H2|].
  split; [by rewrite <- H1|]. split; [exact H3|]. split; [exact H4|].
  split; [intros lib Hl; by apply Include_parse_skips|].
  split; [intros p rest lib Hd Hl; by apply Import_parse_skips_dir|].
  intros p rest lib Hd Hf Hl. by apply Import_parse_skips_file.
Qed.

(** C10.  After the reset of [build_ast] the names [imported] and
    [included] are bound to one and the same list for the rest of the
    build: what one holds the other holds, a path appended through one name
    is read through the other, and so an include whose header string is a
    path recorded by an import is skipped, without parsing and without
    nodes.  When the module is loaded the two names are bound to two
    lists. *)
Theorem imported_and_included_share_one_list (fuel : nat)
    (rs : list Request) (g : Globals) :
  let g' := build_ast_globals fuel rs g in
  imported g' = included g' ∧
  read g' (imported g') = read g' (included g') ∧
  (∀ x, read (append (imported g') x g') (included g') =
        read g' (included g') ++ [x]) ∧
  (∀ x, read (append (included g') x g') (imported g') =
        read g' (imported g') ++ [x]) ∧
  (∀ lib, lib ∈ read g' (imported g') ->
     Include_parse lib g' = (Nodes [], g') ∧
     parsed (Include_parse lib g').2 = parsed g') ∧
  (∀ p rest lib,
     isdir (abspath (join p lib)) = false ->
     isfile (abspath (join p lib) +:+ ".eh") = true ->
     abspath (join p lib) +:+ ".eh" ∉ read g' (imported g') ->
     let g2 := (Import_parse fuel (p :: rest) lib g').1.2 in
     abspath (join p lib) +:+ ".eh" ∈ read g2 (included g2) ∧
     Include_parse (abspath (join p lib) +:+ ".eh") g2 = (Nodes [], g2)) ∧
  imported module_load ≠ included module_load ∧
  (∀ x, read (append (imported module_load) x module_load)
             (included module_load) = []).
Proof.
  intros g'.
  destruct (build_ast_globals_keeps fuel rs g)
    as ((H1 & H2 & H3 & H4) & _).
  fold g' in H1, H2, H3, H4.
  split; [exact H1|]. split; [by rewrite H1|].
  split; [intros x; rewrite <- H1; apply read_append|].
  split; [intros x; rewrite H1; apply read_append|].
  split.
  { intros lib Hl. rewrite H1 in Hl.
    rewrite (Include_parse_skips lib g' Hl). by split. }
  split.
  { intros p rest lib Hd Hf Hn g2.
    assert (Hg2 : g2 = log_parse (abspath (join p lib) +:+ ".eh")
                        (append (imported g')
                                (abspath (join p lib) +:+ ".eh") g')).
    { unfold g2. cbn [Inclusion.Import_parse]. rewrite Hd, Hf. unfold mem.
      rewrite bool_decide_eq_false_2 by exact Hn.
      by destruct (source_parse _). }
    assert (Hin : abspath (join p lib) +:+ ".eh" ∈ read g2 (included g2)).
    { rewrite Hg2. cbn [log_parse included append]. rewrite <- H1.
      apply (recorded_after_log _ g' (imported g')). }
    split; [exact Hin|]. by apply Include_parse_skips. }
  split; [discriminate|]. intros x. reflexivity.
Qed.

End Parse.

(** *** A build that imports [m] twice and includes a header *)

Lemma each_file_recorded_and_parsed_once_witness :
  NoDup (parsed after_build) ∧
  NoDup (read after_build (imported after_build)) ∧
  Import_parse no_dir only_m no_entry slash as_is empty_file 3 ["/src"] "m"
               after_build = (Nodes [], after_build, false).
Proof.
  destruct (each_file_recorded_and_parsed_once no_dir only_m no_entry slash
              as_is empty_file empty_file 3 two_imports_one_include
              module_load)
    as (_ & _ & H3 & _ & H5 & _ & _ & _ & H9).
  split; [exact H5|]. split; [exact H3|].
  apply H9; [reflexivity|reflexivity|].
  vm_compute. apply list_elem_of_In. simpl. auto.
Defined.

Lemma imported_and_included_share_one_list_witness :
  imported after_build = included after_build ∧
  Include_parse empty_file "/src/m.eh" after_build = (Nodes [], after_build) ∧
  parsed after_build = ["/src/m.eh"; "stdio.h"].
Proof.
  destruct (imported_and_included_share_one_list no_dir only_m no_entry slash
              as_is empty_file empty_file 3 two_imports_one_include
              module_load)
    as (H1 & _ & _ & _ & H5 & _).
  split; [exact H1|]. split; [|by vm_compute].
  apply H5. vm_compute. apply list_elem_of_In. simpl. auto.
Defined.

End InclusionFacts.

(** ** Building a node again *)
Module RebuildFacts.
Import Ast Rebuild.

(** C6 fails as stated: the declaration [x], already built, is built a
    second time under the same scope; its [built] flag was set, and yet the
    scope now holds it twice. *)
Lemma second_build_of_a_declaration_is_not_a_no_op :
  ¬ (∀ (d : DeclarationNode) (sc : Scope),
       built (dn_base d) = true -> Declaration_build d sc = (d, sc)).
Proof.
  intros H. specialize (H x_built.1 x_built.2 eq_refl). discriminate H.
Qed.

Lemma ReferenceToValue_build_compound (elems : list Identifier) (e : Identifier) :
  last elems = Some e ->
  ∃ s', ReferenceToValue_build (CompoundIdentifier elems) = Some s' ∧
        get_ref_offset s' = Some (i_ref_offset e - 1)%Z.
Proof.
  intros Hl. unfold ReferenceToValue_build. simpl. rewrite Hl. simpl.
  rewrite <- head_reverse in Hl.
  destruct (reverse elems) as [|x r] eqn:Er; [discriminate|].
  simpl in Hl. inversion Hl; subst. eexists. split; [reflexivity|].
  simpl. by rewrite reverse_cons, last_snoc.
Qed.

(** C6, as the code has it.  A structure or union that is built stays as it
    is when it is built again, and so does its scope; a node whose build is
    [Node.build] alone is unchanged when built again under the same parent.
    The other classes run their build again: every build of a declaration
    appends it to the declarations of its scope, and every build of a
    [ReferenceToValue] lowers the reference offset of its child by one. *)
Theorem rebuild_is_a_no_op_for_structures_only :
  (∀ (s : StructNode) (sc : Scope),
     built (sn_base s) = true -> ContainerStructure_build s sc = (s, sc)) ∧
  (∀ (p : nat) (n : NodeBase),
     built n = true -> parent n = Some p -> Node_build p n = n) ∧
  (∀ (d : DeclarationNode) (sc : Scope),
     declarations (Declaration_build d sc).2 = declarations sc ++ [dn_name d] ∧
     built (dn_base (Declaration_build d sc).1) = true) ∧
  (∀ (elems : list Identifier) (e : Identifier),
     last elems = Some e ->
     ∃ s' s'',
       ReferenceToValue_build (CompoundIdentifier elems) = Some s' ∧
       get_ref_offset s' = Some (i_ref_offset e - 1)%Z ∧
       ReferenceToValue_build s' = Some s'' ∧
       get_ref_offset s'' = Some (i_ref_offset e - 2)%Z).
Proof.
  split; [|split; [|split]].
  - intros s sc H. unfold ContainerStructure_build. by rewrite H.
  - intros p [par b] Hb Hp. simpl in *. by subst.
  - intros d sc. by split.
  - intros elems e Hl.
    destruct (ReferenceToValue_build_compound elems e Hl) as (s' & E1 & G1).
    assert (Hs' : ∃ elems' e', s' = CompoundIdentifier elems' ∧
                    last elems' = Some e' ∧
                    i_ref_offset e' = (i_ref_offset e - 1)%Z).
    { unfold ReferenceToValue_build in E1. simpl in E1. rewrite Hl in E1.
      simpl in E1. destruct (reverse elems) as [|x r]; [discriminate|].
      inversion E1; subst. eexists _, _. split; [reflexivity|].
      by rewrite reverse_cons, last_snoc. }
    destruct Hs' as (elems' & e' & -> & Hl' & Hr').
    destruct (ReferenceToValue_build_compound elems' e' Hl')
      as (s'' & E2 & G2).
    exists (CompoundIdentifier elems'), s''.
    repeat split; auto. rewrite G2, Hr'. f_equal. lia.
Qed.

(** A built structure [point] is built again under the scope 7. *)
Lemma rebuild_is_a_no_op_for_structures_only_witness :
  ContainerStructure_build
    (mkStructNode (mkNodeBase (Some 7) true) 3 "point"
                  (Some [mkDeclarationNode (mkNodeBase (Some 3) true) "x"])
                  ["x"])
    (mkScope 7 ["point"]) =
  (mkStructNode (mkNodeBase (Some 7) true) 3 "point"
                (Some [mkDeclarationNode (mkNodeBase (Some 3) true) "x"])
                ["x"],
   mkScope 7 ["point"]) ∧
  declarations (Declaration_build x_built.1 x_built.2).2 = ["x"; "x"].
Proof.
  destruct rebuild_is_a_no_op_for_structures_only as (Hs & _ & Hd & _).
  split; [by apply Hs|]. exact (proj1 (Hd x_built.1 x_built.2)).
Defined.

End RebuildFacts.

(** ** Aggregates and syntax errors *)
Module ErrorFacts.
Import Diagnostics Parse.

(** The greatest severity level of a list of failures, from [start]. *)
Lemma max_level_foldl (p : Parser) (fs : list Failure) (acc : ParseError) :
  max_level (foldl (ParseError_step p) acc fs) =
  foldl (fun m f => Z.max m (severity_level (severity f))) (max_level acc) fs.
Proof.
  revert acc. induction fs as [|f fs IH]; intros acc; [reflexivity|].
  cbn [foldl]. rewrite IH. f_equal. cbn [ParseError_step max_level].
  destruct (Z.ltb_spec (max_level acc) (severity_level (severity f))); lia.
Qed.

Lemma errors_foldl (p : Parser) (fs : list Failure) (acc : ParseError) :
  errors (foldl (ParseError_step p) acc fs) =
  errors acc + length (filter (fun f => is_Warning (severity f) = false) fs).
Proof.
  revert acc. induction fs as [|f fs IH]; intros acc; [simpl; lia|].
  cbn [foldl]. rewrite IH, filter_cons. cbn [ParseError_step errors].
  destruct (is_Warning (severity f)); destruct (decide _); try congruence;
    simpl; lia.
Qed.

Lemma max_foldl_bounds (fs : list Failure) (m : Z) :
  let r := foldl (fun m f => Z.max m (severity_level (severity f))) m fs in
  (m ≤ r)%Z ∧
  Forall (fun f => (severity_level (severity f) ≤ r)%Z) fs ∧
  (r = m ∨ ∃ f, f ∈ fs ∧ r = severity_level (severity f)).
Proof.
  revert m. induction fs as [|f fs IH]; intros m; cbn [foldl].
  - split; [lia|]. split; [constructor|by left].
  - destruct (IH (Z.max m (severity_level (severity f)))) as (H1 & H2 & H3).
    split; [lia|]. split.
    + constructor; [lia|exact H2].
    + destruct H3 as [H3|(g & Hg & H3)].
      * destruct (Z.max_spec m (severity_level (severity f))) as [[_ E]|[_ E]].
        -- right. exists f. split; [left|lia].
        -- left. lia.
      * right. exists g. split; [by right|exact H3].
Qed.

(** X1.  [ParseError.__init__] with a parser: [max_level] is the greatest
    severity among the failures and -1 when there is none; it reaches the
    level of [Error] exactly when [errors] is not 0, and it is the level of
    [Warning] exactly when there are failures and all of them are
    warnings. *)
Theorem max_level_is_the_worst_severity (p : Parser) (fs : list Failure) :
  let e := ParseError_init fs (Some p) in
  Forall (fun f => (severity_level (severity f) ≤ max_level e)%Z) fs ∧
  (max_level e = (-1)%Z ↔ fs = []) ∧
  (fs ≠ [] -> ∃ f, f ∈ fs ∧ max_level e = severity_level (severity f)) ∧
  ((2 ≤ max_level e)%Z ↔ 1 ≤ errors e) ∧
  (max_level e = 1%Z ↔ fs ≠ [] ∧ errors e = 0).
Proof.
  intros e.
  assert (Hm : max_level e =
               foldl (fun m f => Z.max m (severity_level (severity f))) (-1)%Z fs)
    by apply max_level_foldl.
  assert (He : errors e =
               length (filter (fun f => is_Warning (severity f) = false) fs))
    by apply errors_foldl.
  destruct (max_foldl_bounds fs (-1)%Z) as (H1 & H2 & H3).
  cbn zeta in H1, H2, H3. rewrite <- Hm in H1, H2, H3.
  assert (Hpos : ∀ f : Failure, (1 ≤ severity_level (severity f) ≤ 3)%Z)
    by (intros f; destruct (severity f); simpl; lia).
  assert (Hne : fs ≠ [] -> ∃ f, f ∈ fs ∧ max_level e = severity_level (severity f)).
  { intros Hfs. destruct H3 as [H3|H3]; [|exact H3].
    destruct fs as [|f fs']; [done|].
    apply Forall_cons in H2 as [H2 _]. specialize (Hpos f). lia. }
  assert (Herr : (2 ≤ max_level e)%Z ↔ 1 ≤ errors e).
  { rewrite He. split.
    - intros Hge. destruct H3 as [H3|(f & Hf & H3)]; [lia|].
      assert (Hin : f ∈ filter (fun f => is_Warning (severity f) = false) fs).
      { apply list_elem_of_filter. split; [|exact Hf].
        destruct (severity f); simpl in *; [lia|done|done]. }
      destruct (filter _ fs); [by apply elem_of_nil in Hin|simpl; lia].
    - intros Hge.
      destruct (filter (fun f => is_Warning (severity f) = false) fs)
        as [|f r] eqn:E; [simpl in Hge; lia|].
      assert (Hin : f ∈ filter (fun f => is_Warning (severity f) = false) fs)
        by (rewrite E; left).
      apply list_elem_of_filter in Hin as [Hw Hin].
      rewrite Forall_forall in H2. specialize (H2 f Hin).
      destruct (severity f); simpl in *; [done|lia|lia]. }
  split; [exact H2|]. split.
  { split.
    - intros E. destruct fs as [|f fs']; [done|].
      apply Forall_cons in H2 as [H2 _]. specialize (Hpos f). lia.
    - intros ->. reflexivity. }
  split; [exact Hne|]. split; [exact Herr|].
  split.
  - intros E. split; [intros ->; discriminate E|].
    destruct (errors e) eqn:Ee; [done|]. lia.
  - intros [Hfs E0]. destruct (Hne Hfs) as (f & _ & Hf).
    specialize (Hpos f). lia.
Qed.

(** X2.  [ParseError.__init__] without a parser counts nothing and locates
    nothing, whatever the failures are; [__str__] then fails on its
    assertion as soon as one failure has no line and column or no file. *)
Theorem parse_error_without_parser_counts_nothing (fs : list Failure) :
  let e := ParseError_init fs None in
  failures e = fs ∧ errors e = 0 ∧ warnings e = 0 ∧ max_level e = (-1)%Z ∧
  (ParseError_str e = None ↔
   ∃ f, f ∈ fs ∧ (linecol f = None ∨ file f = None)).
Proof.
  intros e. repeat split; try reflexivity.
  - unfold ParseError_str. cbn [e ParseError_init failures].
    destruct (mapM Failure_str fs) as [strs|] eqn:E; [discriminate|].
    intros _. apply mapM_None in E. apply Exists_exists in E as (f & Hf & E).
    exists f. split; [exact Hf|]. unfold Failure_str in E.
    destruct (linecol f) as [[l c]|]; [|by left].
    destruct (file f); [discriminate|by right].
  - intros (f & Hf & E). unfold ParseError_str.
    cbn [e ParseError_init failures].
    assert (H : mapM Failure_str fs = None).
    { apply mapM_None, Exists_exists. exists f. split; [exact Hf|].
      unfold Failure_str. destruct E as [-> | ->]; [reflexivity|].
      by destruct (linecol f) as [[l c]|]. }
    by rewrite H.
Qed.

Lemma expect_foldl (rs : list Rule) (acc : list string) :
  NoDup acc ->
  ∃ rest, foldl expect acc rs = acc ++ rest ∧
          NoDup (acc ++ rest) ∧
          rest `sublist_of` (rule_text <$> rs) ∧
          (∀ s, s ∈ rest -> s ∈ rule_text <$> rs) ∧
          (∀ s, s ∈ rule_text <$> rs -> s ∈ acc ++ rest).
Proof.
  revert acc. induction rs as [|r rs IH]; intros acc Hacc; cbn [foldl].
  - exists []. rewrite app_nil_r. split; [done|]. split; [done|].
    split; [constructor|]. split; intros s Hs; by apply elem_of_nil in Hs.
  - unfold expect at 2. case_bool_decide as Hin.
    + destruct (IH acc Hacc) as (rest & E & Hnd & Hsub & Hel & Hall).
      exists rest. split; [exact E|]. split; [exact Hnd|].
      split; [rewrite fmap_cons; by apply sublist_cons|].
      split.
      * intros s Hs. rewrite fmap_cons. right. by apply Hel.
      * intros s Hs. rewrite fmap_cons in Hs.
        apply elem_of_cons in Hs as [->|Hs]; [|by apply Hall].
        apply elem_of_app. by left.
    + assert (Hacc' : NoDup (acc ++ [rule_text r])).
      { apply NoDup_app. split; [exact Hacc|]. split; [|apply NoDup_singleton].
        intros x Hx Hx'. apply list_elem_of_singleton in Hx'. by subst. }
      destruct (IH _ Hacc') as (rest & E & Hnd & Hsub & Hel & Hall).
      exists (rule_text r :: rest). rewrite E, <- app_assoc. cbn [app].
      split; [done|]. split; [by rewrite <- app_assoc in Hnd|].
      split; [rewrite fmap_cons; by apply sublist_skip|].
      split.
      * intros s Hs. rewrite fmap_cons.
        apply elem_of_cons in Hs as [->|Hs]; [left|right; by apply Hel].
      * intros s Hs. rewrite fmap_cons in Hs.
        apply elem_of_cons in Hs as [->|Hs].
        -- apply elem_of_app. right. left.
        -- specialize (Hall s Hs). by rewrite <- app_assoc in Hall.
Qed.

(** X3.  [handle_parse_error] raises an aggregate with exactly one failure, a
    fatal one at the position of the syntax error, counted as one error.  Its
    message lists the text of every expected rule exactly once, in the order
    in which the rules first occur. *)
Theorem syntax_error_lists_each_expected_rule_once (err : NoMatch)
    (p : Parser) :
  let exp := foldl expect [] (rules err) in
  let e := handle_parse_error err p in
  NoDup exp ∧
  (∀ s, s ∈ exp ↔ s ∈ rule_text <$> rules err) ∧
  exp `sublist_of` (rule_text <$> rules err) ∧
  head exp = head (rule_text <$> rules err) ∧
  failures e =
    [mkFailure Fatal (position err) ("expected " +:+ join " or " exp)
               (Some (file_name p))
               (Some (pos_to_linecol p (position err)))] ∧
  errors e = 1 ∧ warnings e = 0 ∧ max_level e = 3%Z.
Proof.
  intros exp e.
  destruct (expect_foldl (rules err) [] (NoDup_nil_2))
    as (rest & E & Hnd & Hsub & Hel & Hall).
  cbn [app] in E, Hnd, Hall. fold exp in E.
  split; [by rewrite E|].
  split; [rewrite E; split; [apply Hel|apply Hall]|].
  split; [by rewrite E|]. split; [|repeat split; reflexivity].
  unfold exp. destruct (rules err) as [|r rs]; [reflexivity|].
  cbn [foldl fmap list_fmap head]. unfold expect at 2.
  rewrite bool_decide_eq_false_2 by apply not_elem_of_nil. cbn [app].
  destruct (expect_foldl rs [rule_text r]) as (rest' & E' & _);
    [apply NoDup_singleton|].
  by rewrite E'.
Qed.
End ErrorFacts.

(** ** Lexical scoping *)
Module ScopingFacts.
Import Ast Lookup Scoping.

Lemma first_answer_find (ds : list DeclarationBase) (sym : string) :
  first_answer DeclarationBase_get_declaration ds sym =
  (find (named sym) ds, None).
Proof.
  induction ds as [|d ds IH]; [reflexivity|].
  cbn [first_answer find]. unfold DeclarationBase_get_declaration, named at 1.
  destruct (String.eqb (DeclarationBase_name d) sym); [reflexivity|exact IH].
Qed.

(** X4.  [Scope.find_declaration] answers with the first declaration of the
    scope that has the name, never with an error of its own, and does not ask
    the parent then; when no declaration of the scope has the name, the
    answer is the parent's. *)
Theorem scope_lookup_finds_the_first_declaration
    (ds : list DeclarationBase) (parent : option DeclarationLookup)
    (sym : string) :
  Scope_find_declaration ds parent sym =
    match find (named sym) ds with
    | Some d => Some (Some d, None)
    | None => parent
    end ∧
  (∀ d, find (named sym) ds = Some d ->
        DeclarationBase_name d = sym ∧ d ∈ ds) ∧
  (find (named sym) ds = None ->
   Forall (fun d => DeclarationBase_name d ≠ sym) ds).
Proof.
  split; [|split].
  - unfold Scope_find_declaration. rewrite first_answer_find.
    by destruct (find (named sym) ds).
  - intros d H. apply find_some in H as [Hin Hn].
    split; [by apply String.eqb_eq|by apply list_elem_of_In].
  - intros H. apply Forall_forall. intros d Hd E.
    assert (Hf : named sym d = false)
      by (apply (find_none _ _ H d); by apply list_elem_of_In).
    unfold named in Hf. by rewrite E, String.eqb_refl in Hf.
Qed.

Lemma find_app {A} (f : A -> bool) (l r : list A) :
  find f (l ++ r) = match find f l with Some x => Some x | None => find f r end.
Proof.
  induction l as [|x l IH]; [reflexivity|]. simpl. by destruct (f x).
Qed.

(** X5.  A declaration added by [Scope.declare] is found under its name only if
    the scope had no declaration of that name: an earlier declaration keeps
    answering.  Lookups of every other name are as before. *)
Theorem declare_then_lookup (ds : list DeclarationBase)
    (d : DeclarationBase) (parent : option DeclarationLookup) (sym : string) :
  Scope_find_declaration (Scope_declare d ds) parent sym =
    match find (named sym) ds with
    | Some d0 => Some (Some d0, None)
    | None => if String.eqb (DeclarationBase_name d) sym
              then Some (Some d, None)
              else parent
    end ∧
  (DeclarationBase_name d ≠ sym ->
   Scope_find_declaration (Scope_declare d ds) parent sym =
   Scope_find_declaration ds parent sym).
Proof.
  assert (H : Scope_find_declaration (Scope_declare d ds) parent sym =
    match find (named sym) ds with
    | Some d0 => Some (Some d0, None)
    | None => if String.eqb (DeclarationBase_name d) sym
              then Some (Some d, None)
              else parent
    end).
  { unfold Scope_find_declaration, Scope_declare.
    rewrite first_answer_find, find_app. cbn [find]. unfold named at 2.
    destruct (find (named sym) ds); [reflexivity|].
    by destruct (String.eqb (DeclarationBase_name d) sym). }
  split; [exact H|]. intros Hne. rewrite H.
  unfold Scope_find_declaration. rewrite first_answer_find.
  apply String.eqb_neq in Hne. rewrite Hne.
  by destruct (find (named sym) ds).
Qed.

Lemma declare_then_lookup_witness :
  Scope_find_declaration
    (Scope_declare VArgsLength [DDeclaration p_decl]) None "p" =
  Scope_find_declaration [DDeclaration p_decl] None "p".
Proof.
  apply (declare_then_lookup [DDeclaration p_decl] VArgsLength None "p").
  discriminate.
Defined.

(** X6.  Lexical scoping: from a use site whose ancestors are plain nodes, scopes
    and function definitions, a name other than [vargs] resolves to its first
    declaration in the innermost scope that declares it; the root is asked
    only when no scope on the way declares the name. *)
Theorem innermost_declaration_wins (chain : list Frame) (a : Root)
    (sym : string) :
  forallb lexical chain = true ->
  sym ≠ "vargs" ->
  find_declaration chain a sym =
    match find (named sym) (mjoin (frame_declarations <$> chain)) with
    | Some d => Some (Some d, None)
    | None => Some (AST_find_declaration a sym)
    end.
Proof.
  intros Hl Hv. induction chain as [|f up IH]; [reflexivity|].
  cbn [forallb] in Hl. apply andb_prop in Hl as [Hf Hup].
  specialize (IH Hup).
  destruct f as [|ds|ds typ|? ?|? ?]; try discriminate Hf;
    cbn [find_declaration fmap list_fmap mjoin list_join frame_declarations].
  - exact IH.
  - rewrite find_app, IH. unfold Scope_find_declaration.
    rewrite first_answer_find. by destruct (find (named sym) ds).
  - rewrite find_app, IH. unfold FunctionDefinition_find_declaration.
    apply String.eqb_neq in Hv. rewrite Hv. cbn [negb].
    unfold Scope_find_declaration.
    rewrite first_answer_find. by destruct (find (named sym) ds).
Qed.

Lemma innermost_declaration_wins_witness :
  find_declaration [FNode; FScope [DDeclaration p_decl];
                    FFunctionDefinition [DDeclaration secret] point]
                   main_root "secret" =
  Some (Some (DDeclaration secret), None).
Proof.
  apply (innermost_declaration_wins
           [FNode; FScope [DDeclaration p_decl];
            FFunctionDefinition [DDeclaration secret] point]
           main_root "secret"); [reflexivity|discriminate].
Defined.

Lemma find_builtin (names : list string) (sym : string) :
  find (named sym) (DType ∘ BuiltinType <$> names) =
  if bool_decide (sym ∈ names) then Some (DType (BuiltinType sym)) else None.
Proof.
  induction names as [|n names IH]; [reflexivity|].
  cbn [fmap list_fmap find]. unfold named at 1. cbn [compose DeclarationBase_name].
  destruct (String.eqb_spec n sym) as [->|Hne].
  - rewrite bool_decide_eq_true_2 by left. reflexivity.
  - fold (fmap (M := list) (DType ∘ BuiltinType) names). rewrite IH.
    case_bool_decide as H1; case_bool_decide as H2; try reflexivity.
    + exfalso. apply H2. by right.
    + exfalso. apply elem_of_cons in H2 as [->|H2]; [done|]. by apply H1.
Qed.

(** X7.  [AST.find_declaration] for a name that no top-level node declares: each
    of the nineteen built-in type names resolves to a copy of the built-in
    type of that name, [@func] to the function type without parameters, and
    every other name to nothing, without an error. *)
Theorem root_lookup_of_a_name_no_node_declares (nodes : list Node)
    (sym : string) :
  first_answer get_declaration nodes sym = (None, None) ->
  AST_find_declaration (mkRoot nodes builtin_declarations) sym =
    if bool_decide (sym ∈ builtin_names)
    then (Some (DType (BuiltinType sym)), None)
    else if String.eqb sym "@func"
    then (Some (DType (FunctionType
                         (CompoundIdentifier [mkIdentifier 0 "@any" None 0])
                         [] false None)), None)
    else (None, None).
Proof.
  intros H. unfold AST_find_declaration. cbn [root_nodes root_declarations].
  rewrite H, first_answer_find. unfold builtin_declarations.
  cbn [find]. unfold named at 1. cbn [DeclarationBase_name].
  rewrite String.eqb_sym.
  destruct (String.eqb_spec sym "@func") as [->|Hne]; [reflexivity|].
  fold builtin_names. rewrite find_builtin.
  by case_bool_decide.
Qed.

Lemma root_lookup_of_a_name_no_node_declares_witness :
  AST_find_declaration (mkRoot module_m builtin_declarations) "@str" =
  (Some (DType (BuiltinType "@str")), None).
Proof.
  apply (root_lookup_of_a_name_no_node_declares module_m "@str").
  reflexivity.
Defined.

(** X8.  [vargs] has the single member [length]: a compound identifier
    [vargs.length] is built into the one element [@vargs_len], bound to the
    length declaration, without a failure; any other member is reported as
    an undeclared identifier at its own position. *)
Theorem vargs_has_the_single_member_length
    (parent_find : string -> DeclarationLookup) (t : Ty) (v m : Identifier) :
  parent_find (i_name v) = (Some (VArgs t), None) ->
  CompoundIdentifier_build parent_find [v; m] =
    if String.eqb (i_name m) "length"
    then ([mkIdentifier (i_pos m) "@vargs_len" (Some VArgsLength) 0], None)
    else ([mkIdentifier (i_pos v) (i_name v) (Some (VArgs t)) 0;
           mkIdentifier (i_pos m) (i_name m) None 0],
          Some (Diagnostics.mkFailCall Diagnostics.Error (i_pos m)
                  ("use of undeclared identifier " +:+ i_name m))).
Proof.
  intros Hv. unfold CompoundIdentifier_build, find_children_declarations.
  cbn [resolve_elems lookup_elem]. rewrite Hv.
  cbn [lookup_elem get_inner_declaration].
  destruct (String.eqb (i_name m) "length"); reflexivity.
Qed.

Lemma vargs_has_the_single_member_length_witness :
  CompoundIdentifier_build (fun _ => (Some (VArgs (BuiltinType "@int")), None))
    [mkIdentifier 3 "vargs" None 0; mkIdentifier 9 "length" None 0] =
  ([mkIdentifier 9 "@vargs_len" (Some VArgsLength) 0], None).
Proof.
  apply (vargs_has_the_single_member_length
           (fun _ => (Some (VArgs (BuiltinType "@int")), None))
           (BuiltinType "@int")
           (mkIdentifier 3 "vargs" None 0) (mkIdentifier 9 "length" None 0)).
  reflexivity.
Defined.

(** X9.  Member lookup in a reference type goes to what the references lead to,
    however many there are: a structure or union without fields answers with
    the error [accessing incomplete], whatever the member; one with fields
    answers with its first field of that name and never with an error; any
    other type has no member. *)
Theorem member_lookup_sees_through_references (t : Ty) (sym : string) :
  Ty_get_inner_declaration (ReferenceType t) sym =
    match ReferenceType_inner_child t with
    | ContainerStructure display_name name None =>
        (None, Some ("accessing incomplete " +:+ display_name +:+ " " +:+ name))
    | ContainerStructure _ _ (Some fields) =>
        (find (named sym) (DDeclaration <$> fields), None)
    | _ => (None, None)
    end.
Proof.
  cbn [Ty_get_inner_declaration].
  induction t as [n|c IH|c IH|ret args v vt|dn name fields];
    cbn [Ty_get_inner_declaration ReferenceType_inner_child];
    try reflexivity; try exact IH.
  destruct fields as [fields|]; [|reflexivity].
  clear. induction fields as [|f fields IH]; [reflexivity|].
  cbn [first_answer fmap list_fmap find]. unfold named at 1.
  unfold DeclarationBase_get_declaration.
  destruct (String.eqb (DeclarationBase_name (DDeclaration f)) sym);
    [reflexivity|exact IH].
Qed.

Lemma get_declaration_exposed (n : Node) (sym : string) :
  get_declaration n sym = (find (named sym) (exposed n), None).
Proof.
  revert n. fix IH 1. intros [d|lib syms ds|lib syms ds|];
    cbn [get_declaration exposed].
  - unfold DeclarationBase_get_declaration, named. cbn [find].
    by destruct (String.eqb _ _).
  - induction syms as [|x r IHr]; [reflexivity|].
    rewrite (IH x), find_app.
    destruct (find (named sym) (exposed x)); [reflexivity|exact IHr].
  - induction syms as [|x r IHr]; [reflexivity|].
    rewrite (IH x), find_app.
    destruct (find (named sym) (exposed x)); [reflexivity|exact IHr].
  - reflexivity.
Qed.

(** X10.  What is visible at the top level: an import or include answers for
    every declaration of the nodes it brought in, and for those of the
    inclusions among them in turn, whatever their qualifiers; it does not
    answer for the declarations registered in it.  The root asks its nodes in
    order and takes the first declaration of the name among all they expose;
    only then come its own declarations, a type among them being
    duplicated. *)
Theorem inclusions_expose_what_they_brought_in (a : Root) (n : Node)
    (sym : string) :
  get_declaration n sym = (find (named sym) (exposed n), None) ∧
  AST_find_declaration a sym =
    match find (named sym) (mjoin (exposed <$> root_nodes a)) with
    | Some d => (Some d, None)
    | None =>
        match find (named sym) (root_declarations a) with
        | Some (DType t) => (Some (DType (dup t)), None)
        | other => (other, None)
        end
    end.
Proof.
  split; [apply get_declaration_exposed|].
  unfold AST_find_declaration.
  assert (H : first_answer get_declaration (root_nodes a) sym =
              (find (named sym) (mjoin (exposed <$> root_nodes a)), None)).
  { induction (root_nodes a) as [|x r IH]; [reflexivity|].
    cbn [first_answer fmap list_fmap mjoin list_join].
    rewrite get_declaration_exposed, find_app.
    destruct (find (named sym) (exposed x)); [reflexivity|exact IH]. }
  rewrite H, first_answer_find.
  destruct (find (named sym) (mjoin (exposed <$> root_nodes a)));
    [reflexivity|].
  by destruct (find (named sym) (root_declarations a)) as [[]|].
Qed.
End ScopingFacts.

(** ** Qualifier flags, duplicated types, reference offsets and generated
    names *)
Module FlagsFacts.
Import Ast Flags.

(** X11.  The setters of [private] and [static] on a combination of flags: the
    flag reads back as it was set, every other flag reads as before, the
    result is again a combination of flags, and setting a flag to the value
    it has changes nothing. *)
Theorem qualifier_setters_touch_one_flag (q : Z) (v : bool) :
  valid q ->
  (is_private (set_private v q) = v ∧
   is_static (set_private v q) = is_static q ∧
   is_const (set_private v q) = is_const q ∧
   is_restricted (set_private v q) = is_restricted q ∧
   is_volatile (set_private v q) = is_volatile q ∧
   is_inline (set_private v q) = is_inline q ∧
   valid (set_private v q) ∧
   (is_private q = v -> set_private v q = q)) ∧
  (is_static (set_static v q) = v ∧
   is_private (set_static v q) = is_private q ∧
   is_const (set_static v q) = is_const q ∧
   is_restricted (set_static v q) = is_restricted q ∧
   is_volatile (set_static v q) = is_volatile q ∧
   is_inline (set_static v q) = is_inline q ∧
   valid (set_static v q) ∧
   (is_static q = v -> set_static v q = q)).
Proof.
  intros [H0 H1].
  assert (Hn : ∃ n, n < 64 ∧ q = Z.of_nat n) by (exists (Z.to_nat q); lia).
  destruct Hn as (n & Hn & ->). clear H0 H1.
  do 64 (destruct n as [|n];
         [clear; destruct v; vm_compute; repeat split; try reflexivity;
          intros; congruence|]).
  exfalso. lia.
Qed.

Lemma qualifier_setters_touch_one_flag_witness :
  is_private (set_private true (Z.lor CONST STATIC)) = true ∧
  is_static (set_private true (Z.lor CONST STATIC)) = true.
Proof.
  destruct (qualifier_setters_touch_one_flag (Z.lor CONST STATIC) true
              ltac:(vm_compute; split; [discriminate|reflexivity]))
    as [(H1 & H2 & _) _].
  split; [exact H1|exact H2].
Defined.


(** X13.  Writing [ref_offset] and reading it back: a symbol made of a compound
    identifier under reference layers reads back the value written less the
    number of its [ReferenceToValue] layers, since their getter does not
    undo what their setter subtracts; the write succeeds exactly when the
    read does. *)
Theorem ref_offset_reads_back_less_the_value_references (s : Symbol) (v : Z) :
  (is_Some (Rebuild.set_ref_offset s v) ↔ is_Some (Rebuild.get_ref_offset s)) ∧
  (∀ s', Rebuild.set_ref_offset s v = Some s' ->
         Rebuild.get_ref_offset s' = Some (v - value_references s)%Z).
Proof.
  revert v. induction s as [elems|c IH l|c IH|c IH|n types]; intros v.
  - cbn [Rebuild.set_ref_offset Rebuild.get_ref_offset value_references].
    destruct (reverse elems) as [|e r] eqn:E.
    + assert (elems = []) as ->.
      { apply (f_equal reverse) in E. by rewrite reverse_involutive in E. }
      split; [split; intros [x Hx]; discriminate Hx|discriminate].
    + assert (Hl : elems = reverse r ++ [e]).
      { apply (f_equal reverse) in E.
        by rewrite reverse_involutive, reverse_cons in E. }
      split.
      * rewrite Hl, last_snoc. split; intros _; eexists; reflexivity.
      * intros s' H. injection H as <-.
        cbn [Rebuild.get_ref_offset]. rewrite reverse_cons, last_snoc.
        cbn [fmap option_fmap option_map i_ref_offset]. f_equal. lia.
  - split; [split; intros [x Hx]; discriminate Hx|discriminate].
  - destruct (IH (v - 1)%Z) as [H1 H2].
    cbn [Rebuild.set_ref_offset Rebuild.get_ref_offset value_references].
    split.
    + rewrite !fmap_is_Some. exact H1.
    + intros s' H.
      destruct (Rebuild.set_ref_offset c (v - 1)) as [c'|]; [|discriminate].
      injection H as <-. cbn [Rebuild.get_ref_offset].
      rewrite (H2 c' eq_refl). cbn [fmap option_fmap option_map].
      f_equal. lia.
  - destruct (IH (v - 1)%Z) as [H1 H2].
    cbn [Rebuild.set_ref_offset Rebuild.get_ref_offset value_references].
    split.
    + rewrite !fmap_is_Some. exact H1.
    + intros s' H.
      destruct (Rebuild.set_ref_offset c (v - 1)) as [c'|]; [|discriminate].
      injection H as <-. cbn [Rebuild.get_ref_offset].
      rewrite (H2 c' eq_refl). f_equal. lia.
  - split; [split; intros [x Hx]; discriminate Hx|discriminate].
Qed.

Lemma generate_var_names_spec (k : nat) (st : Build.State) :
  (generate_var_names k st).1 =
    (fun i => "__gen_fun_" +:+ pretty (Build.gen_var_count st + i)) <$> seq 1 k ∧
  Build.gen_var_count (generate_var_names k st).2 = Build.gen_var_count st + k.
Proof.
  revert st. induction k as [|k IH]; intros st.
  - split; [reflexivity|simpl; lia].
  - cbn [generate_var_names]. unfold Build.generate_var_name.
    destruct (generate_var_names k _) as [ns st2] eqn:E.
    specialize (IH (Build.mkState (Build.body st) (Build._counter st)
                      (Build.declarations st) (S (Build.gen_var_count st))
                      (Build.failures st) (Build.next_id st))).
    rewrite E in IH. cbn [fst snd Build.gen_var_count] in IH |- *.
    destruct IH as [-> ->]. split; [|lia].
    cbn [seq fmap list_fmap]. f_equal.
    + f_equal. f_equal. lia.
    + rewrite <- (fmap_S_seq 1), <- list_fmap_compose.
      apply list_fmap_ext. intros _ i _. cbn [compose]. f_equal. f_equal. lia.
Qed.

(** X14.  The names generated within one function are pairwise distinct, however
    many are asked for, and none of them is a name generated by the root. *)
Theorem generated_names_are_distinct (k : nat) (st : Build.State) :
  NoDup (generate_var_names k st).1 ∧
  length (generate_var_names k st).1 = k ∧
  Build.gen_var_count (generate_var_names k st).2 =
    Build.gen_var_count st + k ∧
  (∀ c, (AST_generate_var_name c).1 ∉ (generate_var_names k st).1).
Proof.
  destruct (generate_var_names_spec k st) as [-> ->].
  split; [|split; [|split; [reflexivity|]]].
  - apply NoDup_fmap_2; [|apply NoDup_seq].
    intros i j E. simpl in E. injection E as E.
    change (pretty (Build.gen_var_count st + i) = pretty (Build.gen_var_count st + j)) in E. apply pretty_nat_inj in E. lia.
  - by rewrite length_fmap, length_seq.
  - intros c H. apply list_elem_of_fmap in H as (i & E & _).
    simpl in E. discriminate E.
Qed.
End FlagsFacts.

(** ** Arity checks and whole flow scopes *)
Module CallsFacts.
Import Ast Build Calls.

Section Facts.
Variable Symbol_build : Symbol -> Symbol * list FailCall.
Variable auto_cast : Node -> Ty -> Node.
Variable default_value : Declaration -> option Node.
Variable repr : Symbol -> string.
Variable outer_do_before : Node -> State -> Result State.

Local Abbreviation build :=
  (Build.build Symbol_build auto_cast default_value repr outer_do_before).
Local Abbreviation FlowScope_loop :=
  (Build.FlowScope_loop Symbol_build auto_cast default_value repr
                        outer_do_before).
Local Abbreviation FlowScope_build :=
  (Build.FlowScope_build Symbol_build auto_cast default_value repr
                         outer_do_before).

Lemma check_args_loop_closed (params : list Declaration) :
  ∀ i args diff,
    check_args_loop default_value params i args diff =
    let added :=
      leading_defaults default_value (drop (length args - i) params) in
    (args ++ added, (diff + Z.of_nat (length added))%Z).
Proof.
  induction params as [|p r IH]; intros i args diff; cbn zeta.
  - rewrite drop_nil. cbn [check_args_loop leading_defaults length].
    by rewrite app_nil_r, Z.add_0_r.
  - cbn [check_args_loop]. destruct (Nat.leb_spec (length args) i) as [Hle|Hgt].
    + replace (length args - i) with 0 by lia. cbn [drop leading_defaults].
      destruct (default_value p) as [e|].
      * rewrite IH. cbn zeta. rewrite length_app. cbn [length].
        replace (length args + 1 - S i) with 0 by lia. cbn [drop].
        rewrite <- app_assoc. cbn [app length]. f_equal. rewrite drop_0. lia.
      * cbn [length]. by rewrite app_nil_r, Z.add_0_r.
    + rewrite IH. cbn zeta.
      replace (length args - i) with (S (length args - S i)) by lia.
      reflexivity.
Qed.

(** X15.  [FunctionCall._check_args] keeps the actuals given and appends the
    default values of the parameters that follow them, up to the first
    parameter without a default value.  It warns once, [not enough], when
    there are still fewer actuals than parameters; once, [too many], when
    there are more and the function is not variadic; and not at all
    otherwise. *)
Theorem check_args_appends_the_leading_defaults (pos : nat) (sym : Symbol)
    (params : list Declaration) (is_variadic : bool) (args : list Node)
    (st : State) :
  let args' :=
    args ++ leading_defaults default_value (drop (length args) params) in
  let warning kind :=
    fail Warning pos
         (kind +:+ " arguments for call to " +:+ repr sym +:+ ": expected " +:+
          pretty (length params) +:+ ", got " +:+ pretty (length args')) st in
  _check_args default_value repr pos sym params is_variadic args st =
    (args',
     if length args' <? length params then warning "not enough"
     else if (length params <? length args') && negb is_variadic
          then warning "too many"
          else st) ∧
  (length params ≤ length args -> args' = args) ∧
  length args' ≤ Nat.max (length args) (length params).
Proof.
  intros args' warning.
  assert (Hlen : length (leading_defaults default_value
                           (drop (length args) params)) ≤
                 length params - length args).
  { rewrite <- length_drop.
    generalize (drop (length args) params). intros l.
    induction l as [|p r IH]; [done|]. cbn [leading_defaults].
    destruct (default_value p); cbn [length]; lia. }
  split; [|split].
  - unfold _check_args. rewrite check_args_loop_closed. cbn zeta.
    rewrite Nat.sub_0_r. fold args'.
    assert (Hd : (Z.of_nat (length args) - Z.of_nat (length params) +
                  Z.of_nat (length (leading_defaults default_value
                                      (drop (length args) params))) =
                  Z.of_nat (length args') - Z.of_nat (length params))%Z).
    { unfold args'. rewrite length_app. lia. }
    rewrite Hd.
    destruct (Nat.ltb_spec (length args') (length params)) as [H1|H1].
    + destruct (Z.ltb_spec (Z.of_nat (length args') - Z.of_nat (length params))
                           0) as [H2|H2]; [|lia].
      reflexivity.
    + destruct (Z.ltb_spec (Z.of_nat (length args') - Z.of_nat (length params))
                           0) as [H2|H2]; [lia|].
      cbn [orb].
      destruct (Nat.ltb_spec (length params) (length args')) as [H3|H3];
        destruct (Z.ltb_spec 0 (Z.of_nat (length args') -
                                Z.of_nat (length params))) as [H4|H4];
        try lia; cbn [andb]; destruct is_variadic; reflexivity.
  - intros Hge. unfold args'. rewrite drop_ge by exact Hge.
    cbn [leading_defaults]. by rewrite app_nil_r.
  - unfold args'. rewrite length_app. lia.
Qed.

Lemma build_Statement_id (fuel : nat) (before : Node) (i : nat) (e : Node)
    (st : State) (n' : Node) (st' : State) :
  build fuel before (Statement i e) st = Ok (n', st') ->
  ∃ e', n' = Statement i e'.
Proof.
  destruct fuel as [|f]; [discriminate|]. cbn [Build.build].
  destruct (build f (Statement i e) e st) as [[e' s1]| |]; simpl;
    try discriminate.
  intros E. inversion E; subst. by exists e'.
Qed.

Lemma length_list_insert_at (i : nat) (x : Node) (l : list Node) :
  length (list_insert_at i x l) = S (length l).
Proof.
  unfold list_insert_at. rewrite length_app. cbn [length].
  rewrite length_take, length_drop. lia.
Qed.

(** *** A relation between the state before and after a build *)
Section Relation.
(** A relation that holds across every step a build makes: recording
    failures, declaring a name, and inserting into the body a statement
    that was created and built in between. *)
Variable R : State -> State -> Prop.
Hypothesis R_refl : ∀ st, R st st.
Hypothesis R_trans : ∀ a b c, R a b -> R b c -> R a c.
Hypothesis R_fail_all : ∀ fs st, R st (fail_all fs st).
Hypothesis R_declare : ∀ name st, R st (declare name st).
Hypothesis R_insert :
  ∀ st idx d' st',
    R (mkState (body st) (_counter st) (declarations st)
               (S (gen_var_count st)) (failures st) (S (next_id st))) st' ->
    R st (insert_before idx (Statement (next_id st) d') st').

Lemma R_fail sev pos msg (st : State) : R st (fail sev pos msg st).
Proof. apply (R_fail_all [mkFailCall sev pos msg]). Qed.

Lemma R_check_args pos sym params is_variadic args (st : State) :
  R st (_check_args default_value repr pos sym params is_variadic args st).2.
Proof.
  unfold _check_args. destruct (check_args_loop _ _ _ _ _) as [a d].
  destruct (_ || _); [apply R_fail|apply R_refl].
Qed.

Section Step.
Variable build_rec : Node -> Node -> State -> Result (Node * State).
Hypothesis build_rec_R :
  ∀ before n st n' st', build_rec before n st = Ok (n', st') -> R st st'.
Hypothesis build_rec_id :
  ∀ before i e st n' st',
    build_rec before (Statement i e) st = Ok (n', st') ->
    ∃ e', n' = Statement i e'.

Lemma build_all_R (before : Node) (l : list Node) (st : State)
    (l' : list Node) (st' : State) :
  build_all build_rec before l st = Ok (l', st') -> R st st'.
Proof.
  intros E.
  apply (BuildFacts.build_all_preserves build_rec before
           (fun _ => True) (fun _ => True) R R_refl R_trans)
    in E as (_ & _ & E); [exact E| |by apply Forall_true|done].
  intros n s n1 s1 _ _ E1. split; [done|]. split; [done|].
  by eapply build_rec_R.
Qed.

Lemma Cast_build_R (before : Node) (pos : nat) (sym : Symbol)
    (args : list Node) (st : State) (n' : Node) (st' : State) :
  Cast_build build_rec before pos sym args st = Ok (n', st') -> R st st'.
Proof.
  intros E. unfold Cast_build in E.
  destruct args as [|a [|b r]].
  - inversion E; subst. apply R_fail.
  - destruct (build_rec before a st) as [[a' s1]| |] eqn:Ea; simpl in E;
      try discriminate.
    inversion E; subst. by eapply build_rec_R.
  - inversion E; subst. apply R_fail.
Qed.

Lemma auto_cast_args_R decl_type params is_variadic variadic_type
    (before : Node) (args : list Node) (st : State) (args' : list Node)
    (st' : State) :
  _auto_cast_args auto_cast outer_do_before build_rec decl_type params
                  is_variadic variadic_type before args st = Ok (args', st') ->
  R st st'.
Proof.
  intros E. unfold _auto_cast_args in E.
  destruct is_variadic, decl_type;
    try (inversion E; subst; apply R_refl).
  destruct variadic_type as [vt|]; [|discriminate].
  cbn [generate_var_name new_Statement] in E.
  unfold FlowScope_do_before in E. cbn [is_Statement body next_id] in E.
  destruct (is_Statement before); [|discriminate].
  destruct (index before (body st)) as [idx|]; [|discriminate].
  match type of E with
  | context [build_rec ?a ?b ?c] =>
      destruct (build_rec a b c) as [[do' s1]| |] eqn:Eb
  end; simpl in E; try discriminate.
  inversion E; subst.
  destruct (build_rec_id _ _ _ _ _ _ Eb) as (d' & ->).
  apply build_rec_R in Eb. by apply R_insert.
Qed.

Lemma FunctionCall_build_R (before : Node) (pos : nat) (sym : Symbol)
    (args : list Node) (st : State) (n' : Node) (st' : State) :
  FunctionCall_build Symbol_build auto_cast default_value repr
                     outer_do_before build_rec before pos sym args st
    = Ok (n', st') ->
  R st st'.
Proof.
  intros E. unfold FunctionCall_build in E.
  destruct (Symbol_build sym) as [sym1 fs].
  eapply R_trans; [apply (R_fail_all fs)|].
  destruct (is_type sym1).
  - destruct (Symbol_decl sym1) as [[[t|d|t|]|]|]; try discriminate.
    by eapply Cast_build_R.
  - destruct (build_all build_rec before args (fail_all fs st))
      as [[args1 st1]| |] eqn:Ea; simpl in E; try discriminate.
    apply build_all_R in Ea.
    eapply R_trans; [exact Ea|]. clear Ea.
    destruct (reorder sym1) as [inner k].
    destruct (Symbol_decl _) as [[d|]|]; try discriminate.
    + destruct d as [t|d|t|]; try discriminate.
      * destruct (DeclarationBase_typ (DDeclaration d)) as [[]|];
          try (inversion E; subst; apply R_fail).
        pose proof (R_check_args pos
                      (match k with
                       | Some _ => reset_ref_offset inner
                       | None => inner
                       end) args0 is_variadic args1 st1) as Hc.
        destruct (_check_args _ _ _ _ _ _ _ _) as [args2 st2].
        match type of E with
        | context [_auto_cast_args ?a ?b ?c ?d ?e ?f ?g ?h ?i ?j] =>
            destruct (_auto_cast_args a b c d e f g h i j)
              as [[args3 st3]| |] eqn:Ec
        end; simpl in E; try discriminate.
        inversion E; subst.
        eapply R_trans; [exact Hc|].
        by eapply auto_cast_args_R.
      * cbn [DeclarationBase_typ] in E. inversion E; subst. apply R_fail.
      * cbn [DeclarationBase_typ] in E. inversion E; subst. apply R_fail.
    + inversion E; subst. apply R_refl.
Qed.
End Step.

Lemma build_R (fuel : nat) (before n : Node) (st : State)
    (n' : Node) (st' : State) :
  build fuel before n st = Ok (n', st') -> R st st'.
Proof.
  revert before n st n' st'.
  induction fuel as [|f IH]; intros before n st n' st' E; [discriminate|].
  pose proof (build_Statement_id f) as Hid.
  destruct n; cbn [Build.build] in E.
  - inversion E; subst. apply R_refl.
  - inversion E; subst. apply R_refl.
  - destruct (Symbol_build sym) as [s' fs]. inversion E; subst.
    apply R_fail_all.
  - destruct (build_all (build f) before contents st) as [[c' s1]| |] eqn:Ea;
      simpl in E; try discriminate.
    inversion E; subst. by eapply (build_all_R (build f)).
  - destruct (build_all (build f) before contents st) as [[c' s1]| |] eqn:Ea;
      simpl in E; try discriminate.
    inversion E; subst. by eapply (build_all_R (build f)).
  - destruct (build f before n st) as [[e' s1]| |] eqn:Ea;
      simpl in E; try discriminate.
    inversion E; subst. by eapply IH.
  - destruct (Symbol_build typ) as [typ' fs].
    assert (Hd : R st (fail_all fs (declare (i_name sym) st)))
      by (eapply R_trans; [apply R_declare|apply R_fail_all]).
    destruct assign as [a|].
    + destruct (build f before a _) as [[a' s3]| |] eqn:Ea;
        simpl in E; try discriminate.
      inversion E; subst. eapply R_trans; [exact Hd|]. by eapply IH.
    + inversion E; subst. exact Hd.
  - by eapply (FunctionCall_build_R (build f)).
  - by eapply (Cast_build_R (build f)).
  - destruct (build f before n st) as [[e' s1]| |] eqn:Ea;
      simpl in E; try discriminate.
    inversion E; subst. by eapply IH.
  - destruct (build f (Statement id n) n st) as [[e' s1]| |] eqn:Ea;
      simpl in E; try discriminate.
    inversion E; subst. by eapply IH.
Qed.
End Relation.

Lemma grows_refl (st : State) : grows st st.
Proof. by repeat split. Qed.

Lemma grows_trans (a b c : State) : grows a b -> grows b c -> grows a c.
Proof.
  intros (A1 & A2 & A3 & A4 & A5 & A6) (B1 & B2 & B3 & B4 & B5 & B6).
  repeat split; try lia; by etrans.
Qed.

(** X16.  Whatever node is built, when its build returns it has only added to
    the state: the failures and the declarations recorded before are still
    there, in order, before the new ones; no name counter or statement
    count went down; the body of the flow scope did not shrink and its
    counter did not move back. *)
Theorem build_only_adds (fuel : nat) (before n : Node) (st : State)
    (n' : Node) (st' : State) :
  build fuel before n st = Ok (n', st') -> grows st st'.
Proof.
  apply (build_R grows grows_refl grows_trans).
  - intros fs s. repeat split; try done. by apply prefix_app_r.
  - intros name s. repeat split; try done. by apply prefix_app_r.
  - intros s idx d' s' (B1 & B2 & B3 & B4 & B5 & B6).
    cbn [failures declarations gen_var_count next_id body _counter] in *.
    repeat split; cbn [insert_before failures declarations gen_var_count
                       next_id body _counter]; try done; try lia.
    rewrite length_list_insert_at. lia.
Qed.

Lemma objects_insert_at (i id : nat) (e : Node) (l : list Node) :
  objects (list_insert_at i (Statement id e) l) ≡ₚ id :: objects l.
Proof.
  unfold objects, list_insert_at. rewrite omap_app. cbn [omap list_omap].
  cbn [statement_id]. rewrite <- Permutation_middle.
  by rewrite <- omap_app, take_drop.
Qed.

Lemma ids_below_objects (bound : nat) (l : list Node) :
  ids_below bound l ↔ ∀ j, j ∈ objects l -> j < bound.
Proof.
  unfold ids_below, objects. rewrite Forall_forall. split.
  - intros H j Hj. apply list_elem_of_omap in Hj as (x & Hx & E).
    by apply (H x Hx).
  - intros H x Hx j E. apply H. apply list_elem_of_omap. by exists x.
Qed.

Lemma fresh_insertions_build (fuel : nat) (before n : Node) (st : State)
    (n' : Node) (st' : State) :
  build fuel before n st = Ok (n', st') -> fresh_insertions st st'.
Proof.
  apply (build_R fresh_insertions).
  - intros s. split; [lia|]. split; [by left|done].
  - intros a b c (A1 & A2 & A3) (B1 & B2 & B3).
    split; [lia|]. split; [|auto].
    intros j Hj. destruct (B2 j Hj) as [H|H]; [|right; lia].
    destruct (A2 j H) as [H'|H']; [by left|right; lia].
  - intros fs s. split; [done|]. split; [by left|exact (fun H => H)].
  - intros name s. split; [done|]. split; [by left|exact (fun H => H)].
  - intros s idx d' s' (B1 & B2 & B3).
    cbn [body next_id] in B1, B2.
    split; [cbn [insert_before next_id]; lia|]. split.
    + intros j Hj. cbn [insert_before body] in Hj.
      rewrite objects_insert_at in Hj.
      apply elem_of_cons in Hj as [->|Hj]; [by right|].
      destruct (B2 j Hj) as [H|H]; [by left|right; lia].
    + intros (W1 & W2 & W3).
      destruct B3 as (V1 & V2 & V3).
      { split; [exact W1|]. split; [exact W2|].
        cbn [body next_id]. apply ids_below_objects. intros j Hj.
        pose proof (proj1 (ids_below_objects _ _) W3 j Hj). lia. }
      unfold well_formed, insert_before. cbn [body next_id].
      split; [|split].
      * unfold list_insert_at. apply Forall_app. split.
        -- by apply Forall_take.
        -- constructor; [done|by apply Forall_drop].
      * rewrite objects_insert_at. apply NoDup_cons. split; [|exact V2].
        intros Hin. destruct (B2 _ Hin) as [H|H]; [|lia].
        pose proof (proj1 (ids_below_objects _ _) W3 _ H). lia.
      * apply ids_below_objects. intros j Hj.
        rewrite objects_insert_at in Hj.
        apply elem_of_cons in Hj as [->|Hj]; [lia|].
        by apply (proj1 (ids_below_objects _ _) V3).
Qed.

(** X23.  The lowering of a call of a native variadic function asks the flow
    scope to insert a statement before the one the call stands under.  When
    the call stands under a node of the flow scope that is not a statement,
    such as the condition of a control structure, the request fails the
    assertion of [FlowScope.do_before]; when it stands under a statement that
    is not in the body, such as a statement that is itself being inserted,
    [list.index] raises [ValueError].  Either way the build of the call
    raises and returns nothing. *)
Theorem lowering_fails_away_from_a_body_statement (fuel : nat)
    (before : Node) (pos : nat) (sym : Symbol) (args : list Node) (st : State)
    (elems : list Identifier) (fs : list FailCall) (d : Declaration)
    (ret : Symbol) (params : list Declaration) (vt : Symbol)
    (args1 : list Node) (st1 : State) :
  Symbol_build sym = (CompoundIdentifier elems, fs) ->
  Symbol_decl (CompoundIdentifier elems) = Some (Some (DDeclaration d)) ->
  Declaration_typ d = FunctionType ret params true (Some vt) ->
  d_declaration_type d = EHLIT ->
  build_all (build fuel) before args (fail_all fs st) = Ok (args1, st1) ->
  is_Statement before = false ∨ index before (body st1) = None ->
  Build.FunctionCall_build Symbol_build auto_cast default_value repr
                           outer_do_before (build fuel) before pos sym args st
    = Raise (if is_Statement before then ValueError else AssertionError).
Proof.
  intros Hs Hd Ht He Ha Hb. unfold Build.FunctionCall_build.
  rewrite Hs. cbn [is_type]. rewrite Hd, Ha. cbn [mbind Result_bind].
  cbn [reorder]. rewrite Hd. cbn [DeclarationBase_typ]. rewrite Ht, He.
  assert (Hc : body (_check_args default_value repr pos (CompoundIdentifier elems)
                       params true args1 st1).2 = body st1).
  { unfold _check_args. destruct (check_args_loop _ _ _ _ _) as [a z].
    by destruct (_ || _). }
  destruct (_check_args _ _ _ _ _ _ _ _) as [args2 st2].
  cbn [snd] in Hc. unfold _auto_cast_args.
  cbn [generate_var_name new_Statement]. unfold FlowScope_do_before.
  cbn [is_Statement body]. rewrite Hc.
  destruct (is_Statement before); [|reflexivity].
  destruct Hb as [Hb|Hb]; [discriminate|]. by rewrite Hb.
Qed.

(** *** The whole of [FlowScope.build] *)
Section Whole.
Hypothesis auto_cast_statement_free :
  ∀ n t, statement_free n = true -> statement_free (auto_cast n t) = true.
Hypothesis default_value_statement_free :
  ∀ d e, default_value d = Some e -> statement_free e = true.

Lemma distinct_from_the_rest (done rest : list Node) (id : nat) (e : Node) :
  NoDup (objects (done ++ Statement id e :: rest)) ->
  Forall (fun x => same_object x (Statement id e) = false) done.
Proof.
  unfold objects. rewrite omap_app. cbn [omap list_omap statement_id].
  intros H. apply NoDup_app in H as (_ & H & _).
  apply Forall_forall. intros x Hx.
  destruct x; try reflexivity. cbn [same_object].
  apply Nat.eqb_neq. intros ->.
  apply (H id); [|left].
  apply list_elem_of_omap. eexists. split; [exact Hx|reflexivity].
Qed.

Lemma loop_keeps_statements (fuel : nat) :
  ∀ rest turns done st st',
    body st = done ++ rest -> _counter st = length done ->
    Forall (fun s => top_statement s = true) rest ->
    well_formed st ->
    FlowScope_loop turns fuel st = Ok st' ->
    ∃ mid,
      body st' = done ++ mid ∧
      objects rest `sublist_of` objects mid ∧
      _counter st' = length (body st') ∧
      well_formed st' ∧
      (∀ j, j ∈ objects mid -> j ∈ objects rest ∨ next_id st ≤ j) ∧
      next_id st ≤ next_id st' ∧
      FlowScope_loop (length rest) fuel st = Ok st'.
Proof.
  induction rest as [|s rest IH]; intros turns done st st' Hb Hc Hr Hw E.
  - assert (Hn : body st !! _counter st = None)
      by (rewrite Hb, Hc, app_nil_r; by apply lookup_ge_None_2).
    assert (st' = st) as ->.
    { destruct turns; cbn [Build.FlowScope_loop] in E; rewrite Hn in E;
        by inversion E. }
    exists []. split; [exact Hb|]. split; [constructor|].
    split; [by rewrite Hb, Hc, app_nil_r|]. split; [exact Hw|].
    split; [intros j Hj; by apply elem_of_nil in Hj|]. split; [lia|].
    cbn [length Build.FlowScope_loop]. by rewrite Hn.
  - apply Forall_cons in Hr as [Hs Hr].
    destruct s as [| | | | | | | | | |id e]; try discriminate Hs.
    cbn [top_statement] in Hs.
    assert (Hl : body st !! _counter st = Some (Statement id e))
      by (rewrite Hb, Hc, lookup_app_r, Nat.sub_diag by lia; reflexivity).
    destruct turns as [|turns];
      cbn [Build.FlowScope_loop] in E; rewrite Hl in E; [discriminate|].
    destruct (build fuel (Statement id e) (Statement id e) st)
      as [[s' st1]| |] eqn:Eb; cbn [mbind Result_bind] in E;
      try discriminate.
    destruct fuel as [|f]; [discriminate|].
    pose proof Eb as Eb0. cbn [Build.build] in Eb.
    destruct (build f (Statement id e) e st) as [[e' s1]| |] eqn:Ee;
      cbn [mbind Result_bind] in Eb; try discriminate.
    inversion Eb; subst s' s1. clear Eb.
    destruct Hw as (W1 & W2 & W3).
    assert (Hcur : current (Statement id e) done rest st).
    { exists []. cbn [app]. rewrite app_nil_r.
      split; [exact Hb|]. split; [cbn [length]; lia|].
      split; [rewrite Hb in W2; by eapply distinct_from_the_rest|].
      split; [exact W3|constructor]. }
    destruct (BuildFacts.build_preserved Symbol_build auto_cast default_value
                repr outer_do_before auto_cast_statement_free
                default_value_statement_free f (Current done rest)
                (Statement id e) e st e' st1 eq_refl Hs Hcur Ee)
      as ((ins & H1 & H2 & H3 & H4 & H5) & _ & Hn).
    destruct (fresh_insertions_build f _ _ _ _ _ Ee) as (F1 & F2 & F3).
    destruct (F3 (conj W1 (conj W2 W3))) as (V1 & V2 & V3).
    assert (Hlt : _counter st1 < length (body st1))
      by (rewrite H1, H2, !length_app; cbn [length]; lia).
    unfold rebind_and_advance in E.
    destruct (Nat.ltb_spec (_counter st1) (length (body st1))) as [_|?];
      [|lia].
    cbn [mbind Result_bind] in E.
    assert (Hb2 : <[_counter st1 := Statement id e']> (body st1) =
                  (done ++ ins ++ [Statement id e']) ++ rest).
    { rewrite H1, H2. rewrite app_assoc, <- length_app.
      rewrite insert_app_r_alt by lia. rewrite Nat.sub_diag.
      cbn [insert list_insert]. by rewrite <- !app_assoc. }
    assert (Hobj : objects (<[_counter st1 := Statement id e']> (body st1)) =
                   objects (body st1)).
    { rewrite Hb2, H1. unfold objects. rewrite !omap_app.
      cbn [omap list_omap statement_id]. by rewrite <- !app_assoc. }
    destruct (IH turns (done ++ ins ++ [Statement id e'])
                (mkState (<[_counter st1 := Statement id e']> (body st1))
                         (S (_counter st1)) (declarations st1)
                         (gen_var_count st1) (failures st1) (next_id st1))
                st')
      as (mid & M1 & M2 & M3 & M4 & M5 & M6 & M7).
    + exact Hb2.
    + cbn [_counter]. rewrite H2, !length_app. cbn [length]. lia.
    + exact Hr.
    + unfold well_formed. cbn [body next_id]. split; [|split].
      * rewrite Hb2. rewrite H1 in V1.
        apply Forall_app in V1 as [D1 D2]. apply Forall_app in D2 as [D2 D3].
        apply Forall_cons in D3 as [_ D3].
        apply Forall_app. split; [|exact D3].
        apply Forall_app. split; [exact D1|].
        apply Forall_app. split; [exact D2|by repeat constructor].
      * by rewrite Hobj.
      * apply ids_below_objects. rewrite Hobj.
        exact (proj1 (ids_below_objects _ _) V3).
    + exact E.
    + cbn [body next_id] in *.
      exists (ins ++ Statement id e' :: mid).
      split; [by rewrite M1, <- !app_assoc|].
      split.
      { unfold objects. rewrite omap_app. cbn [omap list_omap statement_id].
        apply sublist_inserts_l. by apply sublist_skip. }
      split; [exact M3|]. split; [exact M4|]. split; [|split; [lia|]].
      * intros j Hj. unfold objects in Hj. rewrite omap_app in Hj.
        cbn [omap list_omap statement_id] in Hj.
        apply elem_of_app in Hj as [Hj|Hj].
        -- assert (Hj1 : j ∈ objects (body st1)).
           { rewrite H1. unfold objects. rewrite !omap_app.
             apply elem_of_app. right. apply elem_of_app. by left. }
           destruct (F2 j Hj1) as [Hold|Hnew]; [|by right].
           exfalso.
           rewrite H1 in V2. unfold objects in V2.
           rewrite !omap_app in V2. cbn [omap list_omap statement_id] in V2.
           rewrite Hb in Hold. unfold objects in Hold.
           rewrite omap_app in Hold. cbn [omap list_omap statement_id] in Hold.
           apply NoDup_app in V2 as (_ & X1 & X2).
           apply NoDup_app in X2 as (_ & X2 & _).
           apply elem_of_app in Hold as [Hold|Hold].
           ++ apply (X1 j Hold). apply elem_of_app. by left.
           ++ by apply (X2 j Hj).
        -- apply elem_of_cons in Hj as [->|Hj]; [left; left|].
           destruct (M5 j Hj) as [H|H]; [left; by right|right; lia].
      * cbn [length Build.FlowScope_loop]. rewrite Hl, Eb0.
        cbn [mbind Result_bind]. unfold rebind_and_advance.
        destruct (Nat.ltb_spec (_counter st1) (length (body st1))) as [_|?];
          [|lia].
        exact M7.
Qed.

(** X17.  [FlowScope.build] on a body fresh from the parser, whenever it returns:
    every statement of the body is still there, the same object, in the same
    order; what the body has gained are statements created during the
    build, each a distinct new object; the counter stands behind the last
    statement; and the loop has made exactly one turn per statement the
    body had at the start, the inserted ones being stepped over. *)
Theorem flow_scope_build_keeps_every_statement (turns fuel : nat)
    (st st' : State) :
  Forall (fun s => top_statement s = true) (body st) ->
  NoDup (objects (body st)) ->
  ids_below (next_id st) (body st) ->
  FlowScope_build turns fuel st = Ok st' ->
  objects (body st) `sublist_of` objects (body st') ∧
  (∀ j, j ∈ objects (body st') ->
        j ∈ objects (body st) ∨ next_id st ≤ j) ∧
  NoDup (objects (body st')) ∧
  Forall (fun x => is_Statement x = true) (body st') ∧
  _counter st' = length (body st') ∧
  FlowScope_build (length (body st)) fuel st = Ok st'.
Proof.
  intros Ht Hn Hi E. unfold Build.FlowScope_build in *.
  destruct (loop_keeps_statements fuel (body st) turns []
              (mkState (body st) 0 (declarations st) (gen_var_count st)
                       (failures st) (next_id st)) st')
    as (mid & M1 & M2 & M3 & (M4 & M4' & _) & M5 & _ & M7); try done.
  - unfold well_formed. cbn [body next_id]. split; [|by split].
    eapply Forall_impl; [exact Ht|]. by intros [].
  - cbn [app] in M1. rewrite M1 in *. by repeat split.
Qed.
End Whole.

Lemma plain_loop (fuel : nat) :
  ∀ rest done st turns,
    body st = done ++ rest -> _counter st = length done ->
    Forall (fun s => plain_statement s = true) rest ->
    depth_most rest ≤ fuel -> length rest ≤ turns ->
    ∃ st' rest',
      FlowScope_loop turns fuel st = Ok st' ∧
      body st' = done ++ rest' ∧
      statement_id <$> rest' = statement_id <$> rest ∧
      Forall (fun s => plain_statement s = true) rest' ∧
      _counter st' = length (body st') ∧
      declarations st' = declarations st ∧
      gen_var_count st' = gen_var_count st ∧
      next_id st' = next_id st.
Proof.
  induction rest as [|s rest IH]; intros done st turns Hb Hc Hp Hd Ht.
  - exists st, []. split.
    + destruct turns; cbn [Build.FlowScope_loop];
        by rewrite Hb, Hc, app_nil_r, lookup_ge_None_2.
    + rewrite Hb, Hc, app_nil_r. by repeat split.
  - apply Forall_cons in Hp as [Hs Hp].
    destruct s as [| | | | | | | | | |id e]; try discriminate Hs.
    cbn [plain_statement] in Hs. cbn [depth_most foldr depth] in Hd.
    fold (depth_most rest) in Hd.
    destruct turns as [|turns]; [cbn [length] in Ht; lia|].
    destruct fuel as [|f]; [lia|].
    destruct (BuildFacts.inert_build Symbol_build auto_cast default_value repr
                outer_do_before f (Statement id e) e st Hs)
      as (e' & st1 & Eb & (S1 & S2 & S3 & S4 & S5) & Hi & Hde); [lia|].
    cbn [Build.FlowScope_loop].
    rewrite Hb, Hc, lookup_app_r, Nat.sub_diag by lia. cbn [lookup list_lookup].
    cbn [Build.build]. rewrite Eb. cbn [mbind Result_bind].
    unfold rebind_and_advance. rewrite S1, S2, Hb, Hc.
    destruct (Nat.ltb_spec (length done) (length (done ++ Statement id e :: rest)))
      as [_|Hge]; [|rewrite length_app in Hge; cbn [length] in Hge; lia].
    cbn [mbind Result_bind].
    rewrite insert_app_r_alt, Nat.sub_diag by lia. cbn [insert list_insert].
    destruct (IH (done ++ [Statement id e'])
                 (mkState (done ++ Statement id e' :: rest) (S (length done))
                          (declarations st1) (gen_var_count st1) (failures st1)
                          (next_id st1)) turns)
      as (st' & rest' & El & B' & I' & P' & C' & D' & G' & N').
    + cbn [body]. by rewrite <- app_assoc.
    + cbn [_counter]. rewrite length_app. cbn [length]. lia.
    + exact Hp.
    + lia.
    + cbn [length] in Ht. lia.
    + exists st', (Statement id e' :: rest'). split; [exact El|].
      rewrite B', <- app_assoc. cbn [app]. split; [reflexivity|].
      split; [cbn [fmap list_fmap statement_id]; by rewrite <- I'|].
      split; [by constructor|].
      split; [by rewrite C', B', <- app_assoc|].
      cbn [declarations gen_var_count next_id] in D', G', N'.
      repeat split; congruence.
Qed.

(** X18.  [FlowScope.build] on a body whose statements hold no call, cast or
    declaration returns after one turn per statement: each statement is
    built once, in place and in order, the body keeps its length, the
    counter ends behind the last statement, and nothing is declared,
    named or created. *)
Theorem plain_body_is_built_in_place (turns fuel : nat) (st : State) :
  Forall (fun s => plain_statement s = true) (body st) ->
  depth_most (body st) ≤ fuel ->
  length (body st) ≤ turns ->
  ∃ st',
    FlowScope_build turns fuel st = Ok st' ∧
    length (body st') = length (body st) ∧
    statement_id <$> body st' = statement_id <$> body st ∧
    Forall (fun s => plain_statement s = true) (body st') ∧
    _counter st' = length (body st) ∧
    declarations st' = declarations st ∧
    gen_var_count st' = gen_var_count st ∧
    next_id st' = next_id st.
Proof.
  intros Hp Hd Ht. unfold Build.FlowScope_build.
  destruct (plain_loop fuel (body st) []
              (mkState (body st) 0 (declarations st) (gen_var_count st)
                       (failures st) (next_id st)) turns)
    as (st' & rest' & El & B' & I' & P' & C' & D' & G' & N'); try done.
  cbn [app] in B'. exists st'. split; [exact El|].
  assert (Hlen : length (body st') = length (body st)).
  { rewrite B'. apply (f_equal length) in I'. by rewrite !length_fmap in I'. }
  rewrite B' in *. repeat split; try done. by rewrite C'.
Qed.
End Facts.

Lemma build_only_adds_witness :
  ∃ n' st',
    Build.build resolved no_cast no_default plain_repr no_outer 12
                log_statement log_statement log_scope = Ok (n', st') ∧
    grows log_scope st'.
Proof.
  eexists _, _. split; [vm_compute; reflexivity|].
  eapply (build_only_adds resolved no_cast no_default plain_repr no_outer 12
            log_statement log_statement log_scope).
  vm_compute. reflexivity.
Defined.

Lemma plain_body_is_built_in_place_witness :
  ∃ st',
    Build.FlowScope_build resolved no_cast no_default plain_repr no_outer 2 3
      (mkState [Statement 0 (number "1"); Statement 1 (number "2")] 0 [] 0 [] 2)
      = Ok st' ∧
    length (body st') = 2.
Proof.
  destruct (plain_body_is_built_in_place resolved no_cast no_default
              plain_repr no_outer 2 3
              (mkState [Statement 0 (number "1"); Statement 1 (number "2")]
                       0 [] 0 [] 2))
    as (st' & E & L & _).
  - repeat constructor.
  - vm_compute. lia.
  - cbn [body length]. lia.
  - exists st'. split; [exact E|exact L].
Defined.

Lemma lowering_fails_away_from_a_body_statement_witness :
  Build.FunctionCall_build resolved no_cast no_default plain_repr no_outer
    (Build.build resolved no_cast no_default plain_repr no_outer 7)
    (number "0") 5 log_symbol log_args log_scope = Raise AssertionError.
Proof.
  eapply (lowering_fails_away_from_a_body_statement resolved no_cast
            no_default plain_repr no_outer 7 (number "0") 5 log_symbol
            log_args log_scope _ [] log_decl);
    [reflexivity|reflexivity|reflexivity|reflexivity|
     vm_compute; reflexivity|by left].
Defined.

Lemma flow_scope_build_keeps_every_statement_witness :
  ∃ st',
    Build.FlowScope_build resolved no_cast no_default plain_repr no_outer 2 12
                          log_scope = Ok st' ∧
    objects (body log_scope) `sublist_of` objects (body st') ∧
    _counter st' = length (body st').
Proof.
  assert (Hb : ∃ st',
             Build.FlowScope_build resolved no_cast no_default plain_repr
                                   no_outer 2 12 log_scope = Ok st')
    by (eexists; vm_compute; reflexivity).
  destruct Hb as (st' & E). exists st'. split; [exact E|].
  destruct (flow_scope_build_keeps_every_statement resolved no_cast
              no_default plain_repr no_outer
              (fun n t H => H) ltac:(intros d e H; discriminate H)
              2 12 log_scope st')
    as (H1 & _ & _ & _ & H5 & _).
  - repeat constructor.
  - apply (bool_decide_unpack _). vm_compute. exact I.
  - unfold ids_below. cbn [log_scope body next_id].
    repeat (apply Forall_cons_2; [intros i H; inversion H; lia|]).
    apply Forall_nil_2.
  - exact E.
  - split; [exact H1|exact H5].
Defined.
End CallsFacts.

(** ** The positions failures are recorded at *)
Module ReportingFacts.
Import Diagnostics Reporting.

Lemma fail_up_offset (chain : list Ancestor) (sev : Severity) (pos : nat)
    (msg : string) :
  fail_up chain sev pos msg = mkFailCall sev (pos + offset chain) msg.
Proof.
  revert pos. induction chain as [|[bp|] up IH]; intros pos;
    cbn [fail_up offset].
  - by rewrite Nat.add_0_r.
  - rewrite IH. f_equal. lia.
  - apply IH.
Qed.

(** X19.  A failure reported by a node reaches the root with its severity and
    message, at its position plus the body position of every function
    definition above the node.  A syntax error of a function body is
    recorded with the body position of that function added twice, since the
    handler adds it before it calls the [fail] of the function, which adds
    it again.  The failures of an imported file are all recorded at the
    position of the inclusion. *)
Theorem failures_are_recorded_at_offset_positions (body_pos self_pos : nat)
    (chain up : list Ancestor) (sev : Severity) (pos : nat) (msg : string)
    (fs : list Failure) :
  fail_up chain sev pos msg = mkFailCall sev (pos + offset chain) msg ∧
  FunctionDefinition_except body_pos up fs =
    (fun f => mkFailCall (severity f)
                (Diagnostics.pos f + 2 * body_pos + offset up)
                (Diagnostics.msg f)) <$> fs ∧
  GenericExternInclusion_except self_pos up fs =
    (fun e => mkFailCall (severity e) (self_pos + offset up)
                (Diagnostics.msg e)) <$> fs.
Proof.
  split; [apply fail_up_offset|]. split.
  - unfold FunctionDefinition_except. apply list_fmap_ext. intros _ f _.
    rewrite fail_up_offset. cbn [offset]. f_equal. lia.
  - unfold GenericExternInclusion_except. apply list_fmap_ext. intros _ e _.
    by rewrite fail_up_offset.
Qed.
End ReportingFacts.

(** ** Building a compound identifier again *)
Module RebuildLookupFacts.
Import Ast Lookup.

Section Again.
Variable parent_find : string -> DeclarationLookup.

(** Two elements that differ at most in their reference offset. *)
Local Abbreviation alike :=
  (Forall2 (fun a b : Identifier =>
              i_pos a = i_pos b ∧ i_name a = i_name b ∧ i_decl a = i_decl b)).

Lemma alike_build (l1 l2 : list Identifier) :
  alike l1 l2 -> Identifier_build <$> l1 = Identifier_build <$> l2.
Proof.
  induction 1 as [|a b l1 l2 (Hp & Hn & Hd) _ IH]; [reflexivity|].
  cbn [fmap list_fmap]. f_equal; [|exact IH].
  unfold Identifier_build, Lookup.set_ref_offset, Identifier_typ.
  by rewrite Hp, Hn, Hd.
Qed.

Lemma alike_built (l : list Identifier) : alike (Identifier_build <$> l) l.
Proof. induction l as [|e l IH]; constructor; [done|exact IH]. Qed.

Lemma resolve_elems_again (elems : list Identifier) :
  ∀ cur,
    ∃ l, resolve_elems parent_find cur
           (Identifier_build <$> (resolve_elems parent_find cur elems).1) =
         (l, (resolve_elems parent_find cur elems).2) ∧
         alike l (resolve_elems parent_find cur elems).1.
Proof.
  induction elems as [|e r IH]; intros cur.
  - exists []. split; [reflexivity|constructor].
  - cbn [resolve_elems].
    assert (Hl : ∀ d, lookup_elem parent_find cur
                        (Identifier_build (set_decl e d)) =
                      lookup_elem parent_find cur e)
      by (intros d; by destruct cur).
    destruct (lookup_elem parent_find cur e) as [[d|] err] eqn:El.
    + destruct (IH (Some d)) as (l & E & Hal).
      destruct (resolve_elems parent_find (Some d) r) as [r' f] eqn:Er.
      cbn [fst snd fmap list_fmap resolve_elems] in *.
      rewrite Hl, E.
      eexists. split; [reflexivity|]. constructor; [done|exact Hal].
    + cbn [fst snd fmap list_fmap resolve_elems]. rewrite Hl.
      eexists. split; [reflexivity|].
      constructor; [done|apply alike_built].
Qed.

(** X20.  Building a compound identifier a second time gives what the first build
    gave, elements and failure alike, as long as the first build kept the
    number of elements, that is, did not rewrite [vargs.length]. *)
Theorem compound_identifier_builds_the_same_again (elems : list Identifier) :
  length (CompoundIdentifier_build parent_find elems).1 = length elems ->
  CompoundIdentifier_build parent_find
    (CompoundIdentifier_build parent_find elems).1 =
  CompoundIdentifier_build parent_find elems.
Proof.
  unfold CompoundIdentifier_build, find_children_declarations.
  destruct (resolve_elems_again elems None) as (l & E & Hal).
  destruct (resolve_elems parent_find None elems) as [L f] eqn:Er.
  cbn [fst snd] in E, Hal.
  assert (HL : length L = length elems).
  { clear -Er. revert L f Er. generalize (@None DeclarationBase).
    induction elems as [|e r IH]; intros cur L f Er; cbn [resolve_elems] in Er.
    - by inversion Er.
    - destruct (lookup_elem parent_find cur e) as [[d|] err].
      + destruct (resolve_elems parent_find (Some d) r) as [r' f'] eqn:Er'.
        inversion Er; subst. cbn [length]. f_equal. by eapply IH.
      + by inversion Er. }
  destruct f as [f|].
  - cbn [fst]. intros _. rewrite E. cbn [fst]. by rewrite (alike_build _ _ Hal).
  - destruct L as [|e0 [|e1 r]].
    + cbn [fst]. intros _. rewrite E. by inversion Hal.
    + cbn [fst]. intros _. rewrite E.
      pose proof (alike_build _ _ Hal) as Hb.
      inversion Hal as [|? ? ? ? _ Hal']; subst. inversion Hal'; subst.
      by rewrite Hb.
    + pose proof (alike_build _ _ Hal) as Hb.
      inversion Hal as [|a0 ? ? ? _ Hal']; subst.
      inversion Hal' as [|a1 ? ? ? (_ & _ & Hd1) Hal'']; subst.
      destruct (i_decl e1) as [[| | |]|] eqn:Ed; cbn [fst];
        try (intros _; rewrite E, Hd1; by rewrite Hb).
      rewrite length_fmap. cbn [length]. rewrite <- HL. cbn [length]. lia.
Qed.

(** X21.  The second build of [vargs.length]: the first build left the single
    element [@vargs_len], which the second one looks up as a name and, when
    nothing declares that name, reports as undeclared. *)
Theorem vargs_length_does_not_build_again (t : Ty) (v m : Identifier) :
  parent_find (i_name v) = (Some (VArgs t), None) ->
  i_name m = "length" ->
  parent_find "@vargs_len" = (None, None) ->
  CompoundIdentifier_build parent_find
    (CompoundIdentifier_build parent_find [v; m]).1 =
  ([mkIdentifier (i_pos m) "@vargs_len" None 0],
   Some (Diagnostics.mkFailCall Diagnostics.Error (i_pos m)
           "use of undeclared identifier @vargs_len")).
Proof.
  intros Hv Hm Hl.
  unfold CompoundIdentifier_build at 2, find_children_declarations.
  cbn [resolve_elems lookup_elem]. rewrite Hv.
  cbn [lookup_elem get_inner_declaration]. rewrite Hm. cbn [String.eqb].
  cbn. unfold CompoundIdentifier_build, find_children_declarations.
  cbn [resolve_elems lookup_elem].
  change (i_name (Identifier_build
                    (set_name (set_decl m (Some VArgsLength)) "@vargs_len")))
    with "@vargs_len".
  rewrite Hl. reflexivity.
Qed.
End Again.

Lemma compound_identifier_builds_the_same_again_witness :
  CompoundIdentifier_build scope_with_p
    (CompoundIdentifier_build scope_with_p
       [mkIdentifier 4 "p" None 0; mkIdentifier 6 "x" None 0]).1 =
  CompoundIdentifier_build scope_with_p
    [mkIdentifier 4 "p" None 0; mkIdentifier 6 "x" None 0].
Proof.
  apply (compound_identifier_builds_the_same_again scope_with_p
           [mkIdentifier 4 "p" None 0; mkIdentifier 6 "x" None 0]).
  reflexivity.
Defined.

Lemma vargs_length_does_not_build_again_witness :
  CompoundIdentifier_build
    (fun n => if String.eqb n "vargs"
              then (Some (VArgs (BuiltinType "@int")), None)
              else (None, None))
    (CompoundIdentifier_build
       (fun n => if String.eqb n "vargs"
                 then (Some (VArgs (BuiltinType "@int")), None)
                 else (None, None))
       [mkIdentifier 3 "vargs" None 0; mkIdentifier 9 "length" None 0]).1 =
  ([mkIdentifier 9 "@vargs_len" None 0],
   Some (Diagnostics.mkFailCall Diagnostics.Error 9
           "use of undeclared identifier @vargs_len")).
Proof.
  apply (vargs_length_does_not_build_again
           (fun n => if String.eqb n "vargs"
                     then (Some (VArgs (BuiltinType "@int")), None)
                     else (None, None))
           (BuiltinType "@int")
           (mkIdentifier 3 "vargs" None 0) (mkIdentifier 9 "length" None 0));
    reflexivity.
Defined.
End RebuildLookupFacts.

(** ** The search through the import paths *)
Module ImportingFacts.
Import Diagnostics Inclusion Importing.

Section Facts.
Context {N : Type}.
Variable isdir isfile : string -> bool.
Variable listdir : string -> list string.
Variable join : string -> string -> string.
Variable abspath : string -> string.
Variable source_parse : string -> list N + list Diagnostics.Failure.

Local Abbreviation Import_parse :=
  (Inclusion.Import_parse isdir isfile listdir join abspath source_parse).
Local Abbreviation Import_build :=
  (Importing.Import_build isdir isfile listdir join abspath source_parse).
Local Abbreviation hit := (Importing.hit isdir isfile join abspath).

Lemma Import_parse_miss (fuel : nat) (pre rest : list string) (lib : string)
    (g : Globals) :
  Forall (fun p => hit lib p = false) pre ->
  Import_parse fuel (pre ++ rest) lib g = Import_parse fuel rest lib g.
Proof.
  induction 1 as [|p pre Hp _ IH]; [reflexivity|].
  cbn [app Inclusion.Import_parse]. unfold Importing.hit, candidate in Hp.
  apply orb_false_iff in Hp as [-> ->]. exact IH.
Qed.

Lemma Import_parse_hit (fuel : nat) (p : string) (rest : list string)
    (lib : string) (g : Globals) :
  hit lib p = true ->
  (Import_parse fuel (p :: rest) lib g).2 = false ∧
  Import_parse fuel (p :: rest) lib g = Import_parse fuel [p] lib g.
Proof.
  intros Hp. cbn [Inclusion.Import_parse]. unfold Importing.hit, candidate in Hp.
  destruct (isdir (abspath (join p lib))).
  - destruct (mem _ _); by split.
  - cbn [orb] in Hp. rewrite Hp.
    destruct (mem _ _); [by split|].
    destruct (source_parse _); by split.
Qed.

(** X22.  [Import.parse] tries the import paths in order and the first one under
    which the library is a directory, or a file with the suffix [.eh],
    decides: the paths after it are not looked at.  The error
    [no such file or directory] is reported, once and at the position of the
    import, exactly when no import path has the library; the import then
    brings in no node and the record of the imported files is as before. *)
Theorem import_paths_are_searched_in_order (fuel pos : nat)
    (import_paths : list string) (lib : string) (g : Globals) :
  (∀ pre p post,
     import_paths = pre ++ p :: post ->
     Forall (fun q => hit lib q = false) pre -> hit lib p = true ->
     Import_build fuel pos import_paths lib g =
     Import_build fuel pos [p] lib g) ∧
  ((Import_parse fuel import_paths lib g).2 = true ↔
   Forall (fun p => hit lib p = false) import_paths) ∧
  (Forall (fun p => hit lib p = false) import_paths ->
   Import_build fuel pos import_paths lib g =
   (Some ([], [mkFailCall Error pos (lib +:+ ": no such file or directory")]),
    g)).
Proof.
  split; [|split].
  - intros pre p post -> Hpre Hp. unfold Importing.Import_build.
    rewrite (Import_parse_miss fuel pre (p :: post) lib g Hpre).
    by rewrite (proj2 (Import_parse_hit fuel p post lib g Hp)).
  - induction import_paths as [|p rest IH].
    + split; [constructor|reflexivity].
    + destruct (hit lib p) eqn:Hp.
      * rewrite (proj1 (Import_parse_hit fuel p rest lib g Hp)).
        split; [discriminate|].
        intros H. apply Forall_cons in H as [H _]. congruence.
      * change (p :: rest) with ([p] ++ rest) at 1.
        rewrite (Import_parse_miss fuel [p] rest lib g)
          by (constructor; [exact Hp|constructor]).
        rewrite IH. split; [by constructor|].
        intros H. by apply Forall_cons in H as [_ H].
  - intros H. unfold Importing.Import_build.
    rewrite <- (app_nil_r import_paths).
    rewrite (Import_parse_miss fuel import_paths [] lib g H).
    reflexivity.
Qed.

Local Abbreviation import_dir :=
  (Inclusion.import_dir isdir isfile listdir join source_parse).
Local Abbreviation parsed_nodes := (Importing.parsed_nodes source_parse).

(** X24.  [Import.import_dir] on a directory without subdirectories whose entries
    are all new and distinct: every entry is recorded as imported, in the
    order of the listing; every entry that is a file is handed to
    [source.parse], whatever its name, and the nodes of the files come back
    in that order; an entry that is neither a file nor a directory is
    recorded all the same, though nothing is parsed for it. *)
Theorem flat_directory_is_imported_entry_by_entry (fuel : nat) (dir : string)
    (g : Globals) :
  let paths := join dir <$> listdir dir in
  NoDup paths ->
  Forall (fun p => isdir p = false ∧ (p ∉ read g (imported g)) ∧
                   (isfile p = true -> ∃ ns, source_parse p = inl ns)) paths ->
  ∃ g',
    import_dir (S fuel) dir g =
      (Nodes (mjoin (parsed_nodes <$>
                       filter (fun p => isfile p = true) paths)), g') ∧
    read g' (imported g') = read g (imported g) ++ paths ∧
    parsed g' = parsed g ++ filter (fun p => isfile p = true) paths ∧
    imported g' = imported g ∧ included g' = included g.
Proof.
  intros paths. unfold paths. clear paths. cbn [Inclusion.import_dir].
  change (Nodes (mjoin (parsed_nodes <$>
            filter (fun p => isfile p = true) (join dir <$> listdir dir))))
    with (Nodes ([] ++ mjoin (parsed_nodes <$>
            filter (fun p => isfile p = true) (join dir <$> listdir dir)))).
  generalize (@nil N) as res. revert g.
  induction (listdir dir) as [|sub r IH]; intros g res Hn Hf.
  - exists g. cbn [fmap list_fmap filter list_filter mjoin list_join].
    by rewrite !app_nil_r.
  - cbn [fmap list_fmap] in Hn, Hf |- *. cbn beta match fix.
    apply NoDup_cons in Hn as [Hsub Hn].
    apply Forall_cons in Hf as [(Hd & Hnew & Hp) Hf].
    assert (Hm : mem (join dir sub) (read g (imported g)) = false)
      by (unfold mem; by apply bool_decide_eq_false_2).
    rewrite Hm, Hd.
    rewrite filter_cons.
    destruct (isfile (join dir sub)) eqn:Ef.
    + destruct (Hp eq_refl) as (ns & Es). rewrite Es.
      destruct (decide (true = true)) as [_|]; [|done].
      destruct (IH (log_parse (join dir sub)
                      (append (imported g) (join dir sub) g)) (res ++ ns) Hn)
        as (g' & E & R1 & R2 & R3 & R4).
      { apply Forall_forall. intros p Hpin.
        rewrite Forall_forall in Hf. destruct (Hf p Hpin) as (A & B & C0).
        split; [exact A|]. split; [|exact C0].
        change (p ∉ read (append (imported g) (join dir sub) g) (imported g)).
        rewrite InclusionFacts.read_append. intros Hin.
        apply elem_of_app in Hin as [Hin|Hin]; [by apply B|].
        apply list_elem_of_singleton in Hin. subst. by apply Hsub. }
      exists g'. split.
      * rewrite E. cbn [fmap list_fmap mjoin list_join].
        unfold Importing.parsed_nodes at 2. rewrite Es.
        by rewrite <- app_assoc.
      * change (read g' (imported g') =
                read (append (imported g) (join dir sub) g) (imported g) ++
                (join dir <$> r)) in R1.
        rewrite InclusionFacts.read_append in R1.
        cbn [log_parse append imported included parsed] in R2, R3, R4.
        rewrite R1, R2, R3, R4, <- !app_assoc. by repeat split.
    + destruct (decide (false = true)) as [|_]; [done|].
      destruct (IH (append (imported g) (join dir sub) g) res Hn)
        as (g' & E & R1 & R2 & R3 & R4).
      { apply Forall_forall. intros p Hpin.
        rewrite Forall_forall in Hf. destruct (Hf p Hpin) as (A & B & C0).
        split; [exact A|]. split; [|exact C0].
        change (p ∉ read (append (imported g) (join dir sub) g) (imported g)).
        rewrite InclusionFacts.read_append. intros Hin.
        apply elem_of_app in Hin as [Hin|Hin]; [by apply B|].
        apply list_elem_of_singleton in Hin. subst. by apply Hsub. }
      exists g'. split; [exact E|].
      change (read g' (imported g') =
              read (append (imported g) (join dir sub) g) (imported g) ++
              (join dir <$> r)) in R1.
      rewrite InclusionFacts.read_append in R1.
      cbn [append imported included parsed] in R2, R3, R4.
      rewrite R1, R2, R3, R4, <- !app_assoc. by repeat split.
Qed.
End Facts.

Lemma flat_directory_is_imported_entry_by_entry_witness :
  ∃ g',
    Inclusion.import_dir no_dir only_m
      (fun _ => ["m.eh"; "notes.txt"]) slash empty_file 1 "/src" module_load =
      (Nodes [], g') ∧
    read g' (imported g') = ["/src/m.eh"; "/src/notes.txt"] ∧
    parsed g' = ["/src/m.eh"].
Proof.
  destruct (flat_directory_is_imported_entry_by_entry
              no_dir only_m (fun _ => ["m.eh"; "notes.txt"]) slash empty_file
              0 "/src" module_load)
    as (g' & E & R1 & R2 & _).
  - apply (bool_decide_unpack _). vm_compute. exact I.
  - repeat (apply Forall_cons_2;
            [split; [reflexivity|];
             split; [vm_compute; intros H; inversion H|];
             intros _; by exists []|]).
    apply Forall_nil_2.
  - exists g'. split; [exact E|]. split; [exact R1|exact R2].
Defined.
End ImportingFacts.
